(** * A shallow embedding of the sled-backed IndraDB datastore

    The seven sled trees of [SledHolder] (plus the metadata tree) are
    modelled as finite maps from keys to values.  A key built with
    [util::build(&[...])] is kept as the list of its components: the
    component codec is self-delimiting (fixed-width UUIDs, length-prefixed
    identifiers), so a byte-prefix scan under a prefix made of whole
    components is a component-list prefix scan.  JSON values are kept in
    their canonical serialized form (a string); a JSON component of a key
    is the [u64] hash of the value, under an abstract hasher.

    Every manager operation runs in a state/error/trace monad [M]:
    the store is threaded through, [indradb::Result] errors stop the
    computation (the [?] operator), and every tree access is recorded in
    a trace so that the order of writes can be stated.  The OKVS may fail
    a point read ([get], [contains_key]) on a key listed in the store's
    [faults] set; writes and scans do not fail. *)

From stdpp Require Import base gmap sets list strings.
From Stdlib Require Import Ascii.

(* ------------------------------------------------------------------ *)
(** ** Data model *)

Definition Uuid := N.
Definition Identifier := string.
(** A [serde_json::Value] in its canonical serialized form. *)
Definition Json := string.

(** The hash [util::build] writes for a [Component::Json]: the value is
    hashed with Rust's [DefaultHasher] and the [u64] result is written as 8
    big-endian bytes.  The hasher is left abstract: every statement below
    holds for any function into [u64], so two different values may share a
    hash. *)
Class JsonHash := {
  json_hash : Json → N;
  json_hash_lt j : (json_hash j < 2 ^ 64)%N
}.

(** One component of [indradb::util::Component]; [CJsonHash] is what
    [Component::Json] writes (the [u64] hash of the value), [CJson] the
    serialized value that [serde_json::to_vec] stores as a primary value. *)
Inductive Component :=
  | CUuid (u : Uuid)
  | CIdentifier (s : Identifier)
  | CJson (j : Json)
  | CJsonHash (h : N).

Global Instance Component_eq_dec : EqDecision Component.
Proof. solve_decision. Defined.

Global Instance Component_countable : Countable Component.
Proof.
  refine (inj_countable'
    (λ c, match c with
          | CUuid u => inl u
          | CIdentifier s => inr (inl s)
          | CJson j => inr (inr (inl j))
          | CJsonHash h => inr (inr (inr h))
          end)
    (λ x, match x with
          | inl u => CUuid u
          | inr (inl s) => CIdentifier s
          | inr (inr (inl j)) => CJson j
          | inr (inr (inr h)) => CJsonHash h
          end) _).
  by intros [].
Defined.

(** A key or a value as stored in a tree: the output of [util::build]. *)
Abbreviation Key := (list Component).
Abbreviation Val := (list Component).

(** [indradb::Edge] *)
Record Edge := mkEdge { outbound_id : Uuid; t : Identifier; inbound_id : Uuid }.

Global Instance Edge_eq_dec : EqDecision Edge.
Proof. solve_decision. Defined.

(** [indradb::Vertex]; its field [t] is called [vertex_t] here, as
    [t] already names the field of [Edge]. *)
Record Vertex := mkVertex { id : Uuid; vertex_t : Identifier }.

(** [lib.rs: reverse_edge] *)
Definition reverse_edge (edge : Edge) : Edge :=
  {| outbound_id := inbound_id edge; t := t edge; inbound_id := outbound_id edge |}.

(** The trees of [SledHolder]; [TVertices] is the default keyspace
    ([holder.db]), [TMetadata] the tree of the [MetaDataManager]. *)
Inductive TreeName :=
  | TVertices | TEdges | TEdgeRanges | TReversedEdgeRanges
  | TVertexProperties | TVertexPropertyValues
  | TEdgeProperties | TEdgePropertyValues | TMetadata.

Global Instance TreeName_eq_dec : EqDecision TreeName.
Proof. solve_decision. Defined.

Definition tree_index (tn : TreeName) : nat :=
  match tn with
  | TVertices => 0 | TEdges => 1 | TEdgeRanges => 2 | TReversedEdgeRanges => 3
  | TVertexProperties => 4 | TVertexPropertyValues => 5
  | TEdgeProperties => 6 | TEdgePropertyValues => 7 | TMetadata => 8
  end.

Definition tree_of_index (n : nat) : TreeName :=
  match n with
  | 0 => TVertices | 1 => TEdges | 2 => TEdgeRanges | 3 => TReversedEdgeRanges
  | 4 => TVertexProperties | 5 => TVertexPropertyValues
  | 6 => TEdgeProperties | 7 => TEdgePropertyValues | _ => TMetadata
  end.

Global Instance TreeName_countable : Countable TreeName.
Proof. refine (inj_countable' tree_index tree_of_index _). by intros []. Defined.

(** The whole persistent state, plus the in-memory registry of the
    [MetaDataManager] and the set of keys whose point reads fail. *)
Record Store := mkStore {
  db_tree : gmap Key Val;
  edges_tree : gmap Key Val;
  edge_ranges_tree : gmap Key Val;
  reversed_edge_ranges_tree : gmap Key Val;
  vertex_properties_tree : gmap Key Val;
  vertex_property_values_tree : gmap Key Val;
  edge_properties_tree : gmap Key Val;
  edge_property_values_tree : gmap Key Val;
  metadata_tree : gmap Key Val;
  indexed_properties : gset string;
  faults : gset (TreeName * Key)
}.

Definition tree_of (s : Store) (tn : TreeName) : gmap Key Val :=
  match tn with
  | TVertices => db_tree s
  | TEdges => edges_tree s
  | TEdgeRanges => edge_ranges_tree s
  | TReversedEdgeRanges => reversed_edge_ranges_tree s
  | TVertexProperties => vertex_properties_tree s
  | TVertexPropertyValues => vertex_property_values_tree s
  | TEdgeProperties => edge_properties_tree s
  | TEdgePropertyValues => edge_property_values_tree s
  | TMetadata => metadata_tree s
  end.

Abbreviation vertices s := (tree_of s TVertices).
Abbreviation edges s := (tree_of s TEdges).
Abbreviation edge_ranges s := (tree_of s TEdgeRanges).
Abbreviation reversed_edge_ranges s := (tree_of s TReversedEdgeRanges).
Abbreviation vertex_properties s := (tree_of s TVertexProperties).
Abbreviation vertex_property_values s := (tree_of s TVertexPropertyValues).
Abbreviation edge_properties s := (tree_of s TEdgeProperties).
Abbreviation edge_property_values s := (tree_of s TEdgePropertyValues).
Abbreviation metadata s := (tree_of s TMetadata).

Definition set_tree (s : Store) (tn : TreeName) (m : gmap Key Val) : Store :=
  let '(mkStore v e er rer vp vpv ep epv md ip fl) := s in
  match tn with
  | TVertices => mkStore m e er rer vp vpv ep epv md ip fl
  | TEdges => mkStore v m er rer vp vpv ep epv md ip fl
  | TEdgeRanges => mkStore v e m rer vp vpv ep epv md ip fl
  | TReversedEdgeRanges => mkStore v e er m vp vpv ep epv md ip fl
  | TVertexProperties => mkStore v e er rer m vpv ep epv md ip fl
  | TVertexPropertyValues => mkStore v e er rer vp m ep epv md ip fl
  | TEdgeProperties => mkStore v e er rer vp vpv m epv md ip fl
  | TEdgePropertyValues => mkStore v e er rer vp vpv ep m md ip fl
  | TMetadata => mkStore v e er rer vp vpv ep epv m ip fl
  end.

Definition set_indexed (s : Store) (ip : gset string) : Store :=
  let '(mkStore v e er rer vp vpv ep epv md _ fl) := s in
  mkStore v e er rer vp vpv ep epv md ip fl.

Definition empty_store : Store :=
  mkStore ∅ ∅ ∅ ∅ ∅ ∅ ∅ ∅ ∅ ∅ ∅.

(* ------------------------------------------------------------------ *)
(** ** Results, the trace and the monad *)

(** [indradb::Error]: storage errors are [Datastore], serde errors [Json]. *)
Inductive Error := Datastore | JsonErr.

Inductive Result (A : Type) := Ok (a : A) | Err (e : Error).
Arguments Ok {A} a.
Arguments Err {A} e.

(** An operation of a [sled::Batch]. *)
Inductive BatchOp := BInsert (k : Key) (v : Val) | BRemove (k : Key).

Definition batch_op_apply (m : gmap Key Val) (op : BatchOp) : gmap Key Val :=
  match op with
  | BInsert k v => <[k := v]> m
  | BRemove k => delete k m
  end.

Definition batch_apply (b : list BatchOp) (m : gmap Key Val) : gmap Key Val :=
  fold_left batch_op_apply b m.

(** What the program asked of the OKVS, in order. *)
Inductive Event :=
  | EvGet (tn : TreeName) (k : Key)
  | EvScan (tn : TreeName) (prefix : Key)
  | EvInsert (tn : TreeName) (k : Key)
  | EvRemove (tn : TreeName) (k : Key)
  | EvApplyBatch (tn : TreeName) (b : list BatchOp)
  | EvFlush.

Record Outcome (A : Type) := mkOut { out_res : Result A; out_st : Store; out_log : list Event }.
Arguments mkOut {A} _ _ _.
Arguments out_res {A} _.
Arguments out_st {A} _.
Arguments out_log {A} _.

Definition M (A : Type) : Type := Store → Outcome A.

Global Instance M_ret : MRet M := λ A a s, mkOut (Ok a) s [].
Global Instance M_bind : MBind M := λ A B f m s,
  match m s with
  | mkOut (Ok a) s1 l1 =>
      match f a s1 with mkOut r s2 l2 => mkOut r s2 (l1 ++ l2) end
  | mkOut (Err e) s1 l1 => mkOut (Err e) s1 l1
  end.

(** The [?] operator on a plain [Result]. *)
Definition lift {A} (r : Result A) : M A := λ s, mkOut r s [].

(** [for item in items { body(item)?; }] *)
Fixpoint for_each {A} (f : A → M unit) (l : list A) : M unit :=
  match l with
  | [] => mret ()
  | x :: l' => f x ;; for_each f l'
  end.

(** [if let Ok(r) = m { r } else { false }] *)
Definition catch_false (m : M bool) : M bool := λ s,
  match m s with
  | mkOut (Ok b) s1 l1 => mkOut (Ok b) s1 l1
  | mkOut (Err _) s1 l1 => mkOut (Ok false) s1 l1
  end.

(** One item of a lazy iterator: the [Result] of a fallible step, which
    does not stop the iteration. *)
Definition attempt {A} (m : M A) : M (Result A) := λ s,
  match m s with mkOut r s1 l1 => mkOut (Ok r) s1 l1 end.

(** [Iterator::filter] with a monadic predicate, in input order. *)
Fixpoint filterM {A} (p : A → M bool) (l : list A) : M (list A) :=
  match l with
  | [] => mret []
  | x :: l' =>
      b ← p x;
      rest ← filterM p l';
      mret (M := M) (if b : bool then x :: rest else rest)
  end.

(* ------------------------------------------------------------------ *)
(** ** The OKVS primitives ([sled::Tree]) *)

Fixpoint starts_with (prefix k : Key) : bool :=
  match prefix, k with
  | [], _ => true
  | c :: prefix', c' :: k' => bool_decide (c = c') && starts_with prefix' k'
  | _ :: _, [] => false
  end.

Definition tree_get (tn : TreeName) (k : Key) : M (option Val) := λ s,
  if bool_decide ((tn, k) ∈ faults s) then mkOut (A := option Val) (Err Datastore) s [EvGet tn k]
  else mkOut (Ok (tree_of s tn !! k)) s [EvGet tn k].

Definition tree_contains_key (tn : TreeName) (k : Key) : M bool := λ s,
  if bool_decide ((tn, k) ∈ faults s) then mkOut (A := bool) (Err Datastore) s [EvGet tn k]
  else mkOut (Ok (bool_decide (is_Some (tree_of s tn !! k)))) s [EvGet tn k].

Definition tree_insert (tn : TreeName) (k : Key) (v : Val) : M unit := λ s,
  mkOut (Ok ()) (set_tree s tn (<[k := v]> (tree_of s tn))) [EvInsert tn k].

Definition tree_remove (tn : TreeName) (k : Key) : M unit := λ s,
  mkOut (Ok ()) (set_tree s tn (delete k (tree_of s tn))) [EvRemove tn k].

(** [scan_prefix]: the entries under [prefix].  The loops that consume a
    scan in this code only remove the entry they are visiting (or entries
    of other trees), so reading the entries when the scan starts gives the
    same items as sled's live iterator. *)
Definition tree_scan_prefix (tn : TreeName) (prefix : Key) : M (list (Key * Val)) := λ s,
  mkOut (Ok (filter (λ kv, starts_with prefix kv.1 = true) (map_to_list (tree_of s tn))))
        s [EvScan tn prefix].

(** The byte order of encoded keys, component by component: a UUID is 16
    big-endian bytes, an identifier a length byte followed by its bytes, a
    JSON hash 8 big-endian bytes, and a key that is a proper prefix of
    another comes first.  The order between components of different kinds,
    and of serialized values, is not sled's here: the only range read of
    this code runs over the vertex tree, whose keys are single UUIDs. *)
Definition component_compare (c c' : Component) : comparison :=
  match c, c' with
  | CUuid a, CUuid b => N.compare a b
  | CIdentifier x, CIdentifier y =>
      match Nat.compare (String.length x) (String.length y) with
      | Eq => String.compare x y
      | r => r
      end
  | CJson x, CJson y => String.compare x y
  | CJsonHash a, CJsonHash b => N.compare a b
  | CUuid _, _ => Lt
  | _, CUuid _ => Gt
  | CIdentifier _, _ => Lt
  | _, CIdentifier _ => Gt
  | CJson _, _ => Lt
  | _, CJson _ => Gt
  end.

Fixpoint key_compare (k k' : Key) : comparison :=
  match k, k' with
  | [], [] => Eq
  | [], _ :: _ => Lt
  | _ :: _, [] => Gt
  | c :: k1, c' :: k1' =>
      match component_compare c c' with
      | Eq => key_compare k1 k1'
      | r => r
      end
  end.

(** [tree.range(low..)]: the entries whose key is not below [low].  Only
    which entries are read matters below, not their order; the read is
    not recorded in the trace. *)
Definition tree_range (tn : TreeName) (low : Key) : M (list (Key * Val)) := λ s,
  mkOut (Ok (filter (λ kv, key_compare low kv.1 ≠ Gt) (map_to_list (tree_of s tn)))) s [].

Definition tree_apply_batch (tn : TreeName) (b : list BatchOp) : M unit := λ s,
  mkOut (Ok ()) (set_tree s tn (batch_apply b (tree_of s tn))) [EvApplyBatch tn b].

Definition db_flush : M unit := λ s, mkOut (Ok ()) s [EvFlush].

(* ------------------------------------------------------------------ *)
(** ** Codec readers ([util::read_*] on a cursor)

    A cursor reads the components it is asked for from the front of the
    key and ignores what follows; a key too short or of another layout
    is a decode error, surfaced as [Datastore]. *)

(** [serde_json::to_vec] and [serde_json::from_slice] on a primary value. *)
Definition to_vec (value : Json) : Val := [CJson value].

Definition from_slice (v : Val) : Result Json :=
  match v with
  | [CJson j] => Ok j
  | _ => Err JsonErr
  end.

Definition map_result {A B} (f : A → B) (r : Result A) : Result B :=
  match r with Ok a => Ok (f a) | Err e => Err e end.

(* ------------------------------------------------------------------ *)
(** ** [VertexPropertyManager] *)

Module VertexPropertyManager.

Definition key (vertex_id : Uuid) (name : Identifier) : Key :=
  [CUuid vertex_id; CIdentifier name].

Definition key_value_index `{!JsonHash} (vertex_id : Uuid) (value : Json)
    (property_name : Identifier) : Key :=
  [CIdentifier property_name; CJsonHash (json_hash value); CUuid vertex_id].

Definition read_key_value_index (buf : Key) : Result (Identifier * N * Uuid) :=
  match buf with
  | CIdentifier name :: CJsonHash value :: CUuid uuid :: _ => Ok (name, value, uuid)
  | _ => Err Datastore
  end.

Definition value_iterate_uuids (items : list (Key * Val)) : list (Result Uuid) :=
  map (λ kv, map_result (λ '(_, _, vid), vid) (read_key_value_index kv.1)) items.

Definition iterate_for_property_name (name : Identifier) : M (list (Result Uuid)) :=
  items ← tree_scan_prefix TVertexPropertyValues [CIdentifier name];
  mret (value_iterate_uuids items).

Definition iterate_for_property_name_and_value `{!JsonHash} (name : Identifier) (value : Json)
  : M (list (Result Uuid)) :=
  items ← tree_scan_prefix TVertexPropertyValues [CIdentifier name; CJsonHash (json_hash value)];
  mret (value_iterate_uuids items).

Definition read_owned (kv : Key * Val) : Result ((Uuid * Identifier) * Json) :=
  match kv.1 with
  | CUuid owner_id :: CIdentifier name :: _ =>
      map_result (λ value, ((owner_id, name), value)) (from_slice kv.2)
  | _ => Err Datastore
  end.

Definition iterate_for_owner (vertex_id : Uuid)
  : M (list (Result ((Uuid * Identifier) * Json))) :=
  items ← tree_scan_prefix TVertexProperties [CUuid vertex_id];
  mret (map read_owned items).

Definition get (vertex_id : Uuid) (name : Identifier) : M (option Json) :=
  r ← tree_get TVertexProperties (key vertex_id name);
  match r with
  | Some value_bytes => j ← lift (from_slice value_bytes); mret (Some j)
  | None => mret None
  end.

Definition set `{!JsonHash} (vertex_id : Uuid) (name : Identifier) (value : Json) : M unit :=
  let k := key vertex_id name in
  let value_json := to_vec value in
  old ← tree_get TVertexProperties k;
  (match old with
   | Some old =>
       old_value ← lift (from_slice old);
       tree_remove TVertexPropertyValues (key_value_index vertex_id old_value name)
   | None => mret ()
   end);;
  tree_insert TVertexProperties k value_json;;
  tree_insert TVertexPropertyValues (key_value_index vertex_id value name) value_json.

Definition delete `{!JsonHash} (vertex_id : Uuid) (name : Identifier) : M unit :=
  old_value ← tree_get TVertexProperties (key vertex_id name);
  tree_remove TVertexProperties (key vertex_id name);;
  match old_value with
  | Some old_value =>
      old ← lift (from_slice old_value);
      tree_remove TVertexPropertyValues (key_value_index vertex_id old name)
  | None => mret ()
  end.

End VertexPropertyManager.

(* ------------------------------------------------------------------ *)
(** ** [EdgePropertyManager] *)

Module EdgePropertyManager.

Definition key (edge : Edge) (name : Identifier) : Key :=
  [CUuid (outbound_id edge); CIdentifier (t edge); CUuid (inbound_id edge); CIdentifier name].

Definition owner_prefix (edge : Edge) : Key :=
  [CUuid (outbound_id edge); CIdentifier (t edge); CUuid (inbound_id edge)].

Definition read_key (buf : Key) : Result (Edge * Identifier) :=
  match buf with
  | CUuid o :: CIdentifier et :: CUuid i :: CIdentifier name :: _ =>
      Ok (mkEdge o et i, name)
  | _ => Err Datastore
  end.

Definition key_value_index `{!JsonHash} (edge : Edge) (value : Json)
    (property_name : Identifier) : Key :=
  [CIdentifier property_name; CJsonHash (json_hash value);
   CUuid (outbound_id edge); CIdentifier (t edge); CUuid (inbound_id edge)].

Definition read_key_value_index (buf : Key) : Result (Identifier * N * Edge) :=
  match buf with
  | CIdentifier name :: CJsonHash value :: CUuid o :: CIdentifier et :: CUuid i :: _ =>
      Ok (name, value, mkEdge o et i)
  | _ => Err Datastore
  end.

Definition value_iterate_edges (items : list (Key * Val)) : list (Result Edge) :=
  map (λ kv, map_result (λ '(_, _, edge), edge) (read_key_value_index kv.1)) items.

Definition iterate_for_property_name (name : Identifier) : M (list (Result Edge)) :=
  items ← tree_scan_prefix TEdgePropertyValues [CIdentifier name];
  mret (value_iterate_edges items).

Definition iterate_for_property_name_and_value `{!JsonHash} (name : Identifier) (value : Json)
  : M (list (Result Edge)) :=
  items ← tree_scan_prefix TEdgePropertyValues [CIdentifier name; CJsonHash (json_hash value)];
  mret (value_iterate_edges items).

Definition read_owned (kv : Key * Val) : Result ((Edge * Identifier) * Json) :=
  match read_key kv.1 with
  | Ok (edge, p_name) => map_result (λ value, ((edge, p_name), value)) (from_slice kv.2)
  | Err e => Err e
  end.

Definition iterate_for_owner (edge : Edge) : M (list (Result ((Edge * Identifier) * Json))) :=
  items ← tree_scan_prefix TEdgeProperties (owner_prefix edge);
  mret (map read_owned items).

Definition get (edge : Edge) (name : Identifier) : M (option Json) :=
  r ← tree_get TEdgeProperties (key edge name);
  match r with
  | Some value_bytes => j ← lift (from_slice value_bytes); mret (Some j)
  | None => mret None
  end.

Definition set `{!JsonHash} (edge : Edge) (name : Identifier) (value : Json) : M unit :=
  let k := key edge name in
  let value_json := to_vec value in
  old_value ← tree_get TEdgeProperties k;
  (match old_value with
   | Some old_value =>
       old ← lift (from_slice old_value);
       tree_remove TEdgePropertyValues (key_value_index edge old name)
   | None => mret ()
   end);;
  tree_insert TEdgeProperties k value_json;;
  tree_insert TEdgePropertyValues (key_value_index edge value name) value_json.

Definition delete `{!JsonHash} (edge : Edge) (name : Identifier) : M unit :=
  old_value ← tree_get TEdgeProperties (key edge name);
  tree_remove TEdgeProperties (key edge name);;
  match old_value with
  | Some old_value =>
      old ← lift (from_slice old_value);
      tree_remove TEdgePropertyValues (key_value_index edge old name)
  | None => mret ()
  end.

End EdgePropertyManager.

(* ------------------------------------------------------------------ *)
(** ** [EdgeRangeManager]: an instance is the tree it works on. *)

Module EdgeRangeManager.

Definition new : TreeName := TEdgeRanges.
Definition new_reversed : TreeName := TReversedEdgeRanges.

Definition key (first_id : Uuid) (et : Identifier) (second_id : Uuid) : Key :=
  [CUuid first_id; CIdentifier et; CUuid second_id].

Definition read_item (k : Key) : Result (Uuid * Identifier * Uuid) :=
  match k with
  | CUuid first_id :: CIdentifier et :: CUuid second_id :: _ => Ok (first_id, et, second_id)
  | _ => Err Datastore
  end.

Definition contains (tree : TreeName) (edge : Edge) : M bool :=
  tree_contains_key tree (key (outbound_id edge) (t edge) (inbound_id edge)).

(** [take_while_prefixed] over [scan_prefix] keeps every item: the scan
    only yields keys under the prefix. *)
Definition iterate_for_owner (tree : TreeName) (owner : Uuid)
  : M (list (Result (Uuid * Identifier * Uuid))) :=
  items ← tree_scan_prefix tree [CUuid owner];
  mret (map (λ kv, read_item kv.1) items).

(** Modelled from the spec: [iterate_for_all], called by [all_edges],
    is not in the sources; the spec has [all_edges] enumerate the
    forward range tree, each key read back as an [Edge]. *)
Definition iterate_for_all (tree : TreeName) : M (list (Result Edge)) :=
  items ← tree_scan_prefix tree [];
  mret (map (λ kv, map_result (λ '(o, et, i), mkEdge o et i) (read_item kv.1)) items).

Definition set (tree : TreeName) (first_id : Uuid) (et : Identifier) (second_id : Uuid) : M unit :=
  tree_insert tree (key first_id et second_id) [].

(** Modelled from the spec: [EdgeRangeManager::set_batch], called by
    [EdgeManager::set_batch], is not in the sources; it adds the range
    key of the edge to the caller's batch. *)
Definition set_batch (edge : Edge) (range_batch : list BatchOp) : list BatchOp :=
  range_batch ++ [BInsert (key (outbound_id edge) (t edge) (inbound_id edge)) []].

Definition delete (tree : TreeName) (first_id : Uuid) (et : Identifier) (second_id : Uuid) : M unit :=
  tree_remove tree (key first_id et second_id).

End EdgeRangeManager.

(* ------------------------------------------------------------------ *)
(** ** [EdgeManager] *)

Module EdgeManager.

Definition key (edge : Edge) : Key :=
  [CUuid (outbound_id edge); CIdentifier (t edge); CUuid (inbound_id edge)].

Definition count (s : Store) : nat := size (edges s).

(** Returns the three batches after the edge's entries are added. *)
Definition set_batch (edge : Edge) (batch range_batch range_rev_batch : list BatchOp)
  : list BatchOp * list BatchOp * list BatchOp :=
  (batch ++ [BInsert (key edge) []],
   EdgeRangeManager.set_batch edge range_batch,
   EdgeRangeManager.set_batch (reverse_edge edge) range_rev_batch).

Definition set (edge : Edge) : M unit :=
  tree_insert TEdges (key edge) [];;
  EdgeRangeManager.set EdgeRangeManager.new (outbound_id edge) (t edge) (inbound_id edge);;
  let r := reverse_edge edge in
  EdgeRangeManager.set EdgeRangeManager.new_reversed (outbound_id r) (t r) (inbound_id r).

Definition delete `{!JsonHash} (edge : Edge) : M unit :=
  tree_remove TEdges (key edge);;
  EdgeRangeManager.delete EdgeRangeManager.new (outbound_id edge) (t edge) (inbound_id edge);;
  (let r := reverse_edge edge in
   EdgeRangeManager.delete EdgeRangeManager.new_reversed (outbound_id r) (t r) (inbound_id r));;
  items ← EdgePropertyManager.iterate_for_owner edge;
  for_each (λ item,
    '((e, pid), _) ← lift item;
    EdgePropertyManager.delete e pid) items.

End EdgeManager.

(* ------------------------------------------------------------------ *)
(** ** [VertexManager] (tree: the default keyspace) *)

Module VertexManager.

Definition key (vid : Uuid) : Key := [CUuid vid].

Definition count (s : Store) : nat := size (vertices s).

Definition exists_ (vid : Uuid) : M bool :=
  r ← tree_get TVertices (key vid);
  mret (bool_decide (is_Some r)).

Definition get (vid : Uuid) : M (option Identifier) :=
  r ← tree_get TVertices (key vid);
  match r with
  | Some (CIdentifier label :: _) => mret (Some label)
  | Some _ => lift (Err Datastore)
  | None => mret None
  end.

Definition create (vertex : Vertex) : M bool :=
  let k := key (id vertex) in
  b ← tree_contains_key TVertices k;
  if b : bool then mret false
  else tree_insert TVertices k [CIdentifier (vertex_t vertex)];; mret true.

(** Modelled from the spec: [VertexManager::create_batch], called by
    [bulk_insert], is not in the sources; it adds the vertex row to the
    caller's batch. *)
Definition create_batch (vertex : Vertex) (batch : list BatchOp) : list BatchOp :=
  batch ++ [BInsert (key (id vertex)) [CIdentifier (vertex_t vertex)]].

(** The closure of [iterate]: the key read as a UUID, the value as the
    vertex type. *)
Definition read_item (kv : Key * Val) : Result (Uuid * Identifier) :=
  match kv.1, kv.2 with
  | CUuid vid :: _, CIdentifier label :: _ => Ok (vid, label)
  | _, _ => Err Datastore
  end.

Definition iterate (items : list (Key * Val)) : list (Result (Uuid * Identifier)) :=
  map read_item items.

Definition iterate_for_range (vid : Uuid) : M (list (Result (Uuid * Identifier))) :=
  items ← tree_range TVertices [CUuid vid];
  mret (iterate items).

Definition delete `{!JsonHash} (vid : Uuid) : M unit :=
  tree_remove TVertices (key vid);;
  props ← VertexPropertyManager.iterate_for_owner vid;
  for_each (λ item,
    '((vertex_property_owner_id, vertex_property_name), _) ← lift item;
    VertexPropertyManager.delete vertex_property_owner_id vertex_property_name) props;;
  fwd ← EdgeRangeManager.iterate_for_owner EdgeRangeManager.new vid;
  for_each (λ item,
    '(edge_range_outbound_id, edge_range_t, edge_range_inbound_id) ← lift item;
    EdgeManager.delete (mkEdge edge_range_outbound_id edge_range_t edge_range_inbound_id)) fwd;;
  rev ← EdgeRangeManager.iterate_for_owner EdgeRangeManager.new_reversed vid;
  for_each (λ item,
    '(reversed_edge_range_inbound_id, reversed_edge_range_t, reversed_edge_range_outbound_id)
      ← lift item;
    EdgeManager.delete (mkEdge reversed_edge_range_outbound_id reversed_edge_range_t
                               reversed_edge_range_inbound_id)) rev.

End VertexManager.

(* ------------------------------------------------------------------ *)
(** ** [MetaDataManager] *)

Module MetaDataManager.

Definition INDEXED_PROPERTIES : Identifier := "IndexedProperties".

Definition read_indexed : M (gset string) := λ s, mkOut (Ok (indexed_properties s)) s [].
Definition write_indexed (ip : gset string) : M unit := λ s, mkOut (Ok ()) (set_indexed s ip) [].

Definition is_indexed (prop : Identifier) : M bool :=
  ip ← read_indexed; mret (bool_decide (prop ∈ ip)).

(** [sync]: remove every registry key, then insert one key per registered
    name.  Each [?] of the source is a bind of [M]; sled's [scan_prefix],
    [remove] and [insert] have no I/O error in this model, so the
    statements about [sync] below are made for calls that return [Ok]. *)
Definition sync : M unit :=
  items ← tree_scan_prefix TMetadata [CIdentifier INDEXED_PROPERTIES];
  for_each (λ kv, tree_remove TMetadata kv.1) items;;
  ip ← read_indexed;
  for_each (λ index, tree_insert TMetadata [CIdentifier INDEXED_PROPERTIES; CIdentifier index] [])
    (elements ip).

Definition add_index (prop : Identifier) : M unit :=
  ip ← read_indexed;
  if bool_decide (prop ∈ ip) then mret ()
  else write_indexed ({[prop]} ∪ ip);; sync.

Definition remove_index (prop : Identifier) : M unit :=
  ip ← read_indexed;
  if bool_decide (prop ∈ ip) then write_indexed (ip ∖ {[prop]});; sync
  else mret ().

(** The two [util::read_identifier] calls of [load] on a registry key. *)
Definition read_index_key (k : Key) : Result Identifier :=
  match k with
  | CIdentifier _ :: CIdentifier prop :: _ => Ok prop
  | _ => Err Datastore
  end.

Definition load : M unit :=
  items ← tree_scan_prefix TMetadata [CIdentifier INDEXED_PROPERTIES];
  for_each (λ kv,
    prop ← lift (read_index_key kv.1);
    ip ← read_indexed;
    write_indexed ({[prop]} ∪ ip)) items.

(** [MetaDataManager::new]: an empty registry, then [load]. *)
Definition new : M unit :=
  write_indexed ∅;; load.

End MetaDataManager.

(* ------------------------------------------------------------------ *)
(** ** [SledTransaction] *)

Inductive BulkInsertItem :=
  | BulkVertex (v : Vertex)
  | BulkEdge (e : Edge)
  | BulkVertexProperty (vid : Uuid) (p : Identifier) (v : Json)
  | BulkEdgeProperty (e : Edge) (p : Identifier) (v : Json).

Record IndraSledBatch := mkBatch {
  vertex_creation_batch : list BatchOp;
  edge_creation_batch : list BatchOp;
  edge_range_creation_batch : list BatchOp;
  edge_range_rev_creation_batch : list BatchOp
}.

Definition batch_default : IndraSledBatch := mkBatch [] [] [] [].

(** [IndraSledBatch::apply] *)
Definition batch_apply_all (b : IndraSledBatch) : M unit :=
  tree_apply_batch TVertices (vertex_creation_batch b);;
  tree_apply_batch TEdges (edge_creation_batch b);;
  tree_apply_batch TEdgeRanges (edge_range_creation_batch b);;
  tree_apply_batch TReversedEdgeRanges (edge_range_rev_creation_batch b).

Module SledTransaction.

Definition vertex_count (s : Store) : nat := VertexManager.count s.
Definition edge_count (s : Store) : nat := EdgeManager.count s.

Definition all_vertices : M (list (Result Vertex)) :=
  iter ← VertexManager.iterate_for_range 0%N;
  mret (map (map_result (λ '(vid, label), mkVertex vid label)) iter).

Definition range_vertices (offset : Uuid) : M (list (Result Vertex)) :=
  iter ← VertexManager.iterate_for_range offset;
  mret (map (map_result (λ '(vid, label), mkVertex vid label)) iter).

(** [filter_map] over [get(id).transpose()]: an absent vertex is dropped,
    a failed read is kept as an error item. *)
Fixpoint specific_vertices (ids : list Uuid) : M (list (Result Vertex)) :=
  match ids with
  | [] => mret []
  | vid :: ids' =>
      v ← attempt (VertexManager.get vid);
      rest ← specific_vertices ids';
      mret (match v with
            | Ok (Some label) => Ok (mkVertex vid label) :: rest
            | Ok None => rest
            | Err e => Err e :: rest
            end)
  end.

Definition all_edges : M (list (Result Edge)) :=
  EdgeRangeManager.iterate_for_all EdgeRangeManager.new.

Definition specific_edges (es : list Edge) : M (list (Result Edge)) :=
  iter ← filterM (λ e, catch_false (EdgeRangeManager.contains EdgeRangeManager.new e)) es;
  mret (map Ok iter).

Definition vertex_ids_with_property (name : Identifier) : M (option (list (Result Uuid))) :=
  b ← MetaDataManager.is_indexed name;
  if negb b then mret None
  else iter ← VertexPropertyManager.iterate_for_property_name name; mret (Some iter).

Definition vertex_ids_with_property_value `{!JsonHash} (name : Identifier) (value : Json)
  : M (option (list (Result Uuid))) :=
  b ← MetaDataManager.is_indexed name;
  if negb b then mret None
  else iter ← VertexPropertyManager.iterate_for_property_name_and_value name value;
       mret (Some iter).

Definition edges_with_property (name : Identifier) : M (option (list (Result Edge))) :=
  b ← MetaDataManager.is_indexed name;
  if negb b then mret None
  else iter ← EdgePropertyManager.iterate_for_property_name name; mret (Some iter).

Definition edges_with_property_value `{!JsonHash} (name : Identifier) (value : Json)
  : M (option (list (Result Edge))) :=
  b ← MetaDataManager.is_indexed name;
  if negb b then mret None
  else iter ← EdgePropertyManager.iterate_for_property_name_and_value name value;
       mret (Some iter).

Definition vertex_property (vertex : Vertex) (name : Identifier) : M (option Json) :=
  VertexPropertyManager.get (id vertex) name.

Definition all_vertex_properties_for_vertex (vertex : Vertex)
  : M (list (Result (Identifier * Json))) :=
  iter ← VertexPropertyManager.iterate_for_owner (id vertex);
  mret (map (map_result (λ '((_, name), val), (name, val))) iter).

Definition edge_property (edge : Edge) (name : Identifier) : M (option Json) :=
  EdgePropertyManager.get edge name.

Definition all_edge_properties_for_edge (edge : Edge) : M (list (Result (Identifier * Json))) :=
  iter ← EdgePropertyManager.iterate_for_owner edge;
  mret (map (map_result (λ '((_, pid), val), (pid, val))) iter).

Definition delete_vertices `{!JsonHash} (vs : list Vertex) : M unit :=
  for_each (λ v, VertexManager.delete (id v)) vs.

Definition delete_edges `{!JsonHash} (es : list Edge) : M unit :=
  for_each (λ item,
    o ← VertexManager.get (outbound_id item);
    if bool_decide (is_Some o) then EdgeManager.delete item else mret ()) es.

Definition delete_vertex_properties `{!JsonHash} (props : list (Uuid * Identifier)) : M unit :=
  for_each (λ '(vid, prop), VertexPropertyManager.delete vid prop) props.

Definition delete_edge_properties `{!JsonHash} (props : list (Edge * Identifier)) : M unit :=
  for_each (λ '(edge, prop), EdgePropertyManager.delete edge prop) props.

Definition sync : M unit :=
  MetaDataManager.sync;; db_flush.

Definition create_vertex (vertex : Vertex) : M bool :=
  VertexManager.create vertex.

Definition create_edge (edge : Edge) : M bool :=
  outbound_exists ← VertexManager.exists_ (outbound_id edge);
  inbound_exists ← VertexManager.exists_ (inbound_id edge);
  if negb outbound_exists || negb inbound_exists then mret false
  else EdgeManager.set edge;; mret true.

(** One turn of the partitioning loop of [bulk_insert]. *)
Definition bulk_step
    (acc : IndraSledBatch * list (Uuid * Identifier * Json) * list (Edge * Identifier * Json))
    (item : BulkInsertItem)
  : IndraSledBatch * list (Uuid * Identifier * Json) * list (Edge * Identifier * Json) :=
  let '(batch, vertex_props, edge_props) := acc in
  match item with
  | BulkVertex v =>
      (mkBatch (VertexManager.create_batch v (vertex_creation_batch batch))
               (edge_creation_batch batch) (edge_range_creation_batch batch)
               (edge_range_rev_creation_batch batch), vertex_props, edge_props)
  | BulkEdge e =>
      let '(b1, b2, b3) := EdgeManager.set_batch e (edge_creation_batch batch)
                             (edge_range_creation_batch batch)
                             (edge_range_rev_creation_batch batch) in
      (mkBatch (vertex_creation_batch batch) b1 b2 b3, vertex_props, edge_props)
  | BulkVertexProperty vid p v => (batch, vertex_props ++ [(vid, p, v)], edge_props)
  | BulkEdgeProperty e p v => (batch, vertex_props, edge_props ++ [(e, p, v)])
  end.

Definition bulk_insert `{!JsonHash} (items : list BulkInsertItem) : M unit :=
  let '(batch, vertex_props, edge_props) := fold_left bulk_step items (batch_default, [], []) in
  batch_apply_all batch;;
  for_each (λ '(vid, p, v), VertexPropertyManager.set vid p v) vertex_props;;
  for_each (λ '(e, p, v), EdgePropertyManager.set e p v) edge_props;;
  sync.

Definition index_property (name : Identifier) : M unit :=
  MetaDataManager.add_index name.

Definition set_vertex_properties `{!JsonHash} (vs : list Uuid) (name : Identifier) (value : Json) : M unit :=
  for_each (λ v, VertexPropertyManager.set v name value) vs.

Definition set_edge_properties `{!JsonHash} (es : list Edge) (name : Identifier) (value : Json) : M unit :=
  for_each (λ edge, EdgePropertyManager.set edge name value) es.

End SledTransaction.

(* ------------------------------------------------------------------ *)
(** ** The model under any JSON hasher

    From here to the witnesses every definition and statement is taken
    for an arbitrary [JsonHash]. *)

Section Model.
Context {jh : JsonHash}.

(** The mutating calls of the transaction surface. *)
Inductive TxOp :=
  | OpCreateVertex (v : Vertex)
  | OpCreateEdge (e : Edge)
  | OpDeleteVertices (vs : list Vertex)
  | OpDeleteEdges (es : list Edge)
  | OpDeleteVertexProperties (props : list (Uuid * Identifier))
  | OpDeleteEdgeProperties (props : list (Edge * Identifier))
  | OpSetVertexProperties (vs : list Uuid) (name : Identifier) (value : Json)
  | OpSetEdgeProperties (es : list Edge) (name : Identifier) (value : Json)
  | OpIndexProperty (name : Identifier)
  | OpBulkInsert (items : list BulkInsertItem)
  | OpSync.

Definition run_op (op : TxOp) : M unit :=
  match op with
  | OpCreateVertex v => _ ← SledTransaction.create_vertex v; mret ()
  | OpCreateEdge e => _ ← SledTransaction.create_edge e; mret ()
  | OpDeleteVertices vs => SledTransaction.delete_vertices vs
  | OpDeleteEdges es => SledTransaction.delete_edges es
  | OpDeleteVertexProperties props => SledTransaction.delete_vertex_properties props
  | OpDeleteEdgeProperties props => SledTransaction.delete_edge_properties props
  | OpSetVertexProperties vs n v => SledTransaction.set_vertex_properties vs n v
  | OpSetEdgeProperties es n v => SledTransaction.set_edge_properties es n v
  | OpIndexProperty n => SledTransaction.index_property n
  | OpBulkInsert items => SledTransaction.bulk_insert items
  | OpSync => SledTransaction.sync
  end.

(** Run calls one after the other, whatever each returns. *)
Fixpoint run_ops (ops : list TxOp) (s : Store) : Store :=
  match ops with
  | [] => s
  | op :: ops' => run_ops ops' (out_st (run_op op s))
  end.

(** The stores a fresh datastore can reach through the transaction surface. *)
Inductive reachable : Store → Prop :=
  | reachable_empty : reachable empty_store
  | reachable_step s op : reachable s → reachable (out_st (run_op op s)).

(** A store with the vertices 1, 2 and 3, the edges 1 -> 2 and 3 -> 1, and a
    property on vertex 1 and on the edge 1 -> 2. *)
Definition cascade_store : Store :=
  run_ops
    [OpCreateVertex (mkVertex 1%N "person"%string);
     OpCreateVertex (mkVertex 2%N "person"%string);
     OpCreateVertex (mkVertex 3%N "person"%string);
     OpCreateEdge (mkEdge 1%N "knows"%string 2%N);
     OpCreateEdge (mkEdge 3%N "knows"%string 1%N);
     OpSetVertexProperties [1%N] "age"%string "30"%string;
     OpSetEdgeProperties [mkEdge 1%N "knows"%string 2%N] "since"%string "2020"%string]
    empty_store.

(** The four kinds of items of a bulk insert, in input order. *)
Definition bulk_vertices (items : list BulkInsertItem) : list Vertex :=
  omap (λ it, match it with BulkVertex v => Some v | _ => None end) items.
Definition bulk_edges (items : list BulkInsertItem) : list Edge :=
  omap (λ it, match it with BulkEdge e => Some e | _ => None end) items.
Definition bulk_vertex_props (items : list BulkInsertItem) : list (Uuid * Identifier * Json) :=
  omap (λ it, match it with BulkVertexProperty vid p v => Some (vid, p, v) | _ => None end) items.
Definition bulk_edge_props (items : list BulkInsertItem) : list (Edge * Identifier * Json) :=
  omap (λ it, match it with BulkEdgeProperty e p v => Some (e, p, v) | _ => None end) items.

(** The three edge trees agree: an edge [(o, t, i)] is in the edges tree
    iff its forward range key [(o, t, i)] is in the range tree iff its
    reversed key [(i, t, o)] is in the reversed range tree. *)
Definition edge_consistent (s : Store) : Prop :=
  ∀ o et i,
    (is_Some (edges s !! EdgeManager.key (mkEdge o et i)) ↔
     is_Some (edge_ranges s !! EdgeRangeManager.key o et i)) ∧
    (is_Some (edge_ranges s !! EdgeRangeManager.key o et i) ↔
     is_Some (reversed_edge_ranges s !! EdgeRangeManager.key i et o)).

Definition keeps_consistent (s s' : Store) : Prop := edge_consistent s → edge_consistent s'.

(** What [delete_edges] must leave alone for an edge [e] it skips: the
    vertex tree and the faults (which decide the skip), the three keys of
    [e] and the edge-property entries owned by [e]. *)
Definition keeps_edge (e : Edge) (s s' : Store) : Prop :=
  vertices s' = vertices s ∧ faults s' = faults s ∧
  edges s' !! EdgeManager.key e = edges s !! EdgeManager.key e ∧
  edge_ranges s' !! EdgeRangeManager.key (outbound_id e) (t e) (inbound_id e) =
    edge_ranges s !! EdgeRangeManager.key (outbound_id e) (t e) (inbound_id e) ∧
  reversed_edge_ranges s' !! EdgeRangeManager.key (inbound_id e) (t e) (outbound_id e) =
    reversed_edge_ranges s !! EdgeRangeManager.key (inbound_id e) (t e) (outbound_id e) ∧
  (∀ k, starts_with (EdgePropertyManager.owner_prefix e) k = true →
        edge_properties s' !! k = edge_properties s !! k).

Definition skip_keeps (e : Edge) (s s' : Store) : Prop :=
  vertices s !! VertexManager.key (outbound_id e) = None → keeps_edge e s s'.

Definition same_vertices (s s' : Store) : Prop := vertices s' = vertices s ∧ faults s' = faults s.

(** The shape of the entries the code writes: the range trees hold exact
    [(first, t, second)] keys, the property trees exact owner-and-name keys
    with a serialized JSON value. *)
Definition entry_shape (tn : TreeName) (k : Key) (w : Val) : Prop :=
  match tn with
  | TEdgeRanges | TReversedEdgeRanges => ∃ o et i, k = EdgeRangeManager.key o et i
  | TVertexProperties => (∃ vid n, k = VertexPropertyManager.key vid n) ∧ ∃ j, w = to_vec j
  | TEdgeProperties => (∃ e n, k = EdgePropertyManager.key e n) ∧ ∃ j, w = to_vec j
  | _ => True
  end.

(** No read fails and every entry has its shape. *)
Definition well_formed (s : Store) : Prop :=
  faults s = ∅ ∧ ∀ tn k w, tree_of s tn !! k = Some w → entry_shape tn k w.

Definition keeps_well_formed (s s' : Store) : Prop := well_formed s → well_formed s'.

(** Every tree of [s'] is a sub-map of the same tree of [s]. *)
Definition submap (s s' : Store) : Prop :=
  faults s' = faults s ∧ ∀ tn k w, tree_of s' tn !! k = Some w → tree_of s tn !! k = Some w.

(** The events of the phases of [bulk_insert] after the batches: single-key
    operations on the vertex-property trees, single-key operations on the
    edge-property trees, and the metadata operations and flush of [sync]. *)
Definition vprop_event (ev : Event) : Prop :=
  match ev with
  | EvGet tn _ | EvInsert tn _ | EvRemove tn _ => tn = TVertexProperties ∨ tn = TVertexPropertyValues
  | _ => False
  end.

Definition eprop_event (ev : Event) : Prop :=
  match ev with
  | EvGet tn _ | EvInsert tn _ | EvRemove tn _ => tn = TEdgeProperties ∨ tn = TEdgePropertyValues
  | _ => False
  end.

Definition sync_event (ev : Event) : Prop :=
  match ev with
  | EvGet tn _ | EvScan tn _ | EvInsert tn _ | EvRemove tn _ => tn = TMetadata
  | EvFlush => True
  | EvApplyBatch _ _ => False
  end.

(** A relation that holds when a store property carries over. *)
Definition preserves (P : Store → Prop) (s s' : Store) : Prop := P s → P s'.

(** A value index mirrors a property tree: its entries are exactly the keys
    [(name, hash value, owner)] of the stored properties [(owner, name,
    value)], each holding the serialized value (not its hash).  [pkey] and [ikey] are the managers' [key] and
    [key_value_index]. *)
Section ValueIndex.
Context {O : Type}.
Variable pkey : O → Identifier → Key.
Variable ikey : O → Json → Identifier → Key.

Definition index_mirrors (P I : gmap Key Val) : Prop :=
  ∀ k w, I !! k = Some w ↔
    ∃ o name value, k = ikey o value name ∧ w = to_vec value ∧
                    P !! pkey o name = Some (to_vec value).

End ValueIndex.

Definition vp_index_consistent (s : Store) : Prop :=
  index_mirrors VertexPropertyManager.key VertexPropertyManager.key_value_index
    (vertex_properties s) (vertex_property_values s).

Definition ep_index_consistent (s : Store) : Prop :=
  index_mirrors EdgePropertyManager.key EdgePropertyManager.key_value_index
    (edge_properties s) (edge_property_values s).

(** The vertex tree holds rows [Uuid(id) -> Identifier(t)]. *)
Definition vertex_rows (s : Store) : Prop :=
  ∀ k w, vertices s !! k = Some w → ∃ vid label, k = VertexManager.key vid ∧ w = [CIdentifier label].

(** The trees of the vertex properties and of their value index, and the
    same for edges. *)
Definition vp_trees : list TreeName := [TVertexProperties; TVertexPropertyValues].
Definition ep_trees : list TreeName := [TEdgeProperties; TEdgePropertyValues].

(** The trees of the graph itself. *)
Definition graph_trees : list TreeName := [TVertices; TEdges; TEdgeRanges; TReversedEdgeRanges].

(** The registry keys under [IndexedProperties], as [sync] and [load] scan
    them. *)
Definition registry_prefix : Key := [CIdentifier MetaDataManager.INDEXED_PROPERTIES].

Definition registry_scan (s : Store) : list (Key * Val) :=
  filter (λ kv, starts_with registry_prefix kv.1 = true) (map_to_list (metadata s)).

(** One item of [all_vertices] and [range_vertices] from a vertex-tree entry. *)
Definition to_vertex_item (kv : Key * Val) : Result Vertex :=
  map_result (λ '(vid, label), mkVertex vid label) (VertexManager.read_item kv).

(** One item of [all_edges] from a forward range entry. *)
Definition to_edge_item (kv : Key * Val) : Result Edge :=
  map_result (λ '(o, et, i), mkEdge o et i) (EdgeRangeManager.read_item kv.1).

(** No trace of edge [e] is left: not in the edges tree, in either range
    tree, or as the owner of a property. *)
Definition edge_gone (e : Edge) (s : Store) : Prop :=
  edges s !! EdgeManager.key e = None ∧
  edge_ranges s !! EdgeRangeManager.key (outbound_id e) (t e) (inbound_id e) = None ∧
  reversed_edge_ranges s !! EdgeRangeManager.key (inbound_id e) (t e) (outbound_id e) = None ∧
  ∀ k, starts_with (EdgePropertyManager.owner_prefix e) k = true → edge_properties s !! k = None.

(** A store with the vertices 1 and 2, the edge 1 -> 2, the indexed
    properties [age] and [since], [age] set on both vertices and [since] on
    the edge. *)
Definition indexed_store : Store :=
  run_ops
    [OpCreateVertex (mkVertex 1%N "person"%string);
     OpCreateVertex (mkVertex 2%N "person"%string);
     OpCreateEdge (mkEdge 1%N "knows"%string 2%N);
     OpIndexProperty "age"%string;
     OpIndexProperty "since"%string;
     OpSetVertexProperties [1%N; 2%N] "age"%string "30"%string;
     OpSetEdgeProperties [mkEdge 1%N "knows"%string 2%N] "since"%string "2020"%string]
    empty_store.

(* ------------------------------------------------------------------ *)
(** ** Reasoning about [M] *)

Lemma bind_unfold {A B} (m : M A) (f : A → M B) s :
  (m ≫= f) s =
    match m s with
    | mkOut (Ok a) s1 l1 => match f a s1 with mkOut r s2 l2 => mkOut r s2 (l1 ++ l2) end
    | mkOut (Err e) s1 l1 => mkOut (Err e) s1 l1
    end.
Proof. reflexivity. Qed.

Lemma bind_ok_inv {A B} (m : M A) (f : A → M B) s b :
  out_res ((m ≫= f) s) = Ok b →
  ∃ a, out_res (m s) = Ok a ∧ out_res (f a (out_st (m s))) = Ok b ∧
       out_st ((m ≫= f) s) = out_st (f a (out_st (m s))).
Proof.
  rewrite bind_unfold. destruct (m s) as [[a|e] s1 l1]; simpl; [|discriminate].
  destruct (f a s1) as [r s2 l2] eqn:Hf; simpl. intros ->. exists a. rewrite Hf. auto.
Qed.

Lemma bind_ok {A B} (m : M A) (f : A → M B) s a :
  out_res (m s) = Ok a →
  (m ≫= f) s = mkOut (out_res (f a (out_st (m s)))) (out_st (f a (out_st (m s))))
                     (out_log (m s) ++ out_log (f a (out_st (m s)))).
Proof.
  rewrite bind_unfold. destruct (m s) as [[a'|e] s1 l1]; simpl; [|discriminate].
  intros [= ->]. by destruct (f a s1).
Qed.

Lemma bind_err {A B} (m : M A) (f : A → M B) s e :
  out_res (m s) = Err e → (m ≫= f) s = mkOut (Err e) (out_st (m s)) (out_log (m s)).
Proof.
  rewrite bind_unfold. destruct (m s) as [[a'|e'] s1 l1]; simpl; [discriminate|].
  by intros [= ->].
Qed.

Lemma for_each_ok_inv {A} (f : A → M unit) (l : list A) s :
  out_res (for_each f l s) = Ok () →
  ∀ a, a ∈ l → ∃ s1, out_res (f a s1) = Ok ().
Proof.
  revert s. induction l as [|x l IH]; intros s Hok a Ha; [set_solver|].
  simpl in Hok. apply bind_ok_inv in Hok as ([] & Hx & Hrest & _).
  apply elem_of_cons in Ha as [->|Ha]; eauto.
Qed.

Lemma tree_of_set_tree s tn tn' m :
  tree_of (set_tree s tn m) tn' = if decide (tn = tn') then m else tree_of s tn'.
Proof. destruct s, tn, tn'; reflexivity. Qed.

Lemma tree_of_set_indexed s ip tn : tree_of (set_indexed s ip) tn = tree_of s tn.
Proof. destruct s, tn; reflexivity. Qed.

Lemma faults_set_tree s tn m : faults (set_tree s tn m) = faults s.
Proof. destruct s, tn; reflexivity. Qed.

Lemma indexed_set_tree s tn m : indexed_properties (set_tree s tn m) = indexed_properties s.
Proof. destruct s, tn; reflexivity. Qed.

(** A relation between the store before and after a computation, which
    holds whatever the computation returns. *)
Section Stays.
Variable R : Store → Store → Prop.
Context `{!PreOrder R}.

Definition stays {A} (m : M A) : Prop := ∀ s, R s (out_st (m s)).

Lemma stays_ret {A} (a : A) : stays (mret a).
Proof. intros s. reflexivity. Qed.

Lemma stays_lift {A} (r : Result A) : stays (lift r).
Proof. intros s. reflexivity. Qed.

Lemma stays_bind {A B} (m : M A) (f : A → M B) :
  stays m → (∀ a, stays (f a)) → stays (m ≫= f).
Proof.
  intros Hm Hf s. rewrite bind_unfold. specialize (Hm s).
  destruct (m s) as [[a|e] s1 l1]; simpl in *; [|done].
  specialize (Hf a s1). destruct (f a s1); simpl in *. by transitivity s1.
Qed.

Lemma stays_get tn k : stays (tree_get tn k).
Proof. intros s. unfold tree_get. by case_bool_decide. Qed.

Lemma stays_contains_key tn k : stays (tree_contains_key tn k).
Proof. intros s. unfold tree_contains_key. by case_bool_decide. Qed.

Lemma stays_scan_prefix tn p : stays (tree_scan_prefix tn p).
Proof. intros s. reflexivity. Qed.

Lemma stays_read_indexed : stays MetaDataManager.read_indexed.
Proof. intros s. reflexivity. Qed.

Lemma stays_flush : stays db_flush.
Proof. intros s. reflexivity. Qed.

Lemma stays_for_each {A} (f : A → M unit) (l : list A) :
  (∀ a, a ∈ l → stays (f a)) → stays (for_each f l).
Proof.
  induction l as [|x l IH]; intros Hf; simpl; [apply stays_ret|].
  apply stays_bind; [apply Hf; set_solver|]. intros _. apply IH. set_solver.
Qed.

Lemma stays_catch_false (m : M bool) : stays m → stays (catch_false m).
Proof.
  intros Hm s. specialize (Hm s). unfold catch_false.
  by destruct (m s) as [[]].
Qed.

Lemma stays_filterM {A} (p : A → M bool) (l : list A) :
  (∀ a, stays (p a)) → stays (filterM p l).
Proof.
  intros Hp. induction l as [|x l IH]; simpl; [apply stays_ret|].
  apply stays_bind; [done|]. intros b. apply stays_bind; [done|]. intros. apply stays_ret.
Qed.

End Stays.

Create HintDb stays_db.
#[local] Hint Resolve stays_ret stays_lift stays_get stays_contains_key stays_scan_prefix
  stays_read_indexed stays_flush : stays_db.
#[local] Hint Extern 0 (PreOrder _) => typeclasses eauto : stays_db.

(** Break a computation into its primitives. *)
Ltac stays_split :=
  repeat match goal with
  | |- stays _ (mbind _ _) => apply stays_bind; [typeclasses eauto| |intros ?]
  | |- stays _ (for_each _ _) => apply stays_for_each; [typeclasses eauto|intros ? ?]
  | |- stays _ (match ?x with _ => _ end) => destruct x
  | |- stays _ _ => solve [eauto with stays_db]
  end.

(** *** Trees a computation does not write *)

Definition untouched (tns : list TreeName) (s s' : Store) : Prop :=
  ∀ tn, tn ∈ tns → tree_of s' tn = tree_of s tn.

Global Instance untouched_preorder tns : PreOrder (untouched tns).
Proof.
  split; [by intros s tn|].
  intros s1 s2 s3 H12 H23 tn Htn. rewrite H23, H12; done.
Qed.

Lemma untouched_insert tns tn k v :
  tn ∉ tns → stays (untouched tns) (tree_insert tn k v).
Proof.
  intros Hn s tn' Htn'. simpl. rewrite tree_of_set_tree.
  case_decide; [subst; done|done].
Qed.

Lemma untouched_remove tns tn k :
  tn ∉ tns → stays (untouched tns) (tree_remove tn k).
Proof.
  intros Hn s tn' Htn'. simpl. rewrite tree_of_set_tree.
  case_decide; [subst; done|done].
Qed.

Lemma untouched_apply_batch tns tn b :
  tn ∉ tns → stays (untouched tns) (tree_apply_batch tn b).
Proof.
  intros Hn s tn' Htn'. simpl. rewrite tree_of_set_tree.
  case_decide; [subst; done|done].
Qed.

Lemma untouched_write_indexed tns ip : stays (untouched tns) (MetaDataManager.write_indexed ip).
Proof. intros s tn _. simpl. apply tree_of_set_indexed. Qed.

#[local] Hint Resolve untouched_insert untouched_remove untouched_apply_batch
  untouched_write_indexed : stays_db.
#[local] Hint Extern 1 (_ ∉ _) => set_solver : stays_db.

Definition edge_trees : list TreeName := [TEdges; TEdgeRanges; TReversedEdgeRanges].

Lemma vpm_set_untouched_edges vid n v :
  stays (untouched edge_trees) (VertexPropertyManager.set vid n v).
Proof. unfold VertexPropertyManager.set. stays_split. Qed.

(** *** What a computation asks of the store, and computations that cannot fail *)

Section Logs.
Variable P : Event → Prop.

Definition logs {A} (m : M A) : Prop := ∀ s, Forall P (out_log (m s)).

Lemma logs_ret {A} (a : A) : logs (mret a).
Proof. intros s. constructor. Qed.

Lemma logs_bind {A B} (m : M A) (f : A → M B) :
  logs m → (∀ a, logs (f a)) → logs (m ≫= f).
Proof.
  intros Hm Hf s. rewrite bind_unfold. specialize (Hm s).
  destruct (m s) as [[a|e] s1 l1]; simpl in *; [|done].
  specialize (Hf a s1). destruct (f a s1); simpl in *. by apply Forall_app.
Qed.

Lemma logs_for_each {A} (f : A → M unit) (l : list A) :
  (∀ a, a ∈ l → logs (f a)) → logs (for_each f l).
Proof.
  induction l as [|x l IH]; intros Hf; simpl; [apply logs_ret|].
  apply logs_bind; [apply Hf; set_solver|]. intros _. apply IH. set_solver.
Qed.

Lemma logs_read_indexed : logs MetaDataManager.read_indexed.
Proof. intros s. constructor. Qed.

Lemma logs_write_indexed ip : logs (MetaDataManager.write_indexed ip).
Proof. intros s. constructor. Qed.

Lemma logs_scan_prefix tn p : P (EvScan tn p) → logs (tree_scan_prefix tn p).
Proof. intros Hp s. by constructor. Qed.

Lemma logs_insert tn k v : P (EvInsert tn k) → logs (tree_insert tn k v).
Proof. intros Hp s. by constructor. Qed.

Lemma logs_remove tn k : P (EvRemove tn k) → logs (tree_remove tn k).
Proof. intros Hp s. by constructor. Qed.

Lemma logs_get tn k : P (EvGet tn k) → logs (tree_get tn k).
Proof. intros Hp s. unfold tree_get. case_bool_decide; by constructor. Qed.

Lemma logs_lift {A} (r : Result A) : logs (lift r).
Proof. intros s. destruct r; constructor. Qed.

Lemma logs_flush : P EvFlush → logs db_flush.
Proof. intros Hp s. by constructor. Qed.

End Logs.

Definition never_fails {A} (m : M A) : Prop := ∀ s, ∃ a, out_res (m s) = Ok a.

Lemma never_fails_ret {A} (a : A) : never_fails (mret a).
Proof. intros s. by exists a. Qed.

Lemma never_fails_bind {A B} (m : M A) (f : A → M B) :
  never_fails m → (∀ a, never_fails (f a)) → never_fails (m ≫= f).
Proof.
  intros Hm Hf s. rewrite bind_unfold. destruct (Hm s) as [a Ha].
  destruct (m s) as [r s1 l1]; simpl in Ha; subst r.
  destruct (Hf a s1) as [b Hb]. destruct (f a s1); simpl in *. eauto.
Qed.

Lemma never_fails_for_each {A} (f : A → M unit) (l : list A) :
  (∀ a, a ∈ l → never_fails (f a)) → never_fails (for_each f l).
Proof.
  induction l as [|x l IH]; intros Hf; simpl; [apply never_fails_ret|].
  apply never_fails_bind; [apply Hf; set_solver|]. intros _. apply IH. set_solver.
Qed.

Lemma never_fails_read_indexed : never_fails MetaDataManager.read_indexed.
Proof. intros s. eexists; reflexivity. Qed.

Lemma never_fails_write_indexed ip : never_fails (MetaDataManager.write_indexed ip).
Proof. intros s. eexists; reflexivity. Qed.

Lemma never_fails_scan_prefix tn p : never_fails (tree_scan_prefix tn p).
Proof. intros s. eexists; reflexivity. Qed.

Lemma never_fails_insert tn k v : never_fails (tree_insert tn k v).
Proof. intros s. eexists; reflexivity. Qed.

Lemma never_fails_remove tn k : never_fails (tree_remove tn k).
Proof. intros s. eexists; reflexivity. Qed.

Create HintDb effects_db.
#[local] Hint Resolve logs_ret logs_read_indexed logs_write_indexed logs_scan_prefix
  logs_insert logs_remove logs_get logs_lift logs_flush never_fails_ret never_fails_read_indexed never_fails_write_indexed
  never_fails_scan_prefix never_fails_insert never_fails_remove : effects_db.

Ltac effects_split :=
  repeat match goal with
  | |- logs _ (mbind _ _) => apply logs_bind; [|intros ?]
  | |- logs _ (for_each _ _) => apply logs_for_each; intros ? ?
  | |- never_fails (mbind _ _) => apply never_fails_bind; [|intros ?]
  | |- never_fails (for_each _ _) => apply never_fails_for_each; intros ? ?
  | |- logs _ (match ?x with _ => _ end) => destruct x
  | |- never_fails (match ?x with _ => _ end) => destruct x
  | |- logs _ _ => solve [eauto with effects_db]
  | |- never_fails _ => solve [eauto with effects_db]
  end.

(** The tree an event is about. *)
Definition event_tree (ev : Event) : option TreeName :=
  match ev with
  | EvGet tn _ | EvScan tn _ | EvInsert tn _ | EvRemove tn _ | EvApplyBatch tn _ => Some tn
  | EvFlush => None
  end.

(** The registry: what [sync] and the tree primitives keep. *)
Definition same_registry (s s' : Store) : Prop := indexed_properties s' = indexed_properties s.

Global Instance same_registry_preorder : PreOrder same_registry.
Proof. split; [by intros s|]. intros s1 s2 s3 H12 H23. unfold same_registry in *. congruence. Qed.

Lemma same_registry_insert tn k v : stays same_registry (tree_insert tn k v).
Proof. intros s. apply indexed_set_tree. Qed.

Lemma same_registry_remove tn k : stays same_registry (tree_remove tn k).
Proof. intros s. apply indexed_set_tree. Qed.

#[local] Hint Resolve same_registry_insert same_registry_remove : stays_db.

Definition all_trees : list TreeName :=
  [TVertices; TEdges; TEdgeRanges; TReversedEdgeRanges; TVertexProperties;
   TVertexPropertyValues; TEdgeProperties; TEdgePropertyValues; TMetadata].

Lemma elem_of_all_trees tn : tn ∈ all_trees.
Proof. destruct tn; set_solver. Qed.

Definition data_trees : list TreeName :=
  [TVertices; TEdges; TEdgeRanges; TReversedEdgeRanges; TVertexProperties;
   TVertexPropertyValues; TEdgeProperties; TEdgePropertyValues].

Lemma elem_of_data_trees tn : tn ≠ TMetadata → tn ∈ data_trees.
Proof. destruct tn; set_solver. Qed.

Lemma tree_of_set_tree_eq s tn m : tree_of (set_tree s tn m) tn = m.
Proof. by destruct s, tn. Qed.

Lemma tree_of_set_tree_ne s tn tn' m : tn ≠ tn' → tree_of (set_tree s tn m) tn' = tree_of s tn'.
Proof. intros. rewrite tree_of_set_tree. by case_decide. Qed.

Lemma bool_decide_is_Some_None {A} : bool_decide (is_Some (@None A)) = false.
Proof. by apply bool_decide_false; intros []. Qed.

Lemma bool_decide_is_Some_Some {A} (x : A) : bool_decide (is_Some (Some x)) = true.
Proof. by apply bool_decide_true. Qed.

Lemma gmap_lookup_insert_eq (m : gmap Key Val) k v : <[k := v]> m !! k = Some v.
Proof. apply lookup_insert_eq. Qed.

Lemma gmap_lookup_delete_eq (m : gmap Key Val) k : delete k m !! k = None.
Proof. apply lookup_delete_eq. Qed.

Lemma reverse_edge_outbound e : outbound_id (reverse_edge e) = inbound_id e.
Proof. done. Qed.
Lemma reverse_edge_t e : t (reverse_edge e) = t e.
Proof. done. Qed.
Lemma reverse_edge_inbound e : inbound_id (reverse_edge e) = outbound_id e.
Proof. done. Qed.

Lemma from_slice_to_vec x : from_slice (to_vec x) = Ok x.
Proof. done. Qed.

Create Rewrite HintDb run_db.
#[local] Hint Rewrite @tree_of_set_tree_eq faults_set_tree indexed_set_tree
  @bool_decide_is_Some_None @bool_decide_is_Some_Some gmap_lookup_insert_eq gmap_lookup_delete_eq
  tree_of_set_indexed reverse_edge_outbound reverse_edge_t reverse_edge_inbound
  from_slice_to_vec : run_db.
#[local] Hint Rewrite tree_of_set_tree_ne using discriminate : run_db.

(** Evaluate the monadic plumbing and the primitives, leaving the store
    operations (lookups, inserts, [bool_decide]s on faults) for rewriting. *)
Ltac run :=
  repeat progress (cbv beta iota zeta delta [mbind M_bind mret M_ret lift tree_get
    tree_contains_key tree_insert tree_remove tree_scan_prefix tree_apply_batch db_flush
    MetaDataManager.read_indexed MetaDataManager.write_indexed out_res out_st out_log
    negb orb andb EdgeRangeManager.new EdgeRangeManager.new_reversed]; autorewrite with run_db).

Lemma faults_set_indexed s ip : faults (set_indexed s ip) = faults s.
Proof. by destruct s. Qed.

Lemma set_tree_set_indexed s ip tn m :
  set_tree (set_indexed s ip) tn m = set_indexed (set_tree s tn m) ip.
Proof. by destruct s, tn. Qed.

Create Rewrite HintDb registry_db.
#[local] Hint Rewrite faults_set_indexed set_tree_set_indexed tree_of_set_indexed : registry_db.

(** The property managers never read the registry. *)
Lemma vpm_set_registry o n x s ip :
  VertexPropertyManager.set o n x (set_indexed s ip) =
  mkOut (out_res (VertexPropertyManager.set o n x s))
        (set_indexed (out_st (VertexPropertyManager.set o n x s)) ip)
        (out_log (VertexPropertyManager.set o n x s)).
Proof.
  unfold VertexPropertyManager.set. run. autorewrite with registry_db.
  case_bool_decide; run; [done|].
  destruct (vertex_properties s !! _); run; [destruct (from_slice _); run|];
    autorewrite with registry_db; done.
Qed.

Lemma epm_set_registry e n x s ip :
  EdgePropertyManager.set e n x (set_indexed s ip) =
  mkOut (out_res (EdgePropertyManager.set e n x s))
        (set_indexed (out_st (EdgePropertyManager.set e n x s)) ip)
        (out_log (EdgePropertyManager.set e n x s)).
Proof.
  unfold EdgePropertyManager.set. run. autorewrite with registry_db.
  case_bool_decide; run; [done|].
  destruct (edge_properties s !! _); run; [destruct (from_slice _); run|];
    autorewrite with registry_db; done.
Qed.

Lemma vpm_set_index_written o n x s :
  out_res (VertexPropertyManager.set o n x s) = Ok () →
  vertex_property_values (out_st (VertexPropertyManager.set o n x s))
    !! VertexPropertyManager.key_value_index o x n = Some (to_vec x).
Proof.
  unfold VertexPropertyManager.set. run.
  case_bool_decide; run; [discriminate|].
  destruct (vertex_properties s !! _); run; [destruct (from_slice _); run; [done|discriminate]|done].
Qed.

Lemma epm_set_index_written e n x s :
  out_res (EdgePropertyManager.set e n x s) = Ok () →
  edge_property_values (out_st (EdgePropertyManager.set e n x s))
    !! EdgePropertyManager.key_value_index e x n = Some (to_vec x).
Proof.
  unfold EdgePropertyManager.set. run.
  case_bool_decide; run; [discriminate|].
  destruct (edge_properties s !! _); run; [destruct (from_slice _); run; [done|discriminate]|done].
Qed.

Lemma add_index_facts n :
  never_fails (MetaDataManager.add_index n) ∧
  logs (λ ev, event_tree ev = Some TMetadata) (MetaDataManager.add_index n) ∧
  stays (untouched data_trees) (MetaDataManager.add_index n) ∧
  ∀ s, indexed_properties (out_st (MetaDataManager.add_index n s)) = {[n]} ∪ indexed_properties s.
Proof.
  assert (Hsync : stays same_registry MetaDataManager.sync)
    by (unfold MetaDataManager.sync; stays_split).
  split_and!;
    [unfold MetaDataManager.add_index, MetaDataManager.sync; effects_split..
    |unfold MetaDataManager.add_index, MetaDataManager.sync; stays_split|].
  intros s. unfold MetaDataManager.add_index. rewrite bind_unfold.
  cbv [MetaDataManager.read_indexed]. case_bool_decide as Hn.
  - cbv [mret M_ret out_st]. unfold_leibniz. set_solver.
  - rewrite bind_unfold. cbv [MetaDataManager.write_indexed].
    specialize (Hsync (set_indexed s ({[n]} ∪ indexed_properties s))).
    unfold same_registry in Hsync.
    destruct (MetaDataManager.sync _) eqn:E. simpl in *. rewrite Hsync. by destruct s.
Qed.

Lemma starts_with_app p k : starts_with p (p ++ k) = true.
Proof. induction p as [|c p IH]; simpl; [done|]. rewrite bool_decide_true by done. done. Qed.

(** An entry of the value index under an indexed name is reported by the
    indexed queries. *)
Lemma vertex_queries_find o n x v s :
  n ∈ indexed_properties s →
  vertex_property_values s !! VertexPropertyManager.key_value_index o x n = Some v →
  (∃ items, out_res (SledTransaction.vertex_ids_with_property n s) = Ok (Some items) ∧
            Ok o ∈ items) ∧
  (∃ items, out_res (SledTransaction.vertex_ids_with_property_value n x s) = Ok (Some items) ∧
            Ok o ∈ items).
Proof.
  intros Hn Hv.
  unfold SledTransaction.vertex_ids_with_property, SledTransaction.vertex_ids_with_property_value,
    MetaDataManager.is_indexed, VertexPropertyManager.iterate_for_property_name,
    VertexPropertyManager.iterate_for_property_name_and_value.
  run. rewrite bool_decide_true by done. run.
  split; eexists; (split; [reflexivity|]);
    unfold VertexPropertyManager.value_iterate_uuids; apply list_elem_of_In, in_map_iff;
    exists (VertexPropertyManager.key_value_index o x n, v); (split; [reflexivity|]);
    apply list_elem_of_In, list_elem_of_filter; (split; [|by apply elem_of_map_to_list]).
  - apply (starts_with_app [_]).
  - apply (starts_with_app [_; _]).
Qed.

Lemma edge_queries_find e n x v s :
  n ∈ indexed_properties s →
  edge_property_values s !! EdgePropertyManager.key_value_index e x n = Some v →
  (∃ items, out_res (SledTransaction.edges_with_property n s) = Ok (Some items) ∧
            Ok e ∈ items) ∧
  (∃ items, out_res (SledTransaction.edges_with_property_value n x s) = Ok (Some items) ∧
            Ok e ∈ items).
Proof.
  intros Hn Hv.
  unfold SledTransaction.edges_with_property, SledTransaction.edges_with_property_value,
    MetaDataManager.is_indexed, EdgePropertyManager.iterate_for_property_name,
    EdgePropertyManager.iterate_for_property_name_and_value.
  run. rewrite bool_decide_true by done. run.
  split; eexists; (split; [reflexivity|]);
    unfold EdgePropertyManager.value_iterate_edges; apply list_elem_of_In, in_map_iff;
    exists (EdgePropertyManager.key_value_index e x n, v);
    (split; [by destruct e|]);
    apply list_elem_of_In, list_elem_of_filter; (split; [|by apply elem_of_map_to_list]).
  - apply (starts_with_app [_]).
  - apply (starts_with_app [_; _]).
Qed.

(** *** The edge trees stay consistent *)

Global Instance keeps_consistent_preorder : PreOrder keeps_consistent.
Proof. split; [intros s H; exact H|]. intros s1 s2 s3 H12 H23 H. auto. Qed.

Lemma keeps_of_untouched {A} (m : M A) :
  stays (untouched edge_trees) m → stays keeps_consistent m.
Proof.
  intros Hm s Hc o et i. pose proof (Hm s) as Hu.
  rewrite (Hu TEdges), (Hu TEdgeRanges), (Hu TReversedEdgeRanges) by (unfold edge_trees; set_solver).
  apply Hc.
Qed.

Lemma keeps_insert tn k v : tn ∉ edge_trees → stays keeps_consistent (tree_insert tn k v).
Proof. intros. apply keeps_of_untouched. by apply untouched_insert. Qed.

Lemma keeps_remove tn k : tn ∉ edge_trees → stays keeps_consistent (tree_remove tn k).
Proof. intros. apply keeps_of_untouched. by apply untouched_remove. Qed.

Lemma keeps_write_indexed ip : stays keeps_consistent (MetaDataManager.write_indexed ip).
Proof. apply keeps_of_untouched, untouched_write_indexed. Qed.

Lemma range_key_inj o et i o' et' i' :
  EdgeRangeManager.key o et i = EdgeRangeManager.key o' et' i' ↔ o = o' ∧ et = et' ∧ i = i'.
Proof. split; [by intros [= -> -> ->]|by intros (-> & -> & ->)]. Qed.

Lemma em_key_range e :
  EdgeManager.key e = EdgeRangeManager.key (outbound_id e) (t e) (inbound_id e).
Proof. done. Qed.

Lemma gmap_insert_is_Some (m : gmap Key Val) k v k' :
  is_Some (<[k := v]> m !! k') ↔ k = k' ∨ is_Some (m !! k').
Proof. apply lookup_insert_is_Some'. Qed.

Lemma gmap_delete_is_Some (m : gmap Key Val) k k' :
  is_Some (delete k m !! k') ↔ k ≠ k' ∧ is_Some (m !! k').
Proof. apply lookup_delete_is_Some. Qed.

(** [EdgeManager::set] inserts the three keys. *)
Lemma em_set_trees e s :
  out_res (EdgeManager.set e s) = Ok () ∧
  edges (out_st (EdgeManager.set e s)) = <[EdgeManager.key e := []]> (edges s) ∧
  edge_ranges (out_st (EdgeManager.set e s)) =
    <[EdgeRangeManager.key (outbound_id e) (t e) (inbound_id e) := []]> (edge_ranges s) ∧
  reversed_edge_ranges (out_st (EdgeManager.set e s)) =
    <[EdgeRangeManager.key (inbound_id e) (t e) (outbound_id e) := []]> (reversed_edge_ranges s) ∧
  (∀ tn, tn ∉ edge_trees → tree_of (out_st (EdgeManager.set e s)) tn = tree_of s tn).
Proof.
  unfold EdgeManager.set, EdgeRangeManager.set. run. split_and!; try done.
  intros tn Htn. rewrite !tree_of_set_tree.
  repeat case_decide; subst; [unfold edge_trees in Htn; set_solver..|done].
Qed.

Lemma keeps_em_set e : stays keeps_consistent (EdgeManager.set e).
Proof.
  intros s Hc o et i.
  destruct (em_set_trees e s) as (_ & -> & -> & -> & _).
  rewrite !gmap_insert_is_Some, !em_key_range. cbn [outbound_id t inbound_id].
  rewrite !range_key_inj. destruct (Hc o et i) as [H1 H2].
  rewrite !em_key_range in H1. cbn [outbound_id t inbound_id] in H1. tauto.
Qed.

(** What [EdgeManager::delete] does after removing the three keys only
    touches the edge-property trees. *)
Lemma em_delete_trees e s :
  edges (out_st (EdgeManager.delete e s)) = delete (EdgeManager.key e) (edges s) ∧
  edge_ranges (out_st (EdgeManager.delete e s)) =
    delete (EdgeRangeManager.key (outbound_id e) (t e) (inbound_id e)) (edge_ranges s) ∧
  reversed_edge_ranges (out_st (EdgeManager.delete e s)) =
    delete (EdgeRangeManager.key (inbound_id e) (t e) (outbound_id e)) (reversed_edge_ranges s).
Proof.
  unfold EdgeManager.delete, EdgeRangeManager.delete,
    EdgeRangeManager.new, EdgeRangeManager.new_reversed.
  cbv zeta.
  match goal with
  | |- context [tree_remove TReversedEdgeRanges _ ≫= (λ _, ?rest)] =>
      set (r := rest);
      assert (Hr : stays (untouched edge_trees) r)
        by (subst r; unfold EdgePropertyManager.iterate_for_owner, EdgePropertyManager.delete;
            stays_split)
  end.
  cbv beta iota delta [mbind M_bind tree_remove].
  match goal with |- context [r ?s3] => specialize (Hr s3); destruct (r s3) as [res st lg] end.
  cbv [out_st] in *.
  rewrite (Hr TEdges), (Hr TEdgeRanges), (Hr TReversedEdgeRanges) by (unfold edge_trees; set_solver).
  autorewrite with run_db. done.
Qed.

Lemma keeps_em_delete e : stays keeps_consistent (EdgeManager.delete e).
Proof.
  intros s Hc o et i.
  destruct (em_delete_trees e s) as (-> & -> & ->).
  rewrite !gmap_delete_is_Some, !em_key_range. cbn [outbound_id t inbound_id].
  rewrite !range_key_inj. destruct (Hc o et i) as [H1 H2].
  rewrite !em_key_range in H1. cbn [outbound_id t inbound_id] in H1. tauto.
Qed.

#[local] Hint Resolve keeps_insert keeps_remove keeps_write_indexed keeps_em_set
  keeps_em_delete : stays_db.

(** The partitioning loop of [bulk_insert], in closed form. *)
Lemma bulk_fold items b vp ep :
  fold_left SledTransaction.bulk_step items (b, vp, ep) =
  (mkBatch
     (vertex_creation_batch b ++
        map (λ v, BInsert (VertexManager.key (id v)) [CIdentifier (vertex_t v)])
          (bulk_vertices items))
     (edge_creation_batch b ++ map (λ e, BInsert (EdgeManager.key e) []) (bulk_edges items))
     (edge_range_creation_batch b ++
        map (λ e, BInsert (EdgeRangeManager.key (outbound_id e) (t e) (inbound_id e)) [])
          (bulk_edges items))
     (edge_range_rev_creation_batch b ++
        map (λ e, BInsert (EdgeRangeManager.key (inbound_id e) (t e) (outbound_id e)) [])
          (bulk_edges items)),
   vp ++ bulk_vertex_props items, ep ++ bulk_edge_props items).
Proof.
  revert b vp ep. induction items as [|it items IH]; intros b vp ep.
  - destruct b. simpl. rewrite !app_nil_r. done.
  - destruct it; simpl; rewrite IH; simpl;
      unfold VertexManager.create_batch, EdgeRangeManager.set_batch; simpl;
      rewrite <- ?app_assoc; done.
Qed.

Lemma batch_apply_app b1 b2 m : batch_apply (b1 ++ b2) m = batch_apply b2 (batch_apply b1 m).
Proof. apply fold_left_app. Qed.

Lemma batch_apply_inserts {X} (f : X → Key) (v : Val) xs m k :
  is_Some (batch_apply (map (λ x, BInsert (f x) v) xs) m !! k) ↔
  is_Some (m !! k) ∨ ∃ x, x ∈ xs ∧ k = f x.
Proof.
  revert m. induction xs as [|x xs IH]; intros m.
  - split; [auto|]. intros [?|(? & Hx & _)]; [done|set_solver].
  - change (batch_apply (map (λ x, BInsert (f x) v) (x :: xs)) m)
      with (batch_apply (map (λ x, BInsert (f x) v) xs) (<[f x := v]> m)).
    rewrite IH, gmap_insert_is_Some.
    split.
    + intros [[<-|?]|(y & ? & ->)]; [right; exists x; split; [set_solver|done]|by left|].
      right. exists y. split; [set_solver|done].
    + intros [?|(y & Hy & ->)]; [by left; right|].
      apply elem_of_cons in Hy as [->|Hy]; [by left; left|]. right. by exists y.
Qed.

Lemma keeps_bulk_insert items : stays keeps_consistent (SledTransaction.bulk_insert items).
Proof.
  unfold SledTransaction.bulk_insert. rewrite bulk_fold. cbv beta iota.
  apply stays_bind; [typeclasses eauto| |intros _].
  - intros s Hc o et i. unfold batch_apply_all. run. cbn [edge_creation_batch
      edge_range_creation_batch edge_range_rev_creation_batch batch_default].
    rewrite !app_nil_l, !batch_apply_inserts, !em_key_range. cbn [outbound_id t inbound_id].
    destruct (Hc o et i) as [H1 H2]. rewrite em_key_range in H1.
    cbn [outbound_id t inbound_id] in H1.
    split.
    + rewrite H1. split; intros [?|(x & ? & Hk)]; [by left| |by left|];
        right; exists x; split; done.
    + split; intros [?|(x & ? & Hk)]; [left; by apply H2| |left; by apply H2|];
        right; exists x; (split; [done|]); apply range_key_inj in Hk as (-> & -> & ->); done.
  - unfold SledTransaction.sync, MetaDataManager.sync, VertexPropertyManager.set,
      EdgePropertyManager.set. stays_split.
Qed.

(** Every call of the transaction surface keeps the edge trees consistent. *)
Lemma keeps_run_op op : stays keeps_consistent (run_op op).
Proof.
  destruct op; cbn [run_op].
  - unfold SledTransaction.create_vertex, VertexManager.create. stays_split.
  - unfold SledTransaction.create_edge, VertexManager.exists_. stays_split.
  - unfold SledTransaction.delete_vertices, VertexManager.delete,
      VertexPropertyManager.iterate_for_owner, VertexPropertyManager.delete,
      EdgeRangeManager.iterate_for_owner. stays_split.
  - unfold SledTransaction.delete_edges, VertexManager.get. stays_split.
  - unfold SledTransaction.delete_vertex_properties, VertexPropertyManager.delete. stays_split.
  - unfold SledTransaction.delete_edge_properties, EdgePropertyManager.delete. stays_split.
  - unfold SledTransaction.set_vertex_properties, VertexPropertyManager.set. stays_split.
  - unfold SledTransaction.set_edge_properties, EdgePropertyManager.set. stays_split.
  - unfold SledTransaction.index_property, MetaDataManager.add_index, MetaDataManager.sync.
    stays_split.
  - apply keeps_bulk_insert.
  - unfold SledTransaction.sync, MetaDataManager.sync. stays_split.
Qed.

(** *** Frames for [delete_edges] *)

Global Instance keeps_edge_preorder e : PreOrder (keeps_edge e).
Proof.
  split; [intros s; split_and!; done|].
  intros s1 s2 s3 (?&?&?&?&?&H12) (?&?&?&?&?&H23).
  split_and!; try congruence. intros k Hk. rewrite H23, H12; done.
Qed.

Global Instance skip_keeps_preorder e : PreOrder (skip_keeps e).
Proof.
  split; [intros s _; reflexivity|].
  intros s1 s2 s3 H12 H23 Hn. pose proof (H12 Hn) as H.
  etransitivity; [exact H|]. apply H23. destruct H as [-> _]. done.
Qed.

Global Instance same_vertices_preorder : PreOrder same_vertices.
Proof.
  split; [by intros s|]. intros s1 s2 s3 [] []. split; congruence.
Qed.

Lemma same_vertices_insert tn k v : tn ≠ TVertices → stays same_vertices (tree_insert tn k v).
Proof. intros Hn s. cbv [tree_insert out_st]. split; [by apply tree_of_set_tree_ne|apply faults_set_tree]. Qed.

Lemma same_vertices_remove tn k : tn ≠ TVertices → stays same_vertices (tree_remove tn k).
Proof. intros Hn s. cbv [tree_remove out_st]. split; [by apply tree_of_set_tree_ne|apply faults_set_tree]. Qed.

#[local] Hint Resolve same_vertices_insert same_vertices_remove : stays_db.
#[local] Hint Extern 1 (_ ≠ _) => discriminate : stays_db.

Lemma same_vertices_em_delete e : stays same_vertices (EdgeManager.delete e).
Proof.
  unfold EdgeManager.delete, EdgeRangeManager.delete, EdgePropertyManager.iterate_for_owner,
    EdgePropertyManager.delete. stays_split.
Qed.

Lemma keeps_edge_remove e tn k :
  tn ≠ TVertices →
  (tn = TEdges → k ≠ EdgeManager.key e) →
  (tn = TEdgeRanges → k ≠ EdgeRangeManager.key (outbound_id e) (t e) (inbound_id e)) →
  (tn = TReversedEdgeRanges → k ≠ EdgeRangeManager.key (inbound_id e) (t e) (outbound_id e)) →
  (tn = TEdgeProperties → starts_with (EdgePropertyManager.owner_prefix e) k = false) →
  stays (keeps_edge e) (tree_remove tn k).
Proof.
  intros Hv He Hr Hrr Hp s. cbv [tree_remove out_st]. unfold keeps_edge.
  destruct tn; [done|..]; autorewrite with run_db; split_and!; try done.
  - rewrite lookup_delete_ne; [done|]. by apply He.
  - rewrite lookup_delete_ne; [done|]. by apply Hr.
  - rewrite lookup_delete_ne; [done|]. by apply Hrr.
  - intros k' Hk'. rewrite lookup_delete_ne; [done|]. intros <-.
    rewrite Hp in Hk' by done. discriminate.
Qed.

Lemma starts_with_owner_prefix_key e e' name :
  starts_with (EdgePropertyManager.owner_prefix e) (EdgePropertyManager.key e' name) = true →
  e' = e.
Proof.
  destruct e as [o et i], e' as [o' et' i']. cbn.
  rewrite !andb_true_iff, !bool_decide_eq_true. intros (? & ? & ? & _). congruence.
Qed.

Lemma read_key_owner_prefix e k e' name :
  starts_with (EdgePropertyManager.owner_prefix e) k = true →
  EdgePropertyManager.read_key k = Ok (e', name) → e' = e.
Proof.
  destruct e as [o et i]. unfold EdgePropertyManager.read_key.
  intros Hs Hr. repeat case_match; try discriminate. subst.
  injection Hr as <- <-. cbn in Hs.
  rewrite !andb_true_iff, !bool_decide_eq_true in Hs. destruct Hs as (? & ? & ? & _). congruence.
Qed.

Lemma stays_bind_post (R : Store → Store → Prop) `{!PreOrder R} {A B} (m : M A) (f : A → M B)
    (Q : A → Prop) :
  stays R m → (∀ s a, out_res (m s) = Ok a → Q a) → (∀ a, Q a → stays R (f a)) →
  stays R (m ≫= f).
Proof.
  intros Hm HQ Hf s. rewrite bind_unfold. specialize (Hm s). specialize (HQ s).
  destruct (m s) as [[a|e] s1 l1]; simpl in *; [|done].
  specialize (Hf a (HQ a eq_refl) s1). destruct (f a s1); simpl in *. by transitivity s1.
Qed.

Lemma epm_iterate_for_owner_items e s items :
  out_res (EdgePropertyManager.iterate_for_owner e s) = Ok items →
  ∀ item, item ∈ items → ∀ e' name v, item = Ok ((e', name), v) → e' = e.
Proof.
  unfold EdgePropertyManager.iterate_for_owner. run. intros [= <-] item Hitem e' name v ->.
  apply list_elem_of_In in Hitem. apply in_map_iff in Hitem as ([k val] & Hread & Hin).
  apply list_elem_of_In in Hin. apply list_elem_of_filter in Hin as [Hs _].
  unfold EdgePropertyManager.read_owned in Hread. cbn in Hread.
  destruct (EdgePropertyManager.read_key k) as [[e'' n'']|] eqn:Hk; [|discriminate].
  destruct (from_slice val); cbn in Hread; [|discriminate].
  injection Hread as <- <- <-. eapply read_key_owner_prefix; [exact Hs|exact Hk].
Qed.

Lemma keeps_edge_em_delete e e' : e' ≠ e → stays (keeps_edge e) (EdgeManager.delete e').
Proof.
  intros Hne. unfold EdgeManager.delete, EdgeRangeManager.delete,
    EdgeRangeManager.new, EdgeRangeManager.new_reversed. cbv zeta.
  assert (Hk : ∀ a b c a' b' c',
    EdgeRangeManager.key a b c = EdgeRangeManager.key a' b' c' → a = a' ∧ b = b' ∧ c = c').
  { intros ??????. apply range_key_inj. }
  apply stays_bind; [typeclasses eauto| |intros _].
  { apply keeps_edge_remove; try discriminate. intros _ Heq. apply Hne.
    rewrite !em_key_range in Heq. apply Hk in Heq as (? & ? & ?).
    destruct e, e'; cbn in *; congruence. }
  apply stays_bind; [typeclasses eauto| |intros _].
  { apply keeps_edge_remove; try discriminate. intros _ Heq. apply Hne.
    apply Hk in Heq as (? & ? & ?). destruct e, e'; cbn in *; congruence. }
  apply stays_bind; [typeclasses eauto| |intros _].
  { apply keeps_edge_remove; try discriminate. intros _ Heq. apply Hne.
    apply Hk in Heq as (? & ? & ?). destruct e, e'; cbn in *; congruence. }
  apply (stays_bind_post _ _ _ (λ items, ∀ item, item ∈ items →
           ∀ e'' name v, item = Ok ((e'', name), v) → e'' = e')).
  { unfold EdgePropertyManager.iterate_for_owner. stays_split. }
  { intros s items. apply epm_iterate_for_owner_items. }
  intros items Hitems. apply stays_for_each; [typeclasses eauto|]. intros item Hitem.
  apply (stays_bind_post _ _ _ (λ a, item = Ok a)).
  { eauto with stays_db. }
  { intros s a. cbv [lift out_res]. done. }
  intros [[e'' pid] v] Hia. rewrite (Hitems item Hitem e'' pid v Hia).
  unfold EdgePropertyManager.delete. stays_split.
  all: apply keeps_edge_remove; try discriminate; intros _;
    destruct (starts_with _ _) eqn:Hs'; try done;
    apply starts_with_owner_prefix_key in Hs'; congruence.
Qed.

Lemma vm_get_state v s : out_st (VertexManager.get v s) = s.
Proof.
  unfold VertexManager.get. run. case_bool_decide; run; [done|].
  destruct (vertices s !! _) as [[|[] ?]|]; run; done.
Qed.

Lemma vm_get_some v s o :
  out_res (VertexManager.get v s) = Ok o → is_Some o → is_Some (vertices s !! VertexManager.key v).
Proof.
  unfold VertexManager.get. run. case_bool_decide; run; [discriminate|].
  destruct (vertices s !! _) eqn:E; [intros; eexists; done|].
  run. intros [= <-] [? [=]].
Qed.

Lemma vm_get_absent v s :
  ((TVertices, VertexManager.key v) ∉ faults s) → vertices s !! VertexManager.key v = None →
  out_res (VertexManager.get v s) = Ok None.
Proof.
  intros Hf Hn. unfold VertexManager.get. run. rewrite bool_decide_false by done. run.
  rewrite Hn. run. done.
Qed.

(** The loop body of [delete_edges]. *)
Lemma delete_edges_body_unfold es :
  SledTransaction.delete_edges es =
  for_each (λ item,
    o ← VertexManager.get (outbound_id item);
    if bool_decide (is_Some o) then EdgeManager.delete item else mret ()) es.
Proof. done. Qed.

Lemma skip_keeps_delete_edges e es : stays (skip_keeps e) (SledTransaction.delete_edges es).
Proof.
  unfold SledTransaction.delete_edges. apply stays_for_each; [typeclasses eauto|].
  intros item _ s Habs. rewrite bind_unfold.
  pose proof (vm_get_state (outbound_id item) s) as Hst.
  pose proof (vm_get_some (outbound_id item) s) as Hsome.
  destruct (VertexManager.get (outbound_id item) s) as [[o|err] s1 l] eqn:E;
    cbn [out_st out_res] in *; subst s1; [|reflexivity].
  case_bool_decide as Ho.
  - assert (Hne : item ≠ e).
    { intros ->. destruct (Hsome o eq_refl Ho) as [? Hx]. congruence. }
    pose proof (keeps_edge_em_delete e item Hne s) as Hk.
    destruct (EdgeManager.delete item s); exact Hk.
  - reflexivity.
Qed.

Lemma same_vertices_delete_edges_body item :
  stays same_vertices
    (o ← VertexManager.get (outbound_id item);
     if bool_decide (is_Some o) then EdgeManager.delete item else mret ()).
Proof.
  apply stays_bind; [typeclasses eauto| |intros o].
  - intros s. rewrite vm_get_state. reflexivity.
  - case_bool_decide; [apply same_vertices_em_delete|eauto with stays_db].
Qed.

(** The calls on skipped edges change nothing, so [delete_edges] behaves as
    on the edges whose outbound vertex exists. *)
Lemma delete_edges_filter es s :
  (∀ e, e ∈ es → vertices s !! VertexManager.key (outbound_id e) = None →
        (TVertices, VertexManager.key (outbound_id e)) ∉ faults s) →
  out_res (SledTransaction.delete_edges es s) =
    out_res (SledTransaction.delete_edges
      (filter (λ e, is_Some (vertices s !! VertexManager.key (outbound_id e))) es) s) ∧
  out_st (SledTransaction.delete_edges es s) =
    out_st (SledTransaction.delete_edges
      (filter (λ e, is_Some (vertices s !! VertexManager.key (outbound_id e))) es) s).
Proof.
  unfold SledTransaction.delete_edges.
  set (body := λ item : Edge, o ← VertexManager.get (outbound_id item);
    if bool_decide (is_Some o) then EdgeManager.delete item else mret ()).
  remember (vertices s) as V eqn:HV. remember (faults s) as F eqn:HF.
  intros Hf. revert s HV HF. induction es as [|x es IH]; intros s HV HF; [done|].
  rewrite filter_cons. cbn [for_each].
  assert (IH' := IH ltac:(intros e He; apply Hf; set_solver)).
  destruct (decide (is_Some (V !! VertexManager.key (outbound_id x)))) as [Hp|Hp].
  - cbn [for_each]. rewrite !bind_unfold.
    pose proof (same_vertices_delete_edges_body x s) as [Hv Hfl].
    change (o ← VertexManager.get (outbound_id x);
            if bool_decide (is_Some o) then EdgeManager.delete x else mret ()) with (body x) in Hv, Hfl.
    destruct (body x s) as [[[]|err] s1 l1]; cbn [out_st] in Hv, Hfl; [|done].
    destruct (IH' s1) as [Hr Hs]; [congruence|congruence|].
    destruct (for_each body es s1), (for_each body (filter _ es) s1). cbn in *. by subst.
  - rewrite bind_unfold.
    assert (Hnone : V !! VertexManager.key (outbound_id x) = None)
      by (destruct (V !! _); [destruct Hp; eauto|done]).
    subst body. cbv beta. rewrite bind_unfold.
    pose proof (vm_get_absent (outbound_id x) s) as Hg.
    pose proof (vm_get_state (outbound_id x) s) as Hgs.
    destruct (VertexManager.get (outbound_id x) s) as [r s1 l1]. cbv [out_st out_res] in Hg, Hgs. subst s1.
    rewrite Hg; [|subst F; apply Hf; [set_solver|congruence]|congruence].
    rewrite bool_decide_false by (intros [? Hx]; discriminate Hx). cbv [mret M_ret].
    destruct (IH' s) as [Hr Hs]; [done|done|].
    destruct (for_each _ es s). cbn in *. done.
Qed.

(** ** C7: creating a vertex twice *)

(** C7: on a store without [id v], [create_vertex v] returns [true]; a
    second [create_vertex] with the same id returns [false] and leaves the
    whole store as the first call left it (the stored label is not
    overwritten, no other tree is touched). *)
Theorem create_vertex_twice (v v' : Vertex) (s : Store) :
  (TVertices, VertexManager.key (id v)) ∉ faults s →
  vertices s !! VertexManager.key (id v) = None →
  id v' = id v →
  out_res (SledTransaction.create_vertex v s) = Ok true ∧
  out_res (SledTransaction.create_vertex v' (out_st (SledTransaction.create_vertex v s))) = Ok false ∧
  out_st (SledTransaction.create_vertex v' (out_st (SledTransaction.create_vertex v s)))
    = out_st (SledTransaction.create_vertex v s).
Proof.
  intros Hf Hnone Hid.
  unfold SledTransaction.create_vertex, VertexManager.create. rewrite Hid. run.
  rewrite bool_decide_false by done. run. rewrite Hnone. run.
  rewrite bool_decide_false by done. run. done.
Qed.

(** ** C3: [create_edge] needs both endpoints *)

(** C3: when one endpoint vertex is missing, [create_edge] returns
    [false] and the store is unchanged (so is [edge_count]); when both
    exist it returns [true] and the edge key, the forward range key
    [(o, t, i)] and the reversed range key [(i, t, o)] are present. *)
Theorem create_edge_endpoints (e : Edge) (s : Store) :
  (TVertices, VertexManager.key (outbound_id e)) ∉ faults s →
  (TVertices, VertexManager.key (inbound_id e)) ∉ faults s →
  ((vertices s !! VertexManager.key (outbound_id e) = None ∨
    vertices s !! VertexManager.key (inbound_id e) = None) →
   out_res (SledTransaction.create_edge e s) = Ok false ∧
   out_st (SledTransaction.create_edge e s) = s ∧
   SledTransaction.edge_count (out_st (SledTransaction.create_edge e s)) =
     SledTransaction.edge_count s) ∧
  (is_Some (vertices s !! VertexManager.key (outbound_id e)) →
   is_Some (vertices s !! VertexManager.key (inbound_id e)) →
   out_res (SledTransaction.create_edge e s) = Ok true ∧
   edges (out_st (SledTransaction.create_edge e s)) !! EdgeManager.key e = Some [] ∧
   edge_ranges (out_st (SledTransaction.create_edge e s))
     !! EdgeRangeManager.key (outbound_id e) (t e) (inbound_id e) = Some [] ∧
   reversed_edge_ranges (out_st (SledTransaction.create_edge e s))
     !! EdgeRangeManager.key (inbound_id e) (t e) (outbound_id e) = Some []).
Proof.
  intros Hfo Hfi.
  unfold SledTransaction.create_edge, VertexManager.exists_, EdgeManager.set,
    EdgeRangeManager.set. run.
  rewrite !(bool_decide_false _ Hfo). run. rewrite !(bool_decide_false _ Hfi). run.
  split.
  - intros [Ho|Hi].
    + rewrite Ho. run. done.
    + rewrite Hi. run. destruct (bool_decide _); run; done.
  - intros [vo Ho] [vi Hi]. rewrite Ho, Hi. run. done.
Qed.

(** ** C5: the index gate of the property queries *)

(** C5: each of [vertex_ids_with_property], [vertex_ids_with_property_value],
    [edges_with_property] and [edges_with_property_value] returns [None]
    exactly when the name is not in the registry of indexed properties,
    and [Some] of a sequence (possibly empty) when it is. *)
Theorem property_queries_gate (name : Identifier) (value : Json) (s : Store) :
  (out_res (SledTransaction.vertex_ids_with_property name s) = Ok None ↔
     name ∉ indexed_properties s) ∧
  (name ∈ indexed_properties s →
     ∃ items, out_res (SledTransaction.vertex_ids_with_property name s) = Ok (Some items)) ∧
  (out_res (SledTransaction.vertex_ids_with_property_value name value s) = Ok None ↔
     name ∉ indexed_properties s) ∧
  (name ∈ indexed_properties s →
     ∃ items, out_res (SledTransaction.vertex_ids_with_property_value name value s)
                = Ok (Some items)) ∧
  (out_res (SledTransaction.edges_with_property name s) = Ok None ↔
     name ∉ indexed_properties s) ∧
  (name ∈ indexed_properties s →
     ∃ items, out_res (SledTransaction.edges_with_property name s) = Ok (Some items)) ∧
  (out_res (SledTransaction.edges_with_property_value name value s) = Ok None ↔
     name ∉ indexed_properties s) ∧
  (name ∈ indexed_properties s →
     ∃ items, out_res (SledTransaction.edges_with_property_value name value s)
                = Ok (Some items)).
Proof.
  unfold SledTransaction.vertex_ids_with_property, SledTransaction.vertex_ids_with_property_value,
    SledTransaction.edges_with_property, SledTransaction.edges_with_property_value,
    MetaDataManager.is_indexed, VertexPropertyManager.iterate_for_property_name,
    VertexPropertyManager.iterate_for_property_name_and_value,
    EdgePropertyManager.iterate_for_property_name,
    EdgePropertyManager.iterate_for_property_name_and_value.
  run. case_bool_decide as Hin; simpl; repeat split; eauto; done.
Qed.

(** ** C10: [specific_edges] *)

Lemma catch_false_contains tn (e : Edge) (s : Store) :
  catch_false (EdgeRangeManager.contains tn e) s =
    mkOut (Ok (bool_decide (((tn, EdgeManager.key e) ∉ faults s) ∧
                            is_Some (tree_of s tn !! EdgeManager.key e))))
          s [EvGet tn (EdgeManager.key e)].
Proof.
  unfold catch_false, EdgeRangeManager.contains, tree_contains_key.
  case_bool_decide as Hf.
  - rewrite bool_decide_false; [done|]. tauto.
  - f_equal. f_equal. apply bool_decide_ext. tauto.
Qed.

Lemma filterM_contains_forward (es : list Edge) (s : Store) :
  out_res (filterM (λ e, catch_false (EdgeRangeManager.contains EdgeRangeManager.new e)) es s)
    = Ok (filter (λ e, ((TEdgeRanges, EdgeManager.key e) ∉ faults s) ∧
                       is_Some (edge_ranges s !! EdgeManager.key e)) es) ∧
  out_st (filterM (λ e, catch_false (EdgeRangeManager.contains EdgeRangeManager.new e)) es s) = s.
Proof.
  induction es as [|x es [IHr IHs]]; [done|].
  cbn [filterM]. rewrite bind_unfold, catch_false_contains. cbv iota beta.
  rewrite bind_unfold. destruct (filterM _ es s) as [r s1 l1].
  cbv [out_res out_st] in IHr, IHs. subst r s1. cbv [mret M_ret out_res out_st].
  rewrite filter_cons. split; [|done]. f_equal.
  case_bool_decide; [rewrite decide_True | rewrite decide_False]; done.
Qed.

(** C10: [specific_edges] never yields an error item: it yields, in input
    order, exactly the listed edges whose key is in the forward edge-range
    tree; an edge whose existence check fails with a storage error is
    dropped as if absent, and the [edges] tree is not consulted.  The store
    is not changed. *)
Theorem specific_edges_spec (es : list Edge) (s : Store) :
  out_res (SledTransaction.specific_edges es s) =
    Ok (map Ok (filter (λ e, ((TEdgeRanges, EdgeManager.key e) ∉ faults s) ∧
                             is_Some (edge_ranges s !! EdgeManager.key e)) es)) ∧
  out_st (SledTransaction.specific_edges es s) = s.
Proof.
  unfold SledTransaction.specific_edges.
  destruct (filterM_contains_forward es s) as [Hr Hs].
  rewrite (bind_ok _ _ _ _ Hr). simpl. rewrite Hs. done.
Qed.

(** ** C4: overwriting a property *)

Lemma vpm_set_ok (o : Uuid) (n : Identifier) (x : Json) (s : Store) :
  out_res (VertexPropertyManager.set o n x s) = Ok () →
  ((TVertexProperties, VertexPropertyManager.key o n) ∉ faults s) ∧
  faults (out_st (VertexPropertyManager.set o n x s)) = faults s ∧
  vertex_properties (out_st (VertexPropertyManager.set o n x s))
    !! VertexPropertyManager.key o n = Some (to_vec x).
Proof.
  unfold VertexPropertyManager.set. run.
  case_bool_decide as Hf; run; [discriminate|].
  destruct (vertex_properties s !! _) as [old|]; run.
  - destruct (from_slice old); run; [|discriminate].
    intros _. split_and!; done.
  - intros _. split_and!; done.
Qed.

Lemma epm_set_ok (e : Edge) (n : Identifier) (x : Json) (s : Store) :
  out_res (EdgePropertyManager.set e n x s) = Ok () →
  ((TEdgeProperties, EdgePropertyManager.key e n) ∉ faults s) ∧
  faults (out_st (EdgePropertyManager.set e n x s)) = faults s ∧
  edge_properties (out_st (EdgePropertyManager.set e n x s))
    !! EdgePropertyManager.key e n = Some (to_vec x).
Proof.
  unfold EdgePropertyManager.set. run.
  case_bool_decide as Hf; run; [discriminate|].
  destruct (edge_properties s !! _) as [old|]; run.
  - destruct (from_slice old); run; [|discriminate].
    intros _. split_and!; done.
  - intros _. split_and!; done.
Qed.

Lemma pigeonhole (B : nat) (f : nat → nat) :
  (∀ a, a ≤ B → f a < B) → ∃ a b, a < b ≤ B ∧ f a = f b.
Proof.
  revert f. induction B as [|B IH]; intros f Hf.
  - specialize (Hf 0 (le_n 0)). lia.
  - destruct (Exists_dec (λ a, f a = f (S B)) (seq 0 (S B))) as [Hex|Hno].
    + apply Exists_exists in Hex as (a & Ha & Heq). apply elem_of_seq in Ha.
      exists a, (S B). split; [lia|done].
    + assert (Hno' : ∀ a, a ≤ B → f a ≠ f (S B)).
      { intros a Ha Heq. apply Hno, Exists_exists. exists a. split; [apply elem_of_seq; lia|done]. }
      assert (HSB : f (S B) < S B) by (apply Hf; lia).
      destruct (decide (f (S B) = B)) as [E|E].
      * destruct (IH f) as (a & b & Hab & Hfab).
        { intros a Ha. assert (f a < S B) by (apply Hf; lia).
          pose proof (Hno' a Ha). lia. }
        exists a, b. split; [lia|done].
      * set (g a := if decide (f a = B) then f (S B) else f a).
        destruct (IH g) as (a & b & Hab & Hg).
        { intros a Ha. unfold g. destruct (decide (f a = B)); [lia|].
          assert (f a < S B) by (apply Hf; lia). lia. }
        unfold g in Hg.
        destruct (decide (f a = B)) as [Ea|Ea], (decide (f b = B)) as [Eb|Eb].
        -- exists a, b. split; [lia|congruence].
        -- exfalso. apply (Hno' b); [lia|done].
        -- exfalso. apply (Hno' a); [lia|done].
        -- exists a, b. split; [lia|done].
Qed.

(** The JSON numbers [1], [11], [111], ...: [json_ones n] has [n + 1] digits. *)
Fixpoint json_ones (n : nat) : Json :=
  match n with 0 => "1"%string | S n => String.String "1"%char (json_ones n) end.

Lemma json_ones_length n : String.length (json_ones n) = S n.
Proof. induction n; simpl; auto. Qed.

(** Every hasher into [u64] gives two different JSON values one hash:
    there are more numbers [1], [11], ..., of up to [2^64 + 1] digits than
    hashes. *)
Lemma json_hash_collision : ∃ x y : Json, x ≠ y ∧ json_hash x = json_hash y.
Proof.
  destruct (pigeonhole (N.to_nat (2 ^ 64)) (λ a, N.to_nat (json_hash (json_ones a))))
    as (a & b & Hab & Heq).
  { intros a _. pose proof (json_hash_lt (json_ones a)). lia. }
  exists (json_ones a), (json_ones b). split.
  - intros E. apply (f_equal String.length) in E. rewrite !json_ones_length in E. lia.
  - by apply N2Nat.inj.
Qed.

Lemma insert_delete_lookup_None (m : gmap Key Val) k k' w :
  <[k' := w]> (delete k m) !! k = None ↔ k' ≠ k.
Proof. rewrite lookup_insert_None, gmap_lookup_delete_eq. tauto. Qed.

Lemma vpm_ikey_ne o x y n :
  VertexPropertyManager.key_value_index o y n ≠ VertexPropertyManager.key_value_index o x n ↔
  json_hash x ≠ json_hash y.
Proof.
  unfold VertexPropertyManager.key_value_index.
  split; intros H1 H2; apply H1; [by rewrite H2|injection H2; congruence].
Qed.

Lemma epm_ikey_ne e x y n :
  EdgePropertyManager.key_value_index e y n ≠ EdgePropertyManager.key_value_index e x n ↔
  json_hash x ≠ json_hash y.
Proof.
  unfold EdgePropertyManager.key_value_index.
  split; intros H1 H2; apply H1; [by rewrite H2|injection H2; congruence].
Qed.

(** C4 (corrected): after a first [set(o, n, x)], a second [set(o, n, y)]
    reads the old primary value, removes the value-index key of [x], writes
    the new primary value and then the value-index key of [y], in that
    order; afterwards the key of [y] is in the value index and [get(o, n)]
    returns [y].  A value-index key holds the [u64] hash of the value, not
    the value: the key of [x] is gone exactly when [x] and [y] hash
    differently; when they share a hash, both name one key, which the
    second [set] writes back.  Every hasher into [u64] has such pairs of
    different values.  Stated for vertex and for edge properties. *)
Theorem property_overwrite (o : Uuid) (e : Edge) (n : Identifier) (x y : Json)
    (s se : Store) :
  out_res (VertexPropertyManager.set o n x s) = Ok () →
  out_res (EdgePropertyManager.set e n x se) = Ok () →
  let s2 := VertexPropertyManager.set o n y (out_st (VertexPropertyManager.set o n x s)) in
  let se2 := EdgePropertyManager.set e n y (out_st (EdgePropertyManager.set e n x se)) in
  (out_res s2 = Ok () ∧
   out_log s2 = [EvGet TVertexProperties (VertexPropertyManager.key o n);
                 EvRemove TVertexPropertyValues (VertexPropertyManager.key_value_index o x n);
                 EvInsert TVertexProperties (VertexPropertyManager.key o n);
                 EvInsert TVertexPropertyValues (VertexPropertyManager.key_value_index o y n)] ∧
   (vertex_property_values (out_st s2) !! VertexPropertyManager.key_value_index o x n = None ↔
      json_hash x ≠ json_hash y) ∧
   is_Some (vertex_property_values (out_st s2) !! VertexPropertyManager.key_value_index o y n) ∧
   out_res (VertexPropertyManager.get o n (out_st s2)) = Ok (Some y)) ∧
  (out_res se2 = Ok () ∧
   out_log se2 = [EvGet TEdgeProperties (EdgePropertyManager.key e n);
                  EvRemove TEdgePropertyValues (EdgePropertyManager.key_value_index e x n);
                  EvInsert TEdgeProperties (EdgePropertyManager.key e n);
                  EvInsert TEdgePropertyValues (EdgePropertyManager.key_value_index e y n)] ∧
   (edge_property_values (out_st se2) !! EdgePropertyManager.key_value_index e x n = None ↔
      json_hash x ≠ json_hash y) ∧
   is_Some (edge_property_values (out_st se2) !! EdgePropertyManager.key_value_index e y n) ∧
   out_res (EdgePropertyManager.get e n (out_st se2)) = Ok (Some y)) ∧
  (∃ x' y' : Json, x' ≠ y' ∧ json_hash x' = json_hash y').
Proof.
  intros Hv He. cbv zeta.
  apply vpm_set_ok in Hv as (Hf & Hfaults & Hold).
  apply epm_set_ok in He as (Hfe & Hfaultse & Holde).
  refine (conj _ (conj _ _)).
  - set (s1 := out_st (VertexPropertyManager.set o n x s)) in *.
    unfold VertexPropertyManager.set, VertexPropertyManager.get.
    run. rewrite Hfaults, bool_decide_false by done. run. rewrite Hold. run.
    rewrite Hfaults, bool_decide_false by done. run.
    split; [done|]. split; [done|]. split; [|split; [done|done]].
    rewrite insert_delete_lookup_None. apply vpm_ikey_ne.
  - set (s1 := out_st (EdgePropertyManager.set e n x se)) in *.
    unfold EdgePropertyManager.set, EdgePropertyManager.get.
    run. rewrite Hfaultse, bool_decide_false by done. run. rewrite Holde. run.
    rewrite Hfaultse, bool_decide_false by done. run.
    split; [done|]. split; [done|]. split; [|split; [done|done]].
    rewrite insert_delete_lookup_None. apply epm_ikey_ne.
  - apply json_hash_collision.
Qed.


(** ** C9: the value index is maintained whether or not a name is indexed *)

(** C9: (a) [set] on vertex and edge properties neither reads nor depends on
    the indexed-property registry: run on a store whose registry is replaced
    by any [ip], it returns the same result, logs the same operations and
    leaves the same trees; when it succeeds, the value-index entry of the new
    value is written.  (b) [index_property(n)] cannot fail, only adds [n] to
    the registry, touches only the metadata tree (no other tree is scanned,
    read or written: no backfill) and leaves every other tree as it was.
    (c) Hence a property set before its name was indexed is reported by the
    indexed queries after [index_property], through the entry written at
    set time. *)
Theorem property_index_unconditional (o : Uuid) (e : Edge) (n : Identifier) (x : Json)
    (s se : Store) (ip : gset string) :
  out_res (VertexPropertyManager.set o n x s) = Ok () →
  out_res (EdgePropertyManager.set e n x se) = Ok () →
  (* (a) *)
  VertexPropertyManager.set o n x (set_indexed s ip) =
    mkOut (out_res (VertexPropertyManager.set o n x s))
          (set_indexed (out_st (VertexPropertyManager.set o n x s)) ip)
          (out_log (VertexPropertyManager.set o n x s)) ∧
  EdgePropertyManager.set e n x (set_indexed se ip) =
    mkOut (out_res (EdgePropertyManager.set e n x se))
          (set_indexed (out_st (EdgePropertyManager.set e n x se)) ip)
          (out_log (EdgePropertyManager.set e n x se)) ∧
  vertex_property_values (out_st (VertexPropertyManager.set o n x s))
    !! VertexPropertyManager.key_value_index o x n = Some (to_vec x) ∧
  edge_property_values (out_st (EdgePropertyManager.set e n x se))
    !! EdgePropertyManager.key_value_index e x n = Some (to_vec x) ∧
  (* (b) *)
  out_res (SledTransaction.index_property n s) = Ok () ∧
  indexed_properties (out_st (SledTransaction.index_property n s)) = {[n]} ∪ indexed_properties s ∧
  Forall (λ ev, event_tree ev = Some TMetadata) (out_log (SledTransaction.index_property n s)) ∧
  (∀ tn, tn ≠ TMetadata → tree_of (out_st (SledTransaction.index_property n s)) tn = tree_of s tn) ∧
  (* (c) *)
  (let s2 := out_st (SledTransaction.index_property n (out_st (VertexPropertyManager.set o n x s))) in
   (∃ items, out_res (SledTransaction.vertex_ids_with_property n s2) = Ok (Some items) ∧
             Ok o ∈ items) ∧
   (∃ items, out_res (SledTransaction.vertex_ids_with_property_value n x s2) = Ok (Some items) ∧
             Ok o ∈ items)) ∧
  (let se2 := out_st (SledTransaction.index_property n (out_st (EdgePropertyManager.set e n x se))) in
   (∃ items, out_res (SledTransaction.edges_with_property n se2) = Ok (Some items) ∧
             Ok e ∈ items) ∧
   (∃ items, out_res (SledTransaction.edges_with_property_value n x se2) = Ok (Some items) ∧
             Ok e ∈ items)).
Proof.
  intros Hv He.
  pose proof (vpm_set_index_written o n x s Hv) as Hiv.
  pose proof (epm_set_index_written e n x se He) as Hie.
  destruct (add_index_facts n) as (Hnf & Hlog & Hut & Hreg).
  unfold SledTransaction.index_property.
  assert (Hvq := vertex_queries_find o n x (to_vec x)
    (out_st (MetaDataManager.add_index n (out_st (VertexPropertyManager.set o n x s))))).
  assert (Heq := edge_queries_find e n x (to_vec x)
    (out_st (MetaDataManager.add_index n (out_st (EdgePropertyManager.set e n x se))))).
  rewrite Hreg in Hvq, Heq.
  rewrite (Hut _ TVertexPropertyValues) in Hvq by (by apply elem_of_data_trees).
  rewrite (Hut _ TEdgePropertyValues) in Heq by (by apply elem_of_data_trees).
  destruct Hvq as [Hv1 Hv2]; [by apply elem_of_union_l, elem_of_singleton|exact Hiv|].
  destruct Heq as [He1 He2]; [by apply elem_of_union_l, elem_of_singleton|exact Hie|].
  cbv zeta. split_and!.
  - apply vpm_set_registry.
  - apply epm_set_registry.
  - exact Hiv.
  - exact Hie.
  - destruct (Hnf s) as [[] Hok]. exact Hok.
  - apply Hreg.
  - apply Hlog.
  - intros tn Htn. apply Hut. by apply elem_of_data_trees.
  - exact Hv1.
  - exact Hv2.
  - exact He1.
  - exact He2.
Qed.

(** ** C2: the three edge trees stay consistent *)

(** C2: [EdgeManager::set(e)] inserts the edge key, the forward range key
    [(o, t, i)] and the reversed range key [(i, t, o)]; [EdgeManager::delete(e)]
    removes all three (whatever it returns); both keep the consistency of the
    three trees ([edge_consistent]: for every [(o, t, i)], the edge key, the
    forward key [(o, t, i)] and the reversed key [(i, t, o)] are present
    together or absent together), and so does every sequence of calls of the
    transaction surface.  In particular, in every store a fresh datastore can
    reach, the forward entry exists iff the reversed entry exists. *)
Theorem edge_trees_consistent (e : Edge) (s : Store) (ops : list TxOp) :
  (out_res (EdgeManager.set e s) = Ok () ∧
   is_Some (edges (out_st (EdgeManager.set e s)) !! EdgeManager.key e) ∧
   is_Some (edge_ranges (out_st (EdgeManager.set e s))
              !! EdgeRangeManager.key (outbound_id e) (t e) (inbound_id e)) ∧
   is_Some (reversed_edge_ranges (out_st (EdgeManager.set e s))
              !! EdgeRangeManager.key (inbound_id e) (t e) (outbound_id e))) ∧
  (edges (out_st (EdgeManager.delete e s)) !! EdgeManager.key e = None ∧
   edge_ranges (out_st (EdgeManager.delete e s))
     !! EdgeRangeManager.key (outbound_id e) (t e) (inbound_id e) = None ∧
   reversed_edge_ranges (out_st (EdgeManager.delete e s))
     !! EdgeRangeManager.key (inbound_id e) (t e) (outbound_id e) = None) ∧
  (edge_consistent s →
   edge_consistent (out_st (EdgeManager.set e s)) ∧
   edge_consistent (out_st (EdgeManager.delete e s)) ∧
   edge_consistent (run_ops ops s)) ∧
  (reachable s →
   ∀ o et i, is_Some (edge_ranges s !! EdgeRangeManager.key o et i) ↔
             is_Some (reversed_edge_ranges s !! EdgeRangeManager.key i et o)).
Proof.
  destruct (em_set_trees e s) as (Hok & He & Hf & Hr & _).
  destruct (em_delete_trees e s) as (He' & Hf' & Hr').
  split_and!.
  - exact Hok.
  - rewrite He. by rewrite gmap_lookup_insert_eq.
  - rewrite Hf. by rewrite gmap_lookup_insert_eq.
  - rewrite Hr. by rewrite gmap_lookup_insert_eq.
  - rewrite He'. apply gmap_lookup_delete_eq.
  - rewrite Hf'. apply gmap_lookup_delete_eq.
  - rewrite Hr'. apply gmap_lookup_delete_eq.
  - intros Hc. split_and!; [by apply keeps_em_set|by apply keeps_em_delete|].
    clear He Hf Hr He' Hf' Hr' Hok. revert s Hc. induction ops as [|op ops IH]; intros s Hc; [done|].
    cbn [run_ops]. apply IH. exact (keeps_run_op op s Hc).
  - intros Hreach. assert (Hc : edge_consistent s).
    { clear He Hf Hr He' Hf' Hr' Hok. induction Hreach as [|s op _ IH].
      - intros o et i. unfold empty_store. cbn [tree_of].
        cbn [edges_tree edge_ranges_tree reversed_edge_ranges_tree]. rewrite !lookup_empty. split; split; intros [? Hx]; discriminate Hx.
      - exact (keeps_run_op op s IH). }
    intros o et i. apply Hc.
Qed.

(** ** C8: [delete_edges] skips edges whose outbound vertex is absent *)

(** C8: for every listed edge [e] whose outbound vertex is not in the
    vertex tree, [delete_edges] leaves the edge key of [e], its forward and
    reversed range keys and the edge-property entries owned by [e] as they
    were (whatever the call returns).  Provided these vertex reads do not
    fail, the skipped edges make no difference at all: the result and the
    final store are those of [delete_edges] on the edges whose outbound vertex
    exists; in particular, when every edge is skipped the call returns [Ok]
    and changes nothing, with no error or other signal. *)
Theorem delete_edges_skips (es : list Edge) (s : Store) :
  (∀ e, e ∈ es → vertices s !! VertexManager.key (outbound_id e) = None →
   let s' := out_st (SledTransaction.delete_edges es s) in
   edges s' !! EdgeManager.key e = edges s !! EdgeManager.key e ∧
   edge_ranges s' !! EdgeRangeManager.key (outbound_id e) (t e) (inbound_id e) =
     edge_ranges s !! EdgeRangeManager.key (outbound_id e) (t e) (inbound_id e) ∧
   reversed_edge_ranges s' !! EdgeRangeManager.key (inbound_id e) (t e) (outbound_id e) =
     reversed_edge_ranges s !! EdgeRangeManager.key (inbound_id e) (t e) (outbound_id e) ∧
   (∀ k, starts_with (EdgePropertyManager.owner_prefix e) k = true →
         edge_properties s' !! k = edge_properties s !! k)) ∧
  ((∀ e, e ∈ es → vertices s !! VertexManager.key (outbound_id e) = None →
         (TVertices, VertexManager.key (outbound_id e)) ∉ faults s) →
   out_res (SledTransaction.delete_edges es s) =
     out_res (SledTransaction.delete_edges
       (filter (λ e, is_Some (vertices s !! VertexManager.key (outbound_id e))) es) s) ∧
   out_st (SledTransaction.delete_edges es s) =
     out_st (SledTransaction.delete_edges
       (filter (λ e, is_Some (vertices s !! VertexManager.key (outbound_id e))) es) s)) ∧
  ((∀ e, e ∈ es → vertices s !! VertexManager.key (outbound_id e) = None ∧
         (TVertices, VertexManager.key (outbound_id e)) ∉ faults s) →
   out_res (SledTransaction.delete_edges es s) = Ok () ∧
   out_st (SledTransaction.delete_edges es s) = s).
Proof.
  split_and!.
  - intros e _ Hn. cbv zeta.
    destruct (skip_keeps_delete_edges e es s Hn) as (_ & _ & ? & ? & ? & ?). done.
  - apply delete_edges_filter.
  - intros Hall. destruct (delete_edges_filter es s) as [Hr Hs].
    { intros e He _. apply Hall, He. }
    assert (Hnil : filter (λ e, is_Some (vertices s !! VertexManager.key (outbound_id e))) es = []).
    { clear Hr Hs. induction es as [|x es IH]; [done|].
      rewrite filter_cons_False; [apply IH; intros e He; apply Hall; set_solver|].
      intros [? Hx]. rewrite (proj1 (Hall x ltac:(set_solver))) in Hx. discriminate. }
    rewrite Hnil in Hr, Hs. split; [exact Hr|exact Hs].
Qed.

(** ** C6: the bulk insert protocol *)

Lemma bulk_insert_phases items s :
  SledTransaction.bulk_insert items s =
  (batch_apply_all
     (mkBatch
        (map (λ v, BInsert (VertexManager.key (id v)) [CIdentifier (vertex_t v)])
           (bulk_vertices items))
        (map (λ e, BInsert (EdgeManager.key e) []) (bulk_edges items))
        (map (λ e, BInsert (EdgeRangeManager.key (outbound_id e) (t e) (inbound_id e)) [])
           (bulk_edges items))
        (map (λ e, BInsert (EdgeRangeManager.key (inbound_id e) (t e) (outbound_id e)) [])
           (bulk_edges items)));;
   for_each (λ '(vid, p, v), VertexPropertyManager.set vid p v) (bulk_vertex_props items);;
   for_each (λ '(e, p, v), EdgePropertyManager.set e p v) (bulk_edge_props items);;
   SledTransaction.sync) s.
Proof.
  unfold SledTransaction.bulk_insert. rewrite bulk_fold. cbv beta iota.
  cbn [vertex_creation_batch edge_creation_batch edge_range_creation_batch
    edge_range_rev_creation_batch batch_default].
  rewrite !app_nil_l. reflexivity.
Qed.

Lemma log_bind {A B} (m : M A) (f : A → M B) s :
  out_log ((m ≫= f) s) =
  out_log (m s) ++ match out_res (m s) with
                   | Ok a => out_log (f a (out_st (m s)))
                   | Err _ => []
                   end.
Proof.
  rewrite bind_unfold. destruct (m s) as [[a|e] s1 l1]; simpl.
  - by destruct (f a s1).
  - by rewrite app_nil_r.
Qed.

Lemma log_seq3 (P1 P2 P3 : Event → Prop) (m1 m2 m3 : M unit) s :
  logs P1 m1 → logs P2 m2 → logs P3 m3 →
  ∃ l1 l2 l3, out_log ((m1;; m2;; m3) s) = l1 ++ l2 ++ l3 ∧
    Forall P1 l1 ∧ Forall P2 l2 ∧ Forall P3 l3.
Proof.
  intros H1 H2 H3. rewrite log_bind.
  destruct (out_res (m1 s)) as [[]|e].
  - rewrite log_bind. destruct (out_res (m2 (out_st (m1 s)))) as [[]|e].
    + eexists _, _, _. split; [reflexivity|auto].
    + exists (out_log (m1 s)), (out_log (m2 (out_st (m1 s)))), [].
      rewrite app_nil_r. auto.
  - exists (out_log (m1 s)), [], []. rewrite !app_nil_r. auto.
Qed.

Lemma log_ok_bind {A B} (m : M A) (f : A → M B) s b :
  out_res ((m ≫= f) s) = Ok b →
  ∃ a, out_log ((m ≫= f) s) = out_log (m s) ++ out_log (f a (out_st (m s))) ∧
       out_res (f a (out_st (m s))) = Ok b.
Proof.
  intros Hok. destruct (bind_ok_inv m f s b Hok) as (a & Ha & Hf & _).
  exists a. rewrite (bind_ok m f s a Ha). cbn [out_log]. auto.
Qed.

Lemma sync_log_flush s :
  ∃ l, out_log (SledTransaction.sync s) = l ++ [EvFlush] ∧
       out_res (SledTransaction.sync s) = Ok ().
Proof.
  assert (Hnf : never_fails MetaDataManager.sync).
  { unfold MetaDataManager.sync. effects_split. }
  destruct (Hnf s) as [[] Hs]. unfold SledTransaction.sync.
  rewrite (bind_ok _ _ s () Hs). cbn [out_log out_res]. eexists. split; reflexivity.
Qed.

Lemma bulk_batches_untouched items :
  stays (untouched edge_trees)
    (for_each (λ '(vid, p, v), VertexPropertyManager.set vid p v) (bulk_vertex_props items);;
     for_each (λ '(e, p, v), EdgePropertyManager.set e p v) (bulk_edge_props items);;
     SledTransaction.sync).
Proof.
  unfold SledTransaction.sync, MetaDataManager.sync, VertexPropertyManager.set,
    EdgePropertyManager.set. stays_split.
Qed.

Lemma elem_of_bulk_edges e items : BulkEdge e ∈ items → e ∈ bulk_edges items.
Proof.
  intros He. unfold bulk_edges. apply list_elem_of_omap. exists (BulkEdge e). done.
Qed.

#[local] Hint Extern 1 (vprop_event _) => cbn; first [left; reflexivity | right; reflexivity]
  : effects_db.
#[local] Hint Extern 1 (eprop_event _) => cbn; first [left; reflexivity | right; reflexivity]
  : effects_db.
#[local] Hint Extern 1 (sync_event _) => cbn; first [reflexivity | exact I] : effects_db.

(** C6: [bulk_insert] partitions its items: the vertex rows of the vertex
    items, the edge keys and the forward and reversed range keys of the edge
    items, the vertex-property writes and the edge-property writes, each in
    item order.  It then runs four phases: the batches, applied to the
    vertex tree, the edges tree, the forward range tree and the reversed
    range tree in that order (the first four events); then each vertex
    property write, one [set] at a time (single-key operations on the
    vertex-property trees); then each edge property write likewise; then
    [sync], whose metadata operations and final flush close the log of a
    call that returns [Ok].  No endpoint is looked up: from any store, every
    edge item is in the three edge trees after the call, whether or not its
    vertices exist and whatever the call returns. *)
Theorem bulk_insert_protocol (items : list BulkInsertItem) (s : Store) :
  let vb := map (λ v, BInsert (VertexManager.key (id v)) [CIdentifier (vertex_t v)])
              (bulk_vertices items) in
  let eb := map (λ e, BInsert (EdgeManager.key e) []) (bulk_edges items) in
  let fb := map (λ e, BInsert (EdgeRangeManager.key (outbound_id e) (t e) (inbound_id e)) [])
              (bulk_edges items) in
  let rb := map (λ e, BInsert (EdgeRangeManager.key (inbound_id e) (t e) (outbound_id e)) [])
              (bulk_edges items) in
  let o := SledTransaction.bulk_insert items s in
  o = (batch_apply_all (mkBatch vb eb fb rb);;
       for_each (λ '(vid, p, v), VertexPropertyManager.set vid p v) (bulk_vertex_props items);;
       for_each (λ '(e, p, v), EdgePropertyManager.set e p v) (bulk_edge_props items);;
       SledTransaction.sync) s ∧
  (∃ lv le ls,
     out_log o = [EvApplyBatch TVertices vb; EvApplyBatch TEdges eb;
                  EvApplyBatch TEdgeRanges fb; EvApplyBatch TReversedEdgeRanges rb]
                 ++ lv ++ le ++ ls ∧
     Forall vprop_event lv ∧ Forall eprop_event le ∧ Forall sync_event ls) ∧
  (out_res o = Ok () → ∃ l, out_log o = l ++ [EvFlush]) ∧
  (∀ e, BulkEdge e ∈ items →
     is_Some (edges (out_st o) !! EdgeManager.key e) ∧
     is_Some (edge_ranges (out_st o) !!
                EdgeRangeManager.key (outbound_id e) (t e) (inbound_id e)) ∧
     is_Some (reversed_edge_ranges (out_st o) !!
                EdgeRangeManager.key (inbound_id e) (t e) (outbound_id e))).
Proof.
  intros vb eb fb rb o.
  assert (Ho : o = (batch_apply_all (mkBatch vb eb fb rb);;
       for_each (λ '(vid, p, v), VertexPropertyManager.set vid p v) (bulk_vertex_props items);;
       for_each (λ '(e, p, v), EdgePropertyManager.set e p v) (bulk_edge_props items);;
       SledTransaction.sync) s) by apply bulk_insert_phases.
  split; [exact Ho|].
  set (m1 := for_each (λ '(vid, p, v), VertexPropertyManager.set vid p v)
               (bulk_vertex_props items)) in Ho.
  set (m2 := for_each (λ '(e, p, v), EdgePropertyManager.set e p v) (bulk_edge_props items))
    in Ho.
  set (B := mkBatch vb eb fb rb) in Ho.
  set (s1 := out_st (batch_apply_all B s)).
  rewrite (bind_ok (batch_apply_all B) _ s () eq_refl) in Ho. fold s1 in Ho.
  change (out_log (batch_apply_all B s)) with
    [EvApplyBatch TVertices vb; EvApplyBatch TEdges eb;
     EvApplyBatch TEdgeRanges fb; EvApplyBatch TReversedEdgeRanges rb] in Ho.
  rewrite Ho. cbn [out_log out_res out_st]. clear Ho o.
  split_and!.
  - destruct (log_seq3 vprop_event eprop_event sync_event m1 m2 SledTransaction.sync s1)
      as (lv & le & ls & Hl & ?); [| | |exists lv, le, ls; rewrite Hl; auto].
    + unfold m1, VertexPropertyManager.set. effects_split.
    + unfold m2, EdgePropertyManager.set. effects_split.
    + unfold SledTransaction.sync, MetaDataManager.sync. effects_split.
  - intros Hok.
    destruct (log_ok_bind _ _ _ _ Hok) as ([] & Hl1 & Hok1).
    destruct (log_ok_bind _ _ _ _ Hok1) as ([] & Hl2 & Hok2).
    destruct (sync_log_flush (out_st (m2 (out_st (m1 s1))))) as (l & Hl3 & _).
    rewrite Hl1, Hl2, Hl3. eexists. rewrite !app_assoc. reflexivity.
  - intros e He.
    pose proof (bulk_batches_untouched items s1) as Hu. fold m1 m2 in Hu.
    rewrite !Hu by (unfold edge_trees; set_solver).
    unfold s1, B, batch_apply_all. run. cbn [edge_creation_batch edge_range_creation_batch
      edge_range_rev_creation_batch].
    unfold eb, fb, rb. rewrite !batch_apply_inserts.
    split_and!; right; exists e; (split; [by apply elem_of_bulk_edges|reflexivity]).
Qed.

(** *** Well-formed stores and [VertexManager::delete] *)

Global Instance keeps_well_formed_preorder : PreOrder keeps_well_formed.
Proof. split; [intros s H; exact H|]. intros s1 s2 s3 H12 H23 H. by apply H23, H12. Qed.

Global Instance submap_preorder : PreOrder submap.
Proof.
  split; [by intros s|]. intros s1 s2 s3 [Hf12 H12] [Hf23 H23].
  split; [congruence|]. intros tn k w H. by apply H12, H23.
Qed.

Lemma submap_remove tn k : stays submap (tree_remove tn k).
Proof.
  intros s. cbv [tree_remove out_st]. split; [apply faults_set_tree|].
  intros tn' k' w. rewrite tree_of_set_tree. case_decide; [subst|done].
  rewrite lookup_delete_Some. by intros [_ ?].
Qed.

#[local] Hint Resolve submap_remove : stays_db.

Lemma well_formed_submap s s' : well_formed s → submap s s' → well_formed s'.
Proof.
  intros [Hf Hs] [Hf' Hsub]. split; [congruence|]. intros tn k w H. apply Hs, Hsub, H.
Qed.

Lemma submap_none s s' tn k : submap s s' → tree_of s tn !! k = None → tree_of s' tn !! k = None.
Proof.
  intros [_ Hsub] Hn. destruct (tree_of s' tn !! k) as [w|] eqn:E; [|done].
  apply Hsub in E. congruence.
Qed.

Lemma keeps_well_formed_insert tn k w :
  (entry_shape tn k w) → stays keeps_well_formed (tree_insert tn k w).
Proof.
  intros Hk s [Hf Hs]. cbv [tree_insert out_st]. split; [by rewrite faults_set_tree|].
  intros tn' k' w'. rewrite tree_of_set_tree. case_decide; [subst|apply Hs].
  rewrite lookup_insert_Some. intros [[<- <-]|[_ ?]]; [done|]. by apply Hs.
Qed.

Lemma keeps_well_formed_remove tn k : stays keeps_well_formed (tree_remove tn k).
Proof. intros s H. eapply well_formed_submap; [exact H|apply submap_remove]. Qed.

Lemma batch_apply_lookup b m k w :
  batch_apply b m !! k = Some w → m !! k = Some w ∨ BInsert k w ∈ b.
Proof.
  revert m. induction b as [|op b IH]; intros m H; [by left|].
  change (batch_apply (op :: b) m) with (batch_apply b (batch_op_apply m op)) in H.
  destruct (IH _ H) as [H1|H1]; [|right; set_solver].
  destruct op as [k' w'|k']; cbn in H1.
  - apply lookup_insert_Some in H1 as [[<- <-]|[_ ?]]; [right; set_solver|by left].
  - apply lookup_delete_Some in H1 as [_ ?]. by left.
Qed.

Lemma keeps_well_formed_apply_batch tn b :
  (∀ k w, BInsert k w ∈ b → entry_shape tn k w) → stays keeps_well_formed (tree_apply_batch tn b).
Proof.
  intros Hb s [Hf Hs]. cbv [tree_apply_batch out_st]. split; [by rewrite faults_set_tree|].
  intros tn' k' w'. rewrite tree_of_set_tree. case_decide; [subst|apply Hs].
  intros H. apply batch_apply_lookup in H as [H|H]; [by apply Hs|by apply Hb].
Qed.

Lemma keeps_well_formed_write_indexed ip :
  stays keeps_well_formed (MetaDataManager.write_indexed ip).
Proof.
  intros s [Hf Hs]. cbv [MetaDataManager.write_indexed out_st].
  split; [by rewrite faults_set_indexed|]. intros tn k w. rewrite tree_of_set_indexed. apply Hs.
Qed.

Ltac solve_entry_shape :=
  cbn [entry_shape EdgeRangeManager.new EdgeRangeManager.new_reversed];
  first [exact I | split; repeat eexists | repeat eexists].

#[local] Hint Resolve keeps_well_formed_insert keeps_well_formed_remove
  keeps_well_formed_write_indexed : stays_db.
#[local] Hint Extern 1 (entry_shape _ _ _) => solve_entry_shape : stays_db.

Lemma keeps_well_formed_bulk_insert items :
  stays keeps_well_formed (SledTransaction.bulk_insert items).
Proof.
  unfold SledTransaction.bulk_insert. rewrite bulk_fold. cbv beta iota.
  apply stays_bind; [typeclasses eauto| |intros _].
  - unfold batch_apply_all. cbn [vertex_creation_batch edge_creation_batch
      edge_range_creation_batch edge_range_rev_creation_batch batch_default].
    rewrite !app_nil_l.
    repeat (apply stays_bind; [typeclasses eauto| |intros _]);
      apply keeps_well_formed_apply_batch; intros k w Hin; try exact I;
      apply list_elem_of_In, in_map_iff in Hin as (e & [= <- <-] & _); cbn; eauto.
  - unfold SledTransaction.sync, MetaDataManager.sync, VertexPropertyManager.set,
      EdgePropertyManager.set. stays_split.
Qed.

Lemma keeps_well_formed_run_op op : stays keeps_well_formed (run_op op).
Proof.
  destruct op; cbn [run_op].
  - unfold SledTransaction.create_vertex, VertexManager.create. stays_split.
  - unfold SledTransaction.create_edge, VertexManager.exists_, EdgeManager.set,
      EdgeRangeManager.set. stays_split.
  - unfold SledTransaction.delete_vertices, VertexManager.delete,
      VertexPropertyManager.iterate_for_owner, VertexPropertyManager.delete,
      EdgeRangeManager.iterate_for_owner, EdgeManager.delete, EdgeRangeManager.delete,
      EdgePropertyManager.iterate_for_owner, EdgePropertyManager.delete. stays_split.
  - unfold SledTransaction.delete_edges, VertexManager.get, EdgeManager.delete,
      EdgeRangeManager.delete, EdgePropertyManager.iterate_for_owner,
      EdgePropertyManager.delete. stays_split.
  - unfold SledTransaction.delete_vertex_properties, VertexPropertyManager.delete. stays_split.
  - unfold SledTransaction.delete_edge_properties, EdgePropertyManager.delete. stays_split.
  - unfold SledTransaction.set_vertex_properties, VertexPropertyManager.set. stays_split.
  - unfold SledTransaction.set_edge_properties, EdgePropertyManager.set. stays_split.
  - unfold SledTransaction.index_property, MetaDataManager.add_index, MetaDataManager.sync.
    stays_split.
  - apply keeps_well_formed_bulk_insert.
  - unfold SledTransaction.sync, MetaDataManager.sync. stays_split.
Qed.

Lemma reachable_well_formed s : reachable s → well_formed s ∧ edge_consistent s.
Proof.
  induction 1 as [|s op _ [IHw IHc]].
  - split.
    + split; [done|]. intros tn k w. destruct tn; cbn; rewrite lookup_empty; discriminate.
    + intros o et i. cbn [tree_of empty_store edges_tree edge_ranges_tree
        reversed_edge_ranges_tree]. rewrite !lookup_empty.
      split; split; intros [? Hx]; discriminate Hx.
  - split; [exact (keeps_well_formed_run_op op s IHw)|exact (keeps_run_op op s IHc)].
Qed.


Lemma vpm_delete_ok o n s :
  well_formed s →
  out_res (VertexPropertyManager.delete o n s) = Ok () ∧
  vertex_properties (out_st (VertexPropertyManager.delete o n s)) !!
    VertexPropertyManager.key o n = None.
Proof.
  intros [Hf Hs]. unfold VertexPropertyManager.delete. run. rewrite Hf.
  rewrite bool_decide_false by apply not_elem_of_empty. run.
  destruct (vertex_properties s !! VertexPropertyManager.key o n) as [w|] eqn:E; run.
  - destruct (Hs _ _ _ E) as [_ [j ->]]. run. done.
  - done.
Qed.

Lemma epm_delete_ok e n s :
  well_formed s →
  out_res (EdgePropertyManager.delete e n s) = Ok () ∧
  edge_properties (out_st (EdgePropertyManager.delete e n s)) !!
    EdgePropertyManager.key e n = None.
Proof.
  intros [Hf Hs]. unfold EdgePropertyManager.delete. run. rewrite Hf.
  rewrite bool_decide_false by apply not_elem_of_empty. run.
  destruct (edge_properties s !! EdgePropertyManager.key e n) as [w|] eqn:E; run.
  - destruct (Hs _ _ _ E) as [_ [j ->]]. run. done.
  - done.
Qed.

Lemma for_each_all {A} (f : A → M unit) (l : list A) (G : A → Store → Prop) :
  (∀ a, a ∈ l → ∀ s, well_formed s → out_res (f a s) = Ok () ∧ G a (out_st (f a s))) →
  (∀ a, a ∈ l → stays submap (f a)) →
  (∀ a s s', submap s s' → G a s → G a s') →
  ∀ s, well_formed s →
  out_res (for_each f l s) = Ok () ∧ submap s (out_st (for_each f l s)) ∧
  ∀ a, a ∈ l → G a (out_st (for_each f l s)).
Proof.
  intros H1 H2 H3. induction l as [|x l IH]; intros s Hwf.
  - split_and!; [done|reflexivity|]. intros a Ha. by apply elem_of_nil in Ha.
  - cbn [for_each]. destruct (H1 x ltac:(set_solver) s Hwf) as [Hok Hg].
    rewrite (bind_ok _ _ s () Hok). cbn [out_res out_st].
    pose proof (H2 x ltac:(set_solver) s) as Hsub.
    destruct (IH ltac:(intros; apply H1; set_solver) ltac:(intros; apply H2; set_solver)
      (out_st (f x s)) ltac:(eapply well_formed_submap; eauto)) as (Hok' & Hsub' & Hg').
    split_and!; [done|by etransitivity|].
    intros a Ha. apply elem_of_cons in Ha as [->|Ha]; [|by apply Hg'].
    eapply H3; [exact Hsub'|exact Hg].
Qed.

Lemma for_each_map {A B} (f : B → M unit) (g : A → B) (l : list A) :
  for_each f (map g l) = for_each (λ a, f (g a)) l.
Proof. induction l as [|x l IH]; cbn; [done|]. by rewrite IH. Qed.

(** Scanned entries that a loop removed, and entries that were not there,
    leave the prefix empty. *)
Lemma prefix_cleared (s s' : Store) tn p :
  submap s s' →
  (∀ kv, kv ∈ filter (λ kv, starts_with p kv.1 = true) (map_to_list (tree_of s tn)) →
         tree_of s' tn !! kv.1 = None) →
  ∀ k, starts_with p k = true → tree_of s' tn !! k = None.
Proof.
  intros Hsub Hg k Hk. destruct (tree_of s tn !! k) as [w|] eqn:E.
  - apply (Hg (k, w)). apply list_elem_of_filter. split; [done|].
    by apply elem_of_map_to_list.
  - by eapply submap_none.
Qed.

Lemma lift_ok_bind {A B} (a : A) (g : A → M B) s : (lift (Ok a) ≫= g) s = g a s.
Proof. cbv [mbind M_bind lift]. by destruct (g a s). Qed.

Lemma bind_pure {A B} (m : M A) (f : A → M B) s a l :
  m s = mkOut (Ok a) s l →
  out_res ((m ≫= f) s) = out_res (f a s) ∧ out_st ((m ≫= f) s) = out_st (f a s).
Proof. intros Hm. rewrite bind_unfold, Hm. by destruct (f a s). Qed.

Lemma in_scan (s : Store) tn p kv :
  kv ∈ filter (λ kv, starts_with p kv.1 = true) (map_to_list (tree_of s tn)) →
  tree_of s tn !! kv.1 = Some kv.2 ∧ starts_with p kv.1 = true.
Proof.
  intros H. apply list_elem_of_filter in H as [Hp H]. destruct kv as [k w].
  apply elem_of_map_to_list in H. done.
Qed.

Lemma em_delete_submap e : stays submap (EdgeManager.delete e).
Proof.
  unfold EdgeManager.delete, EdgeRangeManager.delete, EdgePropertyManager.iterate_for_owner,
    EdgePropertyManager.delete. stays_split.
Qed.

Lemma em_delete_ok e s :
  well_formed s →
  out_res (EdgeManager.delete e s) = Ok () ∧
  edges (out_st (EdgeManager.delete e s)) !! EdgeManager.key e = None ∧
  edge_ranges (out_st (EdgeManager.delete e s)) !!
    EdgeRangeManager.key (outbound_id e) (t e) (inbound_id e) = None ∧
  reversed_edge_ranges (out_st (EdgeManager.delete e s)) !!
    EdgeRangeManager.key (inbound_id e) (t e) (outbound_id e) = None ∧
  ∀ k, starts_with (EdgePropertyManager.owner_prefix e) k = true →
       edge_properties (out_st (EdgeManager.delete e s)) !! k = None.
Proof.
  intros Hwf. unfold EdgeManager.delete.
  set (tail := items ← EdgePropertyManager.iterate_for_owner e;
               for_each (λ item : Result ((Edge * Identifier) * Json),
                 '((e0, pid), _) ← lift item; EdgePropertyManager.delete e0 pid) items).
  assert (Ht : ∀ s0, well_formed s0 →
    out_res (tail s0) = Ok () ∧ submap s0 (out_st (tail s0)) ∧
    ∀ k, starts_with (EdgePropertyManager.owner_prefix e) k = true →
         edge_properties (out_st (tail s0)) !! k = None).
  { intros s0 Hwf0. subst tail.
    destruct (bind_pure (EdgePropertyManager.iterate_for_owner e) (λ items,
      for_each (λ item : Result ((Edge * Identifier) * Json),
        '((e0, pid), _) ← lift item; EdgePropertyManager.delete e0 pid) items)
      s0 _ _ eq_refl) as [-> ->].
    rewrite for_each_map.
    match goal with |- context [for_each ?f ?l s0] =>
      destruct (for_each_all f l (λ kv s, edge_properties s !! kv.1 = None)) with (s := s0)
        as (Hok & Hsub & Hg) end; [| | |exact Hwf0|].
    - intros kv Hkv s1 Hwf1. apply in_scan in Hkv as [Hkv _].
      destruct Hwf0 as [_ Hs0]. destruct (Hs0 _ _ _ Hkv) as [(e' & n & Hk) [j Hj]].
      destruct kv as [k w]. cbn in Hk, Hj |- *. subst k w.
      assert (Hr : EdgePropertyManager.read_owned (EdgePropertyManager.key e' n, to_vec j)
                   = Ok ((e', n), j)) by (destruct e'; reflexivity).
      rewrite Hr, lift_ok_bind. cbn. by apply epm_delete_ok.
    - intros kv _. apply stays_bind; [typeclasses eauto|eauto with stays_db|].
      intros [[e0 pid] ?]. unfold EdgePropertyManager.delete. stays_split.
    - intros kv s1 s2 Hsub Hn. by eapply submap_none.
    - split_and!; [done|done|]. eapply prefix_cleared; [exact Hsub|exact Hg]. }
  unfold EdgeRangeManager.delete. run.
  set (s3 := set_tree (set_tree (set_tree s _ _) _ _) _ _).
  assert (Hwf3 : well_formed s3).
  { eapply well_formed_submap; [exact Hwf|]. subst s3.
    etransitivity; [apply (submap_remove TEdges (EdgeManager.key e))|].
    cbv [tree_remove out_st]. autorewrite with run_db.
    etransitivity; [apply (submap_remove TEdgeRanges
      (EdgeRangeManager.key (outbound_id e) (t e) (inbound_id e)))|].
    cbv [tree_remove out_st]. autorewrite with run_db.
    etransitivity; [apply (submap_remove TReversedEdgeRanges
      (EdgeRangeManager.key (inbound_id e) (t e) (outbound_id e)))|].
    cbv [tree_remove out_st]. autorewrite with run_db. reflexivity. }
  destruct (Ht s3 Hwf3) as (Hok & Hsub & Hep).
  destruct (tail s3) as [r s4 l4] eqn:E. cbv [out_res out_st] in Hok, Hsub, Hep |- *. subst r.
  split_and!; [done| | | |exact Hep]; eapply submap_none; try exact Hsub; subst s3; run; done.
Qed.

Lemma scan_in (s : Store) tn p k w :
  tree_of s tn !! k = Some w → starts_with p k = true →
  (k, w) ∈ filter (λ kv, starts_with p kv.1 = true) (map_to_list (tree_of s tn)).
Proof. intros Hk Hp. apply list_elem_of_filter. split; [done|]. by apply elem_of_map_to_list. Qed.

Lemma starts_with_uuid v rest : starts_with [CUuid v] (CUuid v :: rest) = true.
Proof. cbn. by rewrite bool_decide_true. Qed.

Lemma starts_with_uuid_inv v o rest : starts_with [CUuid v] (CUuid o :: rest) = true → o = v.
Proof. cbn. rewrite andb_true_r. case_bool_decide as H; [congruence|discriminate]. Qed.

(** The loop of [VertexManager::delete] over the vertex's properties. *)
Lemma vm_delete_props v s0 :
  well_formed s0 →
  let m := for_each (λ item : Result ((Uuid * Identifier) * Json),
             '((vertex_property_owner_id, vertex_property_name), _) ← lift item;
             VertexPropertyManager.delete vertex_property_owner_id vertex_property_name)
           (map VertexPropertyManager.read_owned
              (filter (λ kv, starts_with [CUuid v] kv.1 = true)
                 (map_to_list (vertex_properties s0)))) in
  out_res (m s0) = Ok () ∧ submap s0 (out_st (m s0)) ∧
  untouched edge_trees s0 (out_st (m s0)) ∧
  ∀ k, starts_with [CUuid v] k = true → vertex_properties (out_st (m s0)) !! k = None.
Proof.
  intros Hwf0 m.
  assert (Hu : untouched edge_trees s0 (out_st (m s0))).
  { subst m. apply stays_for_each; [typeclasses eauto|]. intros a _.
    apply stays_bind; [typeclasses eauto|eauto with stays_db|]. intros [[? ?] ?].
    unfold VertexPropertyManager.delete. stays_split. }
  subst m. rewrite for_each_map in Hu |- *.
  match goal with |- context [for_each ?f ?l s0] =>
    destruct (for_each_all f l (λ kv s, vertex_properties s !! kv.1 = None)) with (s := s0)
      as (Hok & Hsub & Hg) end.
  - intros kv Hkv s1 Hwf1. apply in_scan in Hkv as [Hkv _].
    destruct Hwf0 as [_ Hs0]. destruct (Hs0 _ _ _ Hkv) as [(vid & n & Hk) [j Hj]].
    destruct kv as [k w]. cbn in Hk, Hj |- *. subst k w.
    change (VertexPropertyManager.read_owned (VertexPropertyManager.key vid n, to_vec j))
      with (Ok (A := (Uuid * Identifier) * Json) ((vid, n), j)).
    rewrite lift_ok_bind. cbn. by apply vpm_delete_ok.
  - intros kv _. apply stays_bind; [typeclasses eauto|eauto with stays_db|].
    intros [[? ?] ?]. unfold VertexPropertyManager.delete. stays_split.
  - intros kv s1 s2 Hsub' Hn. by eapply submap_none.
  - exact Hwf0.
  - split_and!; [done|done|done|]. eapply prefix_cleared; [exact Hsub|exact Hg].
Qed.

(** The loop of [VertexManager::delete] over the forward range tree. *)
Lemma vm_delete_fwd v s1 :
  well_formed s1 →
  let m := for_each (λ item : Result (Uuid * Identifier * Uuid),
             '(edge_range_outbound_id, edge_range_t, edge_range_inbound_id) ← lift item;
             EdgeManager.delete (mkEdge edge_range_outbound_id edge_range_t edge_range_inbound_id))
           (map (λ kv, EdgeRangeManager.read_item kv.1)
              (filter (λ kv, starts_with [CUuid v] kv.1 = true)
                 (map_to_list (edge_ranges s1)))) in
  out_res (m s1) = Ok () ∧ submap s1 (out_st (m s1)) ∧
  (edge_consistent s1 → edge_consistent (out_st (m s1))) ∧
  (∀ e, outbound_id e ≠ v → keeps_edge e s1 (out_st (m s1))) ∧
  (∀ et i, edge_ranges (out_st (m s1)) !! EdgeRangeManager.key v et i = None) ∧
  (∀ et i, is_Some (edge_ranges s1 !! EdgeRangeManager.key v et i) →
     ∀ k, starts_with (EdgePropertyManager.owner_prefix (mkEdge v et i)) k = true →
          edge_properties (out_st (m s1)) !! k = None).
Proof.
  intros Hwf1 m.
  assert (Hc : keeps_consistent s1 (out_st (m s1))).
  { subst m. apply stays_for_each; [typeclasses eauto|]. intros a _.
    apply stays_bind; [typeclasses eauto|eauto with stays_db|]. intros [[? ?] ?].
    apply keeps_em_delete. }
  assert (Hk : ∀ e, outbound_id e ≠ v → keeps_edge e s1 (out_st (m s1))).
  { intros e Hne. subst m. apply stays_for_each; [typeclasses eauto|]. intros a Ha.
    apply list_elem_of_In, in_map_iff in Ha as ([k w] & <- & Hkv).
    apply list_elem_of_In, (in_scan s1 TEdgeRanges) in Hkv as [Hkv Hp]. cbn [fst snd] in Hkv, Hp |- *.
    destruct Hwf1 as [_ Hs1]. destruct (Hs1 _ _ _ Hkv) as (o & et & i & ->).
    apply starts_with_uuid_inv in Hp as ->.
    change (EdgeRangeManager.read_item (EdgeRangeManager.key v et i)) with
      (Ok (A := Uuid * Identifier * Uuid) (v, et, i)).
    intros s. rewrite lift_ok_bind. cbv beta iota.
    apply keeps_edge_em_delete. intros Heq. apply Hne. by rewrite <- Heq. }
  subst m. rewrite for_each_map in Hc, Hk |- *.
  match goal with |- context [for_each ?f ?l s1] =>
    destruct (for_each_all f l (λ kv s, ∀ o et i, kv.1 = EdgeRangeManager.key o et i →
      edge_ranges s !! kv.1 = None ∧
      ∀ k, starts_with (EdgePropertyManager.owner_prefix (mkEdge o et i)) k = true →
           edge_properties s !! k = None)) with (s := s1)
      as (Hok & Hsub & Hg) end.
  - intros kv Hkv s Hwf. apply in_scan in Hkv as [Hkv _].
    destruct Hwf1 as [_ Hs1]. destruct (Hs1 _ _ _ Hkv) as (o & et & i & Hkey).
    destruct kv as [k w]. cbn [fst snd] in Hkey |- *. subst k.
    change (EdgeRangeManager.read_item (EdgeRangeManager.key o et i)) with
      (Ok (A := Uuid * Identifier * Uuid) (o, et, i)).
    rewrite lift_ok_bind. cbv beta iota.
    destruct (em_delete_ok (mkEdge o et i) s Hwf) as (Hok & _ & Hf & _ & Hep).
    cbn [outbound_id t inbound_id] in Hf. split; [exact Hok|].
    intros o' et' i' Heq. apply range_key_inj in Heq as (<- & <- & <-). auto.
  - intros kv _. apply stays_bind; [typeclasses eauto|eauto with stays_db|].
    intros [[? ?] ?]. apply em_delete_submap.
  - intros kv s s' Hs HG o et i Heq. destruct (HG o et i Heq) as [H1 H2].
    split; [by eapply submap_none|]. intros k Hk'. eapply submap_none; [exact Hs|auto].
  - exact Hwf1.
  - split_and!; [done|done|exact Hc|exact Hk| |].
    + intros et i. destruct (edge_ranges s1 !! EdgeRangeManager.key v et i) as [w|] eqn:E.
      * apply (Hg (EdgeRangeManager.key v et i, w) (scan_in _ _ _ _ _ E (starts_with_uuid _ _))
          v et i eq_refl).
      * by eapply submap_none.
    + intros et i [w E].
      apply (Hg (EdgeRangeManager.key v et i, w) (scan_in _ _ _ _ _ E (starts_with_uuid _ _))
        v et i eq_refl).
Qed.

(** The loop of [VertexManager::delete] over the reversed range tree. *)
Lemma vm_delete_rev v s2 :
  well_formed s2 →
  let m := for_each (λ item : Result (Uuid * Identifier * Uuid),
             '(reversed_edge_range_inbound_id, reversed_edge_range_t,
               reversed_edge_range_outbound_id) ← lift item;
             EdgeManager.delete (mkEdge reversed_edge_range_outbound_id reversed_edge_range_t
                                        reversed_edge_range_inbound_id))
           (map (λ kv, EdgeRangeManager.read_item kv.1)
              (filter (λ kv, starts_with [CUuid v] kv.1 = true)
                 (map_to_list (reversed_edge_ranges s2)))) in
  out_res (m s2) = Ok () ∧ submap s2 (out_st (m s2)) ∧
  (∀ et o, is_Some (reversed_edge_ranges s2 !! EdgeRangeManager.key v et o) →
     edge_ranges (out_st (m s2)) !! EdgeRangeManager.key o et v = None ∧
     ∀ k, starts_with (EdgePropertyManager.owner_prefix (mkEdge o et v)) k = true →
          edge_properties (out_st (m s2)) !! k = None).
Proof.
  intros Hwf2 m. subst m. rewrite for_each_map.
  match goal with |- context [for_each ?f ?l s2] =>
    destruct (for_each_all f l (λ kv s, ∀ a b c, kv.1 = EdgeRangeManager.key a b c →
      edge_ranges s !! EdgeRangeManager.key c b a = None ∧
      ∀ k, starts_with (EdgePropertyManager.owner_prefix (mkEdge c b a)) k = true →
           edge_properties s !! k = None)) with (s := s2)
      as (Hok & Hsub & Hg) end.
  - intros kv Hkv s Hwf. apply in_scan in Hkv as [Hkv _].
    destruct Hwf2 as [_ Hs2]. destruct (Hs2 _ _ _ Hkv) as (a & b & c & Hkey).
    destruct kv as [k w]. cbn [fst snd] in Hkey |- *. subst k.
    change (EdgeRangeManager.read_item (EdgeRangeManager.key a b c)) with
      (Ok (A := Uuid * Identifier * Uuid) (a, b, c)).
    rewrite lift_ok_bind. cbv beta iota.
    destruct (em_delete_ok (mkEdge c b a) s Hwf) as (Hok & _ & Hf & _ & Hep).
    cbn [outbound_id t inbound_id] in Hf. split; [exact Hok|].
    intros a' b' c' Heq. apply range_key_inj in Heq as (<- & <- & <-). auto.
  - intros kv _. apply stays_bind; [typeclasses eauto|eauto with stays_db|].
    intros [[? ?] ?]. apply em_delete_submap.
  - intros kv s s' Hs HG a b c Heq. destruct (HG a b c Heq) as [H1 H2].
    split; [by eapply submap_none|]. intros k Hk'. eapply submap_none; [exact Hs|auto].
  - exact Hwf2.
  - split_and!; [done|done|]. intros et o [w E].
    apply (Hg (EdgeRangeManager.key v et o, w) (scan_in _ _ _ _ _ E (starts_with_uuid _ _))
      v et o eq_refl).
Qed.

Lemma vm_delete_ok v s :
  well_formed s → edge_consistent s →
  out_res (VertexManager.delete v s) = Ok () ∧
  submap s (out_st (VertexManager.delete v s)) ∧
  (∀ k, starts_with [CUuid v] k = true →
        vertex_properties (out_st (VertexManager.delete v s)) !! k = None) ∧
  (∀ et i, edge_ranges (out_st (VertexManager.delete v s)) !!
             EdgeRangeManager.key v et i = None) ∧
  (∀ o et, edge_ranges (out_st (VertexManager.delete v s)) !!
             EdgeRangeManager.key o et v = None) ∧
  (∀ e, is_Some (edges s !! EdgeManager.key e) → outbound_id e = v ∨ inbound_id e = v →
     ∀ k, starts_with (EdgePropertyManager.owner_prefix e) k = true →
          edge_properties (out_st (VertexManager.delete v s)) !! k = None).
Proof.
  intros Hwf Hc. unfold VertexManager.delete.
  rewrite (bind_ok (tree_remove TVertices (VertexManager.key v)) _ s () eq_refl).
  cbn [out_res out_st].
  set (s0 := out_st (tree_remove TVertices (VertexManager.key v) s)).
  assert (Hsub0 : submap s s0) by apply submap_remove.
  assert (Hwf0 : well_formed s0) by (eapply well_formed_submap; eauto).
  assert (Hu0 : untouched edge_trees s s0)
    by (apply untouched_remove; unfold edge_trees; apply (bool_decide_unpack _); reflexivity).
  (* the vertex's properties *)
  match goal with |- context [(VertexPropertyManager.iterate_for_owner v ≫= ?f) s0] =>
    destruct (bind_pure (VertexPropertyManager.iterate_for_owner v) f s0
      (map VertexPropertyManager.read_owned
        (filter (λ kv, starts_with [CUuid v] kv.1 = true) (map_to_list (vertex_properties s0))))
      _ eq_refl) as [Hr Hs] end.
  rewrite Hr, Hs. clear Hr Hs. cbv beta.
  pose proof (vm_delete_props v s0 Hwf0) as H1. cbv zeta in H1.
  destruct H1 as (Hok1 & Hsub1 & Hu1 & Hvp1).
  rewrite (bind_ok _ _ s0 () Hok1). cbn [out_res out_st].
  match type of Hok1 with out_res (?m s0) = _ => set (s1 := out_st (m s0)) in * end.
  assert (Hwf1 : well_formed s1) by (eapply well_formed_submap; [exact Hwf0|exact Hsub1]).
  assert (Hu01 : untouched edge_trees s s1) by (etransitivity; [exact Hu0|exact Hu1]).
  assert (Hc1 : edge_consistent s1).
  { intros o et i.
    rewrite (Hu01 TEdges), (Hu01 TEdgeRanges), (Hu01 TReversedEdgeRanges)
      by (unfold edge_trees; repeat constructor).
    apply Hc. }
  (* the forward ranges *)
  match goal with
  |- context [(EdgeRangeManager.iterate_for_owner EdgeRangeManager.new v ≫= ?f) s1] =>
    destruct (bind_pure (EdgeRangeManager.iterate_for_owner EdgeRangeManager.new v) f s1
      (map (λ kv, EdgeRangeManager.read_item kv.1)
        (filter (λ kv, starts_with [CUuid v] kv.1 = true) (map_to_list (edge_ranges s1))))
      _ eq_refl) as [Hr Hs] end.
  rewrite Hr, Hs. clear Hr Hs. cbv beta.
  pose proof (vm_delete_fwd v s1 Hwf1) as H2. cbv zeta in H2.
  destruct H2 as (Hok2 & Hsub2 & Hc2 & Hk2 & Hf2 & Hep2).
  rewrite (bind_ok _ _ s1 () Hok2). cbn [out_res out_st].
  match type of Hok2 with out_res (?m s1) = _ => set (s2 := out_st (m s1)) in * end.
  assert (Hwf2 : well_formed s2) by (eapply well_formed_submap; [exact Hwf1|exact Hsub2]).
  specialize (Hc2 Hc1).
  (* the reversed ranges *)
  match goal with
  |- context [(EdgeRangeManager.iterate_for_owner EdgeRangeManager.new_reversed v ≫= ?f) s2] =>
    destruct (bind_pure (EdgeRangeManager.iterate_for_owner EdgeRangeManager.new_reversed v) f s2
      (map (λ kv, EdgeRangeManager.read_item kv.1)
        (filter (λ kv, starts_with [CUuid v] kv.1 = true)
          (map_to_list (reversed_edge_ranges s2))))
      _ eq_refl) as [Hr Hs] end.
  rewrite Hr, Hs. clear Hr Hs. cbv beta.
  pose proof (vm_delete_rev v s2 Hwf2) as H3. cbv zeta in H3.
  destruct H3 as (Hok3 & Hsub3 & Hrev3).
  match type of Hok3 with out_res (?m s2) = _ => set (s3 := out_st (m s2)) in * end.
  assert (Hsub13 : submap s1 s3) by (etransitivity; [exact Hsub2|exact Hsub3]).
  split_and!.
  - exact Hok3.
  - etransitivity; [exact Hsub0|]. etransitivity; [exact Hsub1|exact Hsub13].
  - intros k Hk. eapply submap_none; [exact Hsub13|]. by apply Hvp1.
  - intros et i. eapply submap_none; [exact Hsub3|]. apply Hf2.
  - intros o et.
    destruct (reversed_edge_ranges s2 !! EdgeRangeManager.key v et o) as [w|] eqn:E.
    + apply (Hrev3 et o). by exists w.
    + eapply submap_none; [exact Hsub3|].
      destruct (edge_ranges s2 !! EdgeRangeManager.key o et v) as [w|] eqn:E'; [|done].
      exfalso. destruct (Hc2 o et v) as [_ Hfr]. destruct (proj1 Hfr ltac:(by exists w)) as [? Hx].
      congruence.
  - intros [o et i] Hex Hend k Hk.
    destruct (Hc o et i) as [Hef _]. rewrite Hef in Hex.
    rewrite <- (Hu01 TEdgeRanges) in Hex by (unfold edge_trees; repeat constructor).
    cbn [outbound_id inbound_id] in Hend.
    destruct (decide (o = v)) as [->|Hne].
    + eapply submap_none; [exact Hsub3|]. by apply (Hep2 et i Hex).
    + destruct Hend as [? | ->]; [done|].
      destruct (Hk2 (mkEdge o et v) Hne) as (_ & _ & _ & Hfwd & _ & _).
      cbn [outbound_id t inbound_id] in Hfwd. rewrite <- Hfwd in Hex.
      destruct (Hc2 o et v) as [_ Hfr]. apply Hfr in Hex.
      by apply (Hrev3 et o Hex).
Qed.

Lemma vm_delete_scans v s :
  out_res (VertexManager.delete v s) = Ok () →
  EvScan TEdgeRanges [CUuid v] ∈ out_log (VertexManager.delete v s) ∧
  EvScan TReversedEdgeRanges [CUuid v] ∈ out_log (VertexManager.delete v s).
Proof.
  intros Hok. unfold VertexManager.delete in *.
  destruct (log_ok_bind _ _ _ _ Hok) as ([] & -> & Hok1).
  destruct (log_ok_bind _ _ _ _ Hok1) as (props & -> & Hok2). cbv beta in Hok2 |- *.
  destruct (log_ok_bind _ _ _ _ Hok2) as ([] & -> & Hok3). cbv beta in Hok3 |- *.
  destruct (log_ok_bind _ _ _ _ Hok3) as (fwd & -> & Hok4). cbv beta in Hok4 |- *.
  destruct (log_ok_bind _ _ _ _ Hok4) as ([] & -> & Hok5). cbv beta in Hok5 |- *.
  destruct (log_ok_bind _ _ _ _ Hok5) as (rev & -> & Hok6).
  match goal with
  |- context [out_log (EdgeRangeManager.iterate_for_owner EdgeRangeManager.new v ?s1)] =>
    change (out_log (EdgeRangeManager.iterate_for_owner EdgeRangeManager.new v s1))
      with ([EvScan TEdgeRanges [CUuid v]] ++ [])
  end.
  match goal with
  |- context [out_log (EdgeRangeManager.iterate_for_owner EdgeRangeManager.new_reversed v ?s2)] =>
    change (out_log (EdgeRangeManager.iterate_for_owner EdgeRangeManager.new_reversed v s2))
      with ([EvScan TReversedEdgeRanges [CUuid v]] ++ [])
  end.
  split; repeat (apply elem_of_app; first [left; by left | right]).
Qed.

Lemma filter_prefix_empty (m : gmap Key Val) p :
  (∀ k, starts_with p k = true → m !! k = None) →
  filter (λ kv, starts_with p kv.1 = true) (map_to_list m) = [].
Proof.
  intros H. destruct (filter _ (map_to_list m)) as [|[k w] l] eqn:E; [done|]. exfalso.
  assert (Hin : (k, w) ∈ filter (λ kv, starts_with p kv.1 = true) (map_to_list m))
    by (rewrite E; left).
  apply list_elem_of_filter in Hin as [Hp Hin]. apply elem_of_map_to_list in Hin.
  cbn in Hp. rewrite H in Hin by done. discriminate.
Qed.

Lemma delete_vertices_single vx s :
  out_res (SledTransaction.delete_vertices [vx] s) = out_res (VertexManager.delete (id vx) s) ∧
  out_st (SledTransaction.delete_vertices [vx] s) = out_st (VertexManager.delete (id vx) s) ∧
  out_log (SledTransaction.delete_vertices [vx] s) = out_log (VertexManager.delete (id vx) s).
Proof.
  unfold SledTransaction.delete_vertices. cbn [for_each]. rewrite bind_unfold.
  destruct (VertexManager.delete (id vx) s) as [[[]|e] s1 l1]; cbn; [|done].
  by rewrite app_nil_r.
Qed.

(** ** C1: deleting a vertex cascades *)

(** C1: on any store reachable through the transaction surface,
    [delete_vertices [v]] returns [Ok]; afterwards [all_edges] yields no
    edge with [v] as outbound or inbound endpoint, the vertex-property tree
    has no entry under [v] (so [all_vertex_properties_for_vertex v] is
    empty), and for every edge [e] of the store with [v] as an endpoint the
    edge-property tree has no entry under [e] (so
    [all_edge_properties_for_edge e] is empty).  The call scans both the
    forward and the reversed range tree under the prefix [Uuid(v)]. *)
Theorem delete_vertex_cascade (s : Store) (vx : Vertex) :
  reachable s →
  let o := SledTransaction.delete_vertices [vx] s in
  out_res o = Ok () ∧
  (∃ items, out_res (SledTransaction.all_edges (out_st o)) = Ok items ∧
     ∀ e, Ok e ∈ items → outbound_id e ≠ id vx ∧ inbound_id e ≠ id vx) ∧
  (∀ k, starts_with [CUuid (id vx)] k = true → vertex_properties (out_st o) !! k = None) ∧
  out_res (SledTransaction.all_vertex_properties_for_vertex vx (out_st o)) = Ok [] ∧
  (∀ e, is_Some (edges s !! EdgeManager.key e) → outbound_id e = id vx ∨ inbound_id e = id vx →
     (∀ k, starts_with (EdgePropertyManager.owner_prefix e) k = true →
           edge_properties (out_st o) !! k = None) ∧
     out_res (SledTransaction.all_edge_properties_for_edge e (out_st o)) = Ok []) ∧
  EvScan TEdgeRanges [CUuid (id vx)] ∈ out_log o ∧
  EvScan TReversedEdgeRanges [CUuid (id vx)] ∈ out_log o.
Proof.
  intros Hreach o. destruct (reachable_well_formed s Hreach) as [Hwf Hc].
  destruct (delete_vertices_single vx s) as (Hr & Hs & Hl). subst o. rewrite Hr, Hs, Hl.
  destruct (vm_delete_ok (id vx) s Hwf Hc) as (Hok & Hsub & Hvp & Hf1 & Hf2 & Hep).
  destruct (vm_delete_scans (id vx) s Hok) as [Hsc1 Hsc2].
  set (s' := out_st (VertexManager.delete (id vx) s)) in *.
  assert (Hwf' : well_formed s') by (eapply well_formed_submap; eauto).
  split_and!; [exact Hok| | exact Hvp | | |exact Hsc1|exact Hsc2].
  - exists (map (λ kv, map_result (λ '(o, et, i), mkEdge o et i)
              (EdgeRangeManager.read_item kv.1))
           (filter (λ kv, starts_with [] kv.1 = true) (map_to_list (edge_ranges s')))).
    split; [reflexivity|]. intros e He.
    apply list_elem_of_In, in_map_iff in He as ([k w] & He & Hkv).
    apply list_elem_of_In, (in_scan s' TEdgeRanges) in Hkv as [Hkv _].
    cbn [fst snd] in Hkv, He.
    destruct Hwf' as [_ Hs']. destruct (Hs' _ _ _ Hkv) as (o & et & i & ->).
    cbn in He. injection He as <-. cbn [outbound_id inbound_id]. split.
    + intros ->. by rewrite Hf1 in Hkv.
    + intros ->. by rewrite Hf2 in Hkv.
  - unfold SledTransaction.all_vertex_properties_for_vertex,
      VertexPropertyManager.iterate_for_owner. run.
    rewrite filter_prefix_empty by exact Hvp. reflexivity.
  - intros e Hex Hend. split; [exact (Hep e Hex Hend)|].
    unfold SledTransaction.all_edge_properties_for_edge,
      EdgePropertyManager.iterate_for_owner. run.
    rewrite filter_prefix_empty by exact (Hep e Hex Hend). reflexivity.
Qed.

(* ------------------------------------------------------------------ *)
(** ** Further properties of the transaction code *)

(** *** The value indexes *)

Lemma to_vec_inj a b : to_vec a = to_vec b → a = b.
Proof. by intros [= ->]. Qed.

Lemma some_to_vec_inj a b : Some (to_vec a) = Some (to_vec b) → a = b.
Proof. by intros [= ->]. Qed.

Lemma from_slice_ok w j : from_slice w = Ok j → w = to_vec j.
Proof. destruct w as [|[] [|]]; cbn; try discriminate. by intros [= ->]. Qed.

Section Mirrors.
Context {O : Type}.
Variable pkey : O → Identifier → Key.
Variable ikey : O → Json → Identifier → Key.
Hypothesis pkey_inj : ∀ o n o' n', pkey o n = pkey o' n' → o = o' ∧ n = n'.
Hypothesis ikey_inj : ∀ o v n o' v' n', ikey o v n = ikey o' v' n' → o = o' ∧ n = n'.

Lemma mirrors_set P I o n x old :
  index_mirrors pkey ikey P I → P !! pkey o n = to_vec <$> old →
  index_mirrors pkey ikey (<[pkey o n := to_vec x]> P)
    (<[ikey o x n := to_vec x]> (match old with Some v0 => delete (ikey o v0 n) I | None => I end)).
Proof.
  intros H Hold k w. rewrite lookup_insert_Some. split.
  - intros [[<- <-]|[Hne Hk]].
    + exists o, n, x. split_and!; [done|done|apply lookup_insert_eq].
    + assert (Hk' : I !! k = Some w ∧ ∀ v0, old = Some v0 → k ≠ ikey o v0 n).
      { destruct old as [v0|]; [apply lookup_delete_Some in Hk as [? ?]|];
          split; try done; intros ? [= <-]; done. }
      destruct Hk' as [Hk' Hnot]. apply H in Hk' as (o' & n' & v' & -> & -> & Hp).
      exists o', n', v'. split_and!; [done|done|].
      rewrite lookup_insert_ne; [done|]. intros Heq. apply pkey_inj in Heq as [<- <-].
      rewrite Hold in Hp. destruct old as [v0|]; [|discriminate].
      apply some_to_vec_inj in Hp. subst. eapply Hnot; reflexivity.
  - intros (o' & n' & v' & -> & -> & Hp).
    destruct (decide (pkey o n = pkey o' n')) as [Heq|Hne].
    + pose proof Heq as Heq'. apply pkey_inj in Heq' as [<- <-].
      rewrite lookup_insert_eq in Hp. apply some_to_vec_inj in Hp. subst. by left.
    + rewrite lookup_insert_ne in Hp by done. right. split.
      * intros Hk. apply ikey_inj in Hk as (-> & ->). done.
      * assert (HI : I !! ikey o' v' n' = Some (to_vec v')) by (apply H; eauto 10).
        destruct old as [v0|]; [|done]. rewrite lookup_delete_ne; [done|].
        intros Hk. apply ikey_inj in Hk as (-> & ->). done.
Qed.

Lemma mirrors_delete P I o n v0 :
  index_mirrors pkey ikey P I → P !! pkey o n = Some (to_vec v0) →
  index_mirrors pkey ikey (delete (pkey o n) P) (delete (ikey o v0 n) I).
Proof.
  intros H Hold k w. rewrite lookup_delete_Some. split.
  - intros [Hne Hk]. apply H in Hk as (o' & n' & v' & -> & -> & Hp).
    exists o', n', v'. split_and!; [done|done|].
    rewrite lookup_delete_ne; [done|]. intros Heq. pose proof Heq as Heq'.
    apply pkey_inj in Heq' as [<- <-]. rewrite Hold in Hp. apply some_to_vec_inj in Hp.
    subst. done.
  - intros (o' & n' & v' & -> & -> & Hp). apply lookup_delete_Some in Hp as [Hne Hp].
    split; [|apply H; eauto 10].
    intros Hk. apply ikey_inj in Hk as (-> & ->). done.
Qed.

Lemma mirrors_delete_unindexed P I o n :
  index_mirrors pkey ikey P I → (∀ v, P !! pkey o n ≠ Some (to_vec v)) →
  index_mirrors pkey ikey (delete (pkey o n) P) I.
Proof.
  intros H Hold k w. specialize (H k w). rewrite H. split.
  - intros (o' & n' & v' & -> & -> & Hp). exists o', n', v'. split_and!; [done|done|].
    rewrite lookup_delete_ne; [done|]. intros Heq. pose proof Heq as Heq'.
    apply pkey_inj in Heq' as [<- <-]. by apply (Hold v').
  - intros (o' & n' & v' & -> & -> & Hp). apply lookup_delete_Some in Hp as [_ Hp]. eauto 10.
Qed.

End Mirrors.

Lemma vpm_key_inj o n o' n' :
  VertexPropertyManager.key o n = VertexPropertyManager.key o' n' → o = o' ∧ n = n'.
Proof. by intros [= -> ->]. Qed.
Lemma vpm_ikey_inj o v n o' v' n' :
  VertexPropertyManager.key_value_index o v n = VertexPropertyManager.key_value_index o' v' n' →
  o = o' ∧ n = n'.
Proof. by intros [= -> _ ->]. Qed.
Lemma epm_key_inj e n e' n' :
  EdgePropertyManager.key e n = EdgePropertyManager.key e' n' → e = e' ∧ n = n'.
Proof. destruct e, e'. by intros [= -> -> -> ->]. Qed.
Lemma epm_ikey_inj e v n e' v' n' :
  EdgePropertyManager.key_value_index e v n = EdgePropertyManager.key_value_index e' v' n' →
  e = e' ∧ n = n'.
Proof. destruct e, e'. by intros [= -> _ -> -> ->]. Qed.

Global Instance preserves_preorder P : PreOrder (preserves P).
Proof. split; [intros s H; exact H|]. intros s1 s2 s3 H12 H23 H. by apply H23, H12. Qed.

Lemma vpm_set_vpic o n x : stays (preserves vp_index_consistent) (VertexPropertyManager.set o n x).
Proof.
  intros s H. unfold VertexPropertyManager.set. run.
  case_bool_decide; run; [exact H|].
  destruct (vertex_properties s !! VertexPropertyManager.key o n) as [old|] eqn:E; run.
  - destruct (from_slice old) as [v0|] eqn:Ed; run; [|exact H].
    apply from_slice_ok in Ed as ->. unfold vp_index_consistent. autorewrite with run_db.
    apply (mirrors_set _ _ vpm_key_inj vpm_ikey_inj _ _ _ _ _ (Some v0)); [exact H|by rewrite E].
  - unfold vp_index_consistent. autorewrite with run_db.
    apply (mirrors_set _ _ vpm_key_inj vpm_ikey_inj _ _ _ _ _ None); [exact H|by rewrite E].
Qed.

Lemma vpm_delete_vpic o n : stays (preserves vp_index_consistent) (VertexPropertyManager.delete o n).
Proof.
  intros s H. unfold VertexPropertyManager.delete. run.
  case_bool_decide; run; [exact H|].
  destruct (vertex_properties s !! VertexPropertyManager.key o n) as [old|] eqn:E; run.
  - destruct (from_slice old) as [v0|] eqn:Ed; run.
    + apply from_slice_ok in Ed as ->. unfold vp_index_consistent. autorewrite with run_db.
      by apply mirrors_delete; [exact vpm_key_inj|exact vpm_ikey_inj|exact H|].
    + unfold vp_index_consistent. autorewrite with run_db.
      apply mirrors_delete_unindexed; [exact vpm_key_inj|exact H|].
      intros v Hv. rewrite E in Hv. injection Hv as ->. by rewrite from_slice_to_vec in Ed.
  - unfold vp_index_consistent. autorewrite with run_db.
    apply mirrors_delete_unindexed; [exact vpm_key_inj|exact H|]. by rewrite E.
Qed.

Lemma epm_set_epic e n x : stays (preserves ep_index_consistent) (EdgePropertyManager.set e n x).
Proof.
  intros s H. unfold EdgePropertyManager.set. run.
  case_bool_decide; run; [exact H|].
  destruct (edge_properties s !! EdgePropertyManager.key e n) as [old|] eqn:E; run.
  - destruct (from_slice old) as [v0|] eqn:Ed; run; [|exact H].
    apply from_slice_ok in Ed as ->. unfold ep_index_consistent. autorewrite with run_db.
    apply (mirrors_set _ _ epm_key_inj epm_ikey_inj _ _ _ _ _ (Some v0)); [exact H|by rewrite E].
  - unfold ep_index_consistent. autorewrite with run_db.
    apply (mirrors_set _ _ epm_key_inj epm_ikey_inj _ _ _ _ _ None); [exact H|by rewrite E].
Qed.

Lemma epm_delete_epic e n : stays (preserves ep_index_consistent) (EdgePropertyManager.delete e n).
Proof.
  intros s H. unfold EdgePropertyManager.delete. run.
  case_bool_decide; run; [exact H|].
  destruct (edge_properties s !! EdgePropertyManager.key e n) as [old|] eqn:E; run.
  - destruct (from_slice old) as [v0|] eqn:Ed; run.
    + apply from_slice_ok in Ed as ->. unfold ep_index_consistent. autorewrite with run_db.
      by apply mirrors_delete; [exact epm_key_inj|exact epm_ikey_inj|exact H|].
    + unfold ep_index_consistent. autorewrite with run_db.
      apply mirrors_delete_unindexed; [exact epm_key_inj|exact H|].
      intros v Hv. rewrite E in Hv. injection Hv as ->. by rewrite from_slice_to_vec in Ed.
  - unfold ep_index_consistent. autorewrite with run_db.
    apply mirrors_delete_unindexed; [exact epm_key_inj|exact H|]. by rewrite E.
Qed.

Lemma preserves_of_untouched (P : Store → Prop) tns {A} (m : M A) :
  (∀ s s', untouched tns s s' → P s → P s') →
  stays (untouched tns) m → stays (preserves P) m.
Proof. intros HP Hm s. unfold preserves. apply HP, Hm. Qed.

Lemma vpic_untouched s s' : untouched vp_trees s s' → vp_index_consistent s → vp_index_consistent s'.
Proof.
  intros Hu. unfold vp_index_consistent.
  rewrite (Hu TVertexProperties), (Hu TVertexPropertyValues) by (unfold vp_trees; set_solver).
  done.
Qed.

Lemma epic_untouched s s' : untouched ep_trees s s' → ep_index_consistent s → ep_index_consistent s'.
Proof.
  intros Hu. unfold ep_index_consistent.
  rewrite (Hu TEdgeProperties), (Hu TEdgePropertyValues) by (unfold ep_trees; set_solver).
  done.
Qed.

Lemma vpic_insert tn k v : tn ∉ vp_trees → stays (preserves vp_index_consistent) (tree_insert tn k v).
Proof. intros. eapply preserves_of_untouched; [apply vpic_untouched|by apply untouched_insert]. Qed.
Lemma vpic_remove tn k : tn ∉ vp_trees → stays (preserves vp_index_consistent) (tree_remove tn k).
Proof. intros. eapply preserves_of_untouched; [apply vpic_untouched|by apply untouched_remove]. Qed.
Lemma vpic_apply_batch tn b : tn ∉ vp_trees → stays (preserves vp_index_consistent) (tree_apply_batch tn b).
Proof. intros. eapply preserves_of_untouched; [apply vpic_untouched|by apply untouched_apply_batch]. Qed.
Lemma vpic_write_indexed ip : stays (preserves vp_index_consistent) (MetaDataManager.write_indexed ip).
Proof. eapply preserves_of_untouched; [apply vpic_untouched|apply untouched_write_indexed]. Qed.
Lemma epic_insert tn k v : tn ∉ ep_trees → stays (preserves ep_index_consistent) (tree_insert tn k v).
Proof. intros. eapply preserves_of_untouched; [apply epic_untouched|by apply untouched_insert]. Qed.
Lemma epic_remove tn k : tn ∉ ep_trees → stays (preserves ep_index_consistent) (tree_remove tn k).
Proof. intros. eapply preserves_of_untouched; [apply epic_untouched|by apply untouched_remove]. Qed.
Lemma epic_apply_batch tn b : tn ∉ ep_trees → stays (preserves ep_index_consistent) (tree_apply_batch tn b).
Proof. intros. eapply preserves_of_untouched; [apply epic_untouched|by apply untouched_apply_batch]. Qed.
Lemma epic_write_indexed ip : stays (preserves ep_index_consistent) (MetaDataManager.write_indexed ip).
Proof. eapply preserves_of_untouched; [apply epic_untouched|apply untouched_write_indexed]. Qed.

#[local] Hint Resolve vpm_set_vpic vpm_delete_vpic epm_set_epic epm_delete_epic
  vpic_insert vpic_remove vpic_apply_batch vpic_write_indexed
  epic_insert epic_remove epic_apply_batch epic_write_indexed : stays_db.
#[local] Hint Extern 1 (_ ∉ vp_trees) => unfold vp_trees; set_solver : stays_db.
#[local] Hint Extern 1 (_ ∉ ep_trees) => unfold ep_trees; set_solver : stays_db.

Lemma vpic_run_op op : stays (preserves vp_index_consistent) (run_op op).
Proof.
  destruct op; cbn [run_op].
  - unfold SledTransaction.create_vertex, VertexManager.create. stays_split.
  - unfold SledTransaction.create_edge, VertexManager.exists_, EdgeManager.set,
      EdgeRangeManager.set. stays_split.
  - unfold SledTransaction.delete_vertices, VertexManager.delete,
      VertexPropertyManager.iterate_for_owner,
      EdgeRangeManager.iterate_for_owner, EdgeManager.delete, EdgeRangeManager.delete,
      EdgePropertyManager.iterate_for_owner, EdgePropertyManager.delete. stays_split.
  - unfold SledTransaction.delete_edges, VertexManager.get, EdgeManager.delete,
      EdgeRangeManager.delete, EdgePropertyManager.iterate_for_owner,
      EdgePropertyManager.delete. stays_split.
  - unfold SledTransaction.delete_vertex_properties. stays_split.
  - unfold SledTransaction.delete_edge_properties, EdgePropertyManager.delete. stays_split.
  - unfold SledTransaction.set_vertex_properties. stays_split.
  - unfold SledTransaction.set_edge_properties, EdgePropertyManager.set. stays_split.
  - unfold SledTransaction.index_property, MetaDataManager.add_index, MetaDataManager.sync.
    stays_split.
  - unfold SledTransaction.bulk_insert. rewrite bulk_fold. cbv beta iota.
    unfold batch_apply_all, SledTransaction.sync, MetaDataManager.sync, EdgePropertyManager.set.
    stays_split.
  - unfold SledTransaction.sync, MetaDataManager.sync. stays_split.
Qed.

Lemma epic_run_op op : stays (preserves ep_index_consistent) (run_op op).
Proof.
  destruct op; cbn [run_op].
  - unfold SledTransaction.create_vertex, VertexManager.create. stays_split.
  - unfold SledTransaction.create_edge, VertexManager.exists_, EdgeManager.set,
      EdgeRangeManager.set. stays_split.
  - unfold SledTransaction.delete_vertices, VertexManager.delete,
      VertexPropertyManager.iterate_for_owner, VertexPropertyManager.delete,
      EdgeRangeManager.iterate_for_owner, EdgeManager.delete, EdgeRangeManager.delete,
      EdgePropertyManager.iterate_for_owner. stays_split.
  - unfold SledTransaction.delete_edges, VertexManager.get, EdgeManager.delete,
      EdgeRangeManager.delete, EdgePropertyManager.iterate_for_owner. stays_split.
  - unfold SledTransaction.delete_vertex_properties, VertexPropertyManager.delete. stays_split.
  - unfold SledTransaction.delete_edge_properties. stays_split.
  - unfold SledTransaction.set_vertex_properties, VertexPropertyManager.set. stays_split.
  - unfold SledTransaction.set_edge_properties. stays_split.
  - unfold SledTransaction.index_property, MetaDataManager.add_index, MetaDataManager.sync.
    stays_split.
  - unfold SledTransaction.bulk_insert. rewrite bulk_fold. cbv beta iota.
    unfold batch_apply_all, SledTransaction.sync, MetaDataManager.sync, VertexPropertyManager.set.
    stays_split.
  - unfold SledTransaction.sync, MetaDataManager.sync. stays_split.
Qed.

Lemma vertex_rows_untouched s s' : untouched [TVertices] s s' → vertex_rows s → vertex_rows s'.
Proof. intros Hu. unfold vertex_rows. rewrite (Hu TVertices) by set_solver. done. Qed.

Lemma vrows_insert tn k v : tn ≠ TVertices → stays (preserves vertex_rows) (tree_insert tn k v).
Proof.
  intros. eapply preserves_of_untouched; [apply vertex_rows_untouched|].
  apply untouched_insert. set_solver.
Qed.
Lemma vrows_remove tn k : stays (preserves vertex_rows) (tree_remove tn k).
Proof.
  intros s H k' w. cbv [tree_remove out_st]. rewrite tree_of_set_tree.
  case_decide; [subst; rewrite lookup_delete_Some; intros [_ Hk]; by apply H|apply H].
Qed.
Lemma vrows_apply_batch tn b : tn ≠ TVertices → stays (preserves vertex_rows) (tree_apply_batch tn b).
Proof.
  intros. eapply preserves_of_untouched; [apply vertex_rows_untouched|].
  apply untouched_apply_batch. set_solver.
Qed.
Lemma vrows_write_indexed ip : stays (preserves vertex_rows) (MetaDataManager.write_indexed ip).
Proof. eapply preserves_of_untouched; [apply vertex_rows_untouched|apply untouched_write_indexed]. Qed.
Lemma vrows_insert_row vid label :
  stays (preserves vertex_rows) (tree_insert TVertices (VertexManager.key vid) [CIdentifier label]).
Proof.
  intros s H k w. cbv [tree_insert out_st]. autorewrite with run_db.
  rewrite lookup_insert_Some. intros [[<- <-]|[_ Hk]]; [by eauto|by apply H].
Qed.

#[local] Hint Resolve vrows_insert vrows_remove vrows_apply_batch vrows_write_indexed
  vrows_insert_row : stays_db.

Lemma vrows_run_op op : stays (preserves vertex_rows) (run_op op).
Proof.
  destruct op; cbn [run_op].
  - unfold SledTransaction.create_vertex, VertexManager.create. stays_split.
  - unfold SledTransaction.create_edge, VertexManager.exists_, EdgeManager.set,
      EdgeRangeManager.set. stays_split.
  - unfold SledTransaction.delete_vertices, VertexManager.delete,
      VertexPropertyManager.iterate_for_owner, VertexPropertyManager.delete,
      EdgeRangeManager.iterate_for_owner, EdgeManager.delete, EdgeRangeManager.delete,
      EdgePropertyManager.iterate_for_owner, EdgePropertyManager.delete. stays_split.
  - unfold SledTransaction.delete_edges, VertexManager.get, EdgeManager.delete,
      EdgeRangeManager.delete, EdgePropertyManager.iterate_for_owner,
      EdgePropertyManager.delete. stays_split.
  - unfold SledTransaction.delete_vertex_properties, VertexPropertyManager.delete. stays_split.
  - unfold SledTransaction.delete_edge_properties, EdgePropertyManager.delete. stays_split.
  - unfold SledTransaction.set_vertex_properties, VertexPropertyManager.set. stays_split.
  - unfold SledTransaction.set_edge_properties, EdgePropertyManager.set. stays_split.
  - unfold SledTransaction.index_property, MetaDataManager.add_index, MetaDataManager.sync.
    stays_split.
  - unfold SledTransaction.bulk_insert. rewrite bulk_fold. cbv beta iota.
    apply stays_bind; [typeclasses eauto| |intros _].
    + unfold batch_apply_all. cbn [vertex_creation_batch batch_default]. rewrite app_nil_l.
      apply stays_bind; [typeclasses eauto| |intros _]; [|stays_split].
      intros s H k w. cbv [tree_apply_batch out_st]. autorewrite with run_db.
      intros Hk. apply batch_apply_lookup in Hk as [Hk|Hk]; [by apply H|].
      apply list_elem_of_In, in_map_iff in Hk as (v & [= <- <-] & _). eauto.
    + unfold SledTransaction.sync, MetaDataManager.sync, VertexPropertyManager.set,
        EdgePropertyManager.set. stays_split.
  - unfold SledTransaction.sync, MetaDataManager.sync. stays_split.
Qed.

(** The invariants of reachable stores used below. *)
Lemma reachable_invariants s :
  reachable s →
  well_formed s ∧ edge_consistent s ∧ vp_index_consistent s ∧ ep_index_consistent s ∧
  vertex_rows s.
Proof.
  intros Hr. destruct (reachable_well_formed s Hr) as [Hw Hc]. split_and!; [done|done|..];
  clear Hw Hc; induction Hr as [|s op _ IH].
  - intros k w. cbn. rewrite lookup_empty. split; [discriminate|]. intros (? & ? & ? & _ & _ & H).
    by rewrite lookup_empty in H.
  - exact (vpic_run_op op s IH).
  - intros k w. cbn. rewrite lookup_empty. split; [discriminate|]. intros (? & ? & ? & _ & _ & H).
    by rewrite lookup_empty in H.
  - exact (epic_run_op op s IH).
  - intros k w. cbn. rewrite lookup_empty. discriminate.
  - exact (vrows_run_op op s IH).
Qed.

(** The two value indexes mirror the primary property trees on every store
    the transaction operations can reach: the value index has an entry at
    key [(name, hash value, owner)] holding the serialized [value] exactly
    when the owner's property [name] is stored with [value].  (An owner has
    one value per name, so two values with one hash never meet on a key.) *)
Theorem value_indexes_mirror (s : Store) :
  reachable s → vp_index_consistent s ∧ ep_index_consistent s.
Proof. intros Hr. destruct (reachable_invariants s Hr) as (_ & _ & ? & ? & _). done. Qed.

Lemma vpm_get_nofault vid name s :
  faults s = ∅ →
  VertexPropertyManager.get vid name s =
  mkOut (match vertex_properties s !! VertexPropertyManager.key vid name with
         | Some w => map_result Some (from_slice w) | None => Ok None end) s
        [EvGet TVertexProperties (VertexPropertyManager.key vid name)].
Proof.
  intros Hf. unfold VertexPropertyManager.get. run. rewrite Hf.
  rewrite bool_decide_false by apply not_elem_of_empty. run.
  destruct (vertex_properties s !! _) as [w|]; run; [|done].
  destruct (from_slice w); run; done.
Qed.

Lemma epm_get_nofault e name s :
  faults s = ∅ →
  EdgePropertyManager.get e name s =
  mkOut (match edge_properties s !! EdgePropertyManager.key e name with
         | Some w => map_result Some (from_slice w) | None => Ok None end) s
        [EvGet TEdgeProperties (EdgePropertyManager.key e name)].
Proof.
  intros Hf. unfold EdgePropertyManager.get. run. rewrite Hf.
  rewrite bool_decide_false by apply not_elem_of_empty. run.
  destruct (edge_properties s !! _) as [w|]; run; [|done].
  destruct (from_slice w); run; done.
Qed.

Lemma get_result_some (r : option Val) x :
  match r with Some w => map_result Some (from_slice w) | None => Ok None end = Ok (Some x) ↔
  r = Some (to_vec x).
Proof.
  split.
  - destruct r as [w|]; [|discriminate]. destruct (from_slice w) eqn:E; cbn; [|discriminate].
    intros [= ->]. by rewrite (from_slice_ok _ _ E).
  - intros ->. done.
Qed.

Lemma vp_index_scan s p r :
  vp_index_consistent s →
  r ∈ VertexPropertyManager.value_iterate_uuids
        (filter (λ kv, starts_with p kv.1 = true) (map_to_list (vertex_property_values s))) ↔
  ∃ o n v, r = Ok o ∧ starts_with p (VertexPropertyManager.key_value_index o v n) = true ∧
           vertex_properties s !! VertexPropertyManager.key o n = Some (to_vec v).
Proof.
  intros H. unfold VertexPropertyManager.value_iterate_uuids. rewrite list_elem_of_In, in_map_iff.
  split.
  - intros (kv & <- & Hkv). apply list_elem_of_In, in_scan in Hkv as [Hkv Hp].
    apply H in Hkv as (o & n & v & Hk & _ & Hv). rewrite Hk in Hp |- *.
    exists o, n, v. done.
  - intros (o & n & v & -> & Hp & Hv).
    exists (VertexPropertyManager.key_value_index o v n, to_vec v). split; [done|].
    apply list_elem_of_In, list_elem_of_filter. split; [done|].
    apply elem_of_map_to_list, H. eauto 10.
Qed.

Lemma ep_index_scan s p r :
  ep_index_consistent s →
  r ∈ EdgePropertyManager.value_iterate_edges
        (filter (λ kv, starts_with p kv.1 = true) (map_to_list (edge_property_values s))) ↔
  ∃ e n v, r = Ok e ∧ starts_with p (EdgePropertyManager.key_value_index e v n) = true ∧
           edge_properties s !! EdgePropertyManager.key e n = Some (to_vec v).
Proof.
  intros H. unfold EdgePropertyManager.value_iterate_edges. rewrite list_elem_of_In, in_map_iff.
  split.
  - intros (kv & <- & Hkv). apply list_elem_of_In, in_scan in Hkv as [Hkv Hp].
    apply H in Hkv as (e & n & v & Hk & _ & Hv). rewrite Hk in Hp |- *.
    exists e, n, v. destruct e. done.
  - intros (e & n & v & -> & Hp & Hv).
    exists (EdgePropertyManager.key_value_index e v n, to_vec v). split; [by destruct e|].
    apply list_elem_of_In, list_elem_of_filter. split; [done|].
    apply elem_of_map_to_list, H. eauto 10.
Qed.

Lemma starts_with_name_value name h n h' rest :
  starts_with [CIdentifier name; CJsonHash h] (CIdentifier n :: CJsonHash h' :: rest) = true ↔
  n = name ∧ h' = h.
Proof.
  cbn. rewrite andb_true_r. rewrite andb_true_iff, !bool_decide_eq_true.
  split; [intros [[= ->] [= ->]]|intros [-> ->]]; done.
Qed.

Lemma starts_with_name name n rest :
  starts_with [CIdentifier name] (CIdentifier n :: rest) = true ↔ n = name.
Proof.
  cbn. rewrite andb_true_r, bool_decide_eq_true. split; [intros [= ->]|intros ->]; done.
Qed.

(** On a reachable store where [name] is indexed,
    [vertex_ids_with_property_value name value] returns [Some] list of [Ok]
    items, and the id of a vertex is in it exactly when the vertex's
    property [name] reads back as a value with the same [u64] hash as
    [value]: every vertex holding [value] is reported, and so is one holding
    another value of that hash. *)
Theorem vertex_value_query_exact (name : Identifier) (value : Json) (s : Store) :
  reachable s → name ∈ indexed_properties s →
  ∃ items,
    out_res (SledTransaction.vertex_ids_with_property_value name value s) = Ok (Some items) ∧
    (∀ r, r ∈ items → ∃ vid, r = Ok vid) ∧
    ∀ v : Vertex, Ok (id v) ∈ items ↔
      ∃ y, out_res (SledTransaction.vertex_property v name s) = Ok (Some y) ∧
           json_hash y = json_hash value.
Proof.
  intros Hr Hn. destruct (reachable_invariants s Hr) as ([Hf _] & _ & Hvp & _ & _).
  unfold SledTransaction.vertex_ids_with_property_value, MetaDataManager.is_indexed,
    VertexPropertyManager.iterate_for_property_name_and_value.
  run. rewrite bool_decide_true by done. run.
  eexists. split; [reflexivity|]. split.
  - intros r Hrin. apply (vp_index_scan s _ r Hvp) in Hrin as (o & _ & _ & -> & _). eauto.
  - intros v. rewrite (vp_index_scan s _ _ Hvp).
    unfold SledTransaction.vertex_property. rewrite vpm_get_nofault by done.
    cbv [out_res]. setoid_rewrite get_result_some. split.
    + intros (o & n & x & [= <-] & Hp & Hx).
      apply starts_with_name_value in Hp as [-> Hh]. eauto.
    + intros (y & Hx & Hh). exists (id v), name, y. split_and!; [done| |done].
      by apply starts_with_name_value.
Qed.

(** On a reachable store where [name] is indexed,
    [vertex_ids_with_property name] returns [Some] list of [Ok] items, and
    the id of a vertex is in it exactly when the vertex has some value for
    property [name]. *)
Theorem vertex_name_query_exact (name : Identifier) (s : Store) :
  reachable s → name ∈ indexed_properties s →
  ∃ items,
    out_res (SledTransaction.vertex_ids_with_property name s) = Ok (Some items) ∧
    (∀ r, r ∈ items → ∃ vid, r = Ok vid) ∧
    ∀ v : Vertex, Ok (id v) ∈ items ↔
      ∃ value, out_res (SledTransaction.vertex_property v name s) = Ok (Some value).
Proof.
  intros Hr Hn. destruct (reachable_invariants s Hr) as ([Hf _] & _ & Hvp & _ & _).
  unfold SledTransaction.vertex_ids_with_property, MetaDataManager.is_indexed,
    VertexPropertyManager.iterate_for_property_name.
  run. rewrite bool_decide_true by done. run.
  eexists. split; [reflexivity|]. split.
  - intros r Hrin. apply (vp_index_scan s _ r Hvp) in Hrin as (o & _ & _ & -> & _). eauto.
  - intros v. rewrite (vp_index_scan s _ _ Hvp).
    unfold SledTransaction.vertex_property. rewrite vpm_get_nofault by done.
    cbv [out_res]. setoid_rewrite get_result_some. split.
    + intros (o & n & x & [= <-] & Hp & Hx).
      apply starts_with_name in Hp as ->. eauto.
    + intros (x & Hx). exists (id v), name, x. split_and!; [done| |done].
      by apply starts_with_name.
Qed.

(** On a reachable store where [name] is indexed,
    [edges_with_property_value name value] returns [Some] list of [Ok]
    items, and an edge is in it exactly when its property [name] reads back
    as a value with the same [u64] hash as [value]: every edge holding
    [value] is reported, and so is one holding another value of that
    hash. *)
Theorem edge_value_query_exact (name : Identifier) (value : Json) (s : Store) :
  reachable s → name ∈ indexed_properties s →
  ∃ items,
    out_res (SledTransaction.edges_with_property_value name value s) = Ok (Some items) ∧
    (∀ r, r ∈ items → ∃ e, r = Ok e) ∧
    ∀ e : Edge, Ok e ∈ items ↔
      ∃ y, out_res (SledTransaction.edge_property e name s) = Ok (Some y) ∧
           json_hash y = json_hash value.
Proof.
  intros Hr Hn. destruct (reachable_invariants s Hr) as ([Hf _] & _ & _ & Hep & _).
  unfold SledTransaction.edges_with_property_value, MetaDataManager.is_indexed,
    EdgePropertyManager.iterate_for_property_name_and_value.
  run. rewrite bool_decide_true by done. run.
  eexists. split; [reflexivity|]. split.
  - intros r Hrin. apply (ep_index_scan s _ r Hep) in Hrin as (e & _ & _ & -> & _). eauto.
  - intros e. rewrite (ep_index_scan s _ _ Hep).
    unfold SledTransaction.edge_property. rewrite epm_get_nofault by done.
    cbv [out_res]. setoid_rewrite get_result_some. split.
    + intros (e' & n & x & [= <-] & Hp & Hx).
      apply starts_with_name_value in Hp as [-> Hh]. eauto.
    + intros (y & Hx & Hh). exists e, name, y. split_and!; [done| |done].
      by apply starts_with_name_value.
Qed.

(** On a reachable store where [name] is indexed,
    [edges_with_property name] returns [Some] list of [Ok] items, and an edge
    is in it exactly when it has some value for property [name]. *)
Theorem edge_name_query_exact (name : Identifier) (s : Store) :
  reachable s → name ∈ indexed_properties s →
  ∃ items,
    out_res (SledTransaction.edges_with_property name s) = Ok (Some items) ∧
    (∀ r, r ∈ items → ∃ e, r = Ok e) ∧
    ∀ e : Edge, Ok e ∈ items ↔
      ∃ value, out_res (SledTransaction.edge_property e name s) = Ok (Some value).
Proof.
  intros Hr Hn. destruct (reachable_invariants s Hr) as ([Hf _] & _ & _ & Hep & _).
  unfold SledTransaction.edges_with_property, MetaDataManager.is_indexed,
    EdgePropertyManager.iterate_for_property_name.
  run. rewrite bool_decide_true by done. run.
  eexists. split; [reflexivity|]. split.
  - intros r Hrin. apply (ep_index_scan s _ r Hep) in Hrin as (e & _ & _ & -> & _). eauto.
  - intros e. rewrite (ep_index_scan s _ _ Hep).
    unfold SledTransaction.edge_property. rewrite epm_get_nofault by done.
    cbv [out_res]. setoid_rewrite get_result_some. split.
    + intros (e' & n & x & [= <-] & Hp & Hx).
      apply starts_with_name in Hp as ->. eauto.
    + intros (x & Hx). exists e, name, x. split_and!; [done| |done].
      by apply starts_with_name.
Qed.

Lemma vpm_set_wf o n x s :
  well_formed s →
  out_res (VertexPropertyManager.set o n x s) = Ok () ∧
  vertex_properties (out_st (VertexPropertyManager.set o n x s)) =
    <[VertexPropertyManager.key o n := to_vec x]> (vertex_properties s).
Proof.
  intros [Hf Hs]. unfold VertexPropertyManager.set. run. rewrite Hf.
  rewrite bool_decide_false by apply not_elem_of_empty. run.
  destruct (vertex_properties s !! VertexPropertyManager.key o n) as [w|] eqn:E; run.
  - destruct (Hs _ _ _ E) as [_ [j ->]]. run. done.
  - done.
Qed.

Lemma epm_set_wf e n x s :
  well_formed s →
  out_res (EdgePropertyManager.set e n x s) = Ok () ∧
  edge_properties (out_st (EdgePropertyManager.set e n x s)) =
    <[EdgePropertyManager.key e n := to_vec x]> (edge_properties s).
Proof.
  intros [Hf Hs]. unfold EdgePropertyManager.set. run. rewrite Hf.
  rewrite bool_decide_false by apply not_elem_of_empty. run.
  destruct (edge_properties s !! EdgePropertyManager.key e n) as [w|] eqn:E; run.
  - destruct (Hs _ _ _ E) as [_ [j ->]]. run. done.
  - done.
Qed.

Lemma vpm_delete_wf o n s :
  well_formed s →
  out_res (VertexPropertyManager.delete o n s) = Ok () ∧
  vertex_properties (out_st (VertexPropertyManager.delete o n s)) =
    delete (VertexPropertyManager.key o n) (vertex_properties s).
Proof.
  intros [Hf Hs]. unfold VertexPropertyManager.delete. run. rewrite Hf.
  rewrite bool_decide_false by apply not_elem_of_empty. run.
  destruct (vertex_properties s !! VertexPropertyManager.key o n) as [w|] eqn:E; run.
  - destruct (Hs _ _ _ E) as [_ [j ->]]. run. done.
  - done.
Qed.

Lemma epm_delete_wf e n s :
  well_formed s →
  out_res (EdgePropertyManager.delete e n s) = Ok () ∧
  edge_properties (out_st (EdgePropertyManager.delete e n s)) =
    delete (EdgePropertyManager.key e n) (edge_properties s).
Proof.
  intros [Hf Hs]. unfold EdgePropertyManager.delete. run. rewrite Hf.
  rewrite bool_decide_false by apply not_elem_of_empty. run.
  destruct (edge_properties s !! EdgePropertyManager.key e n) as [w|] eqn:E; run.
  - destruct (Hs _ _ _ E) as [_ [j ->]]. run. done.
  - done.
Qed.

Lemma prop_ops_frame :
  (∀ o n x, stays keeps_well_formed (VertexPropertyManager.set o n x)) ∧
  (∀ o n, stays keeps_well_formed (VertexPropertyManager.delete o n)) ∧
  (∀ e n x, stays keeps_well_formed (EdgePropertyManager.set e n x)) ∧
  (∀ e n, stays keeps_well_formed (EdgePropertyManager.delete e n)) ∧
  (∀ o n x, stays (untouched graph_trees) (VertexPropertyManager.set o n x)) ∧
  (∀ o n, stays (untouched graph_trees) (VertexPropertyManager.delete o n)) ∧
  (∀ e n x, stays (untouched graph_trees) (EdgePropertyManager.set e n x)) ∧
  (∀ e n, stays (untouched graph_trees) (EdgePropertyManager.delete e n)).
Proof.
  unfold VertexPropertyManager.set, VertexPropertyManager.delete,
    EdgePropertyManager.set, EdgePropertyManager.delete, graph_trees.
  split_and!; intros; stays_split.
Qed.

(** A loop of single-key updates of one tree on a well-formed store. *)
Lemma for_each_tree_update {A} (f : A → M unit) (tn : TreeName)
    (g : A → gmap Key Val → gmap Key Val) (l : list A) :
  (∀ a s, well_formed s → out_res (f a s) = Ok () ∧ tree_of (out_st (f a s)) tn = g a (tree_of s tn)) →
  (∀ a, stays keeps_well_formed (f a)) →
  (∀ a, stays (untouched graph_trees) (f a)) →
  ∀ s, well_formed s →
  out_res (for_each f l s) = Ok () ∧ untouched graph_trees s (out_st (for_each f l s)) ∧
  tree_of (out_st (for_each f l s)) tn = fold_left (λ m a, g a m) l (tree_of s tn).
Proof.
  intros Hf Hwf Hu. induction l as [|x l IH]; intros s Hs.
  - split_and!; [done|reflexivity|done].
  - cbn [for_each]. destruct (Hf x s Hs) as [Hok Ht].
    rewrite (bind_ok (f x) _ s () Hok). cbn [out_res out_st fold_left].
    destruct (IH _ (Hwf x s Hs)) as (Hok' & Hu' & Ht').
    split_and!; [done|etransitivity; [apply Hu|exact Hu']|]. rewrite Ht', Ht. done.
Qed.

Lemma fold_insert_lookup {A} (kf : A → Key) (w : Val) (l : list A) (m : gmap Key Val) k :
  fold_left (λ m a, <[kf a := w]> m) l m !! k =
  if bool_decide (k ∈ map kf l) then Some w else m !! k.
Proof.
  revert m. induction l as [|x l IH]; intros m; cbn [fold_left map].
  - rewrite bool_decide_false; [done|]. apply not_elem_of_nil.
  - rewrite IH. destruct (decide (k ∈ map kf l)) as [H1|H1].
    + rewrite !bool_decide_true by set_solver. done.
    + rewrite (bool_decide_false (k ∈ map kf l)) by done.
      destruct (decide (kf x = k)) as [<-|Hne].
      * rewrite bool_decide_true by set_solver. apply lookup_insert_eq.
      * rewrite bool_decide_false by set_solver. by rewrite lookup_insert_ne.
Qed.

Lemma fold_delete_lookup {A} (kf : A → Key) (l : list A) (m : gmap Key Val) k :
  fold_left (λ m a, delete (kf a) m) l m !! k =
  if bool_decide (k ∈ map kf l) then None else m !! k.
Proof.
  revert m. induction l as [|x l IH]; intros m; cbn [fold_left map].
  - rewrite bool_decide_false; [done|]. apply not_elem_of_nil.
  - rewrite IH. destruct (decide (k ∈ map kf l)) as [H1|H1].
    + rewrite !bool_decide_true by set_solver. done.
    + rewrite (bool_decide_false (k ∈ map kf l)) by done.
      destruct (decide (kf x = k)) as [<-|Hne].
      * rewrite bool_decide_true by set_solver. apply lookup_delete_eq.
      * rewrite bool_decide_false by set_solver. by rewrite lookup_delete_ne.
Qed.

Lemma in_map_key {A B} (kf : A → B) (l : list A) (k : B) :
  k ∈ map kf l ↔ ∃ a, a ∈ l ∧ kf a = k.
Proof.
  rewrite list_elem_of_In, in_map_iff. split; intros (a & ? & ?); exists a; rewrite ?list_elem_of_In in *; done.
Qed.

(** On a reachable store, [set_vertex_properties vs name value] returns
    [Ok], leaves the vertex and edge trees as they were (no existence check),
    and afterwards property [name] of every listed id reads [value] while
    every other property reads as before. *)
Theorem set_vertex_properties_effect (vs : list Uuid) (name : Identifier) (value : Json) (s : Store) :
  reachable s →
  let s' := out_st (SledTransaction.set_vertex_properties vs name value s) in
  out_res (SledTransaction.set_vertex_properties vs name value s) = Ok () ∧
  vertices s' = vertices s ∧ edges s' = edges s ∧
  ∀ (v : Vertex) (n : Identifier),
    out_res (SledTransaction.vertex_property v n s') =
      if bool_decide (id v ∈ vs ∧ n = name) then Ok (Some value)
      else out_res (SledTransaction.vertex_property v n s).
Proof.
  intros Hr s'. destruct (reachable_invariants s Hr) as (Hwf & _).
  destruct prop_ops_frame as (Hw1 & _ & _ & _ & Hu1 & _).
  unfold SledTransaction.set_vertex_properties in *.
  destruct (for_each_tree_update (λ v, VertexPropertyManager.set v name value) TVertexProperties
    (λ a m, <[VertexPropertyManager.key a name := to_vec value]> m) vs
    (λ a s0 H, vpm_set_wf a name value s0 H) (λ a, Hw1 a name value) (λ a, Hu1 a name value)
    s Hwf) as (Hok & Hu & Ht).
  pose proof (stays_for_each keeps_well_formed (λ v, VertexPropertyManager.set v name value) vs
    (λ a _, Hw1 a name value) s Hwf) as [Hf' _].
  destruct Hwf as [Hf _].
  split_and!; [done|apply Hu; unfold graph_trees; set_solver|apply Hu; unfold graph_trees; set_solver|].
  intros v n. unfold SledTransaction.vertex_property.
  rewrite !vpm_get_nofault by done. cbv [out_res]. subst s'. rewrite Ht.
  rewrite (fold_insert_lookup (λ a, VertexPropertyManager.key a name)).
  case_bool_decide as H1; case_bool_decide as H2; try done.
  - exfalso. apply H2. apply in_map_key in H1 as (a & Ha & Hk).
    simpl in Hk. apply vpm_key_inj in Hk as [-> ->]. done.
  - exfalso. apply H1. destruct H2 as [Hv ->]. apply in_map_key. eauto.
Qed.

(** On a reachable store, [set_edge_properties es name value] returns
    [Ok], leaves the vertex and edge trees as they were (no existence check),
    and afterwards property [name] of every listed edge reads [value] while
    every other property reads as before. *)
Theorem set_edge_properties_effect (es : list Edge) (name : Identifier) (value : Json) (s : Store) :
  reachable s →
  let s' := out_st (SledTransaction.set_edge_properties es name value s) in
  out_res (SledTransaction.set_edge_properties es name value s) = Ok () ∧
  vertices s' = vertices s ∧ edges s' = edges s ∧
  ∀ (e : Edge) (n : Identifier),
    out_res (SledTransaction.edge_property e n s') =
      if bool_decide (e ∈ es ∧ n = name) then Ok (Some value)
      else out_res (SledTransaction.edge_property e n s).
Proof.
  intros Hr s'. destruct (reachable_invariants s Hr) as (Hwf & _).
  destruct prop_ops_frame as (_ & _ & Hw3 & _ & _ & _ & Hu3 & _).
  unfold SledTransaction.set_edge_properties in *.
  destruct (for_each_tree_update (λ e, EdgePropertyManager.set e name value) TEdgeProperties
    (λ a m, <[EdgePropertyManager.key a name := to_vec value]> m) es
    (λ a s0 H, epm_set_wf a name value s0 H) (λ a, Hw3 a name value) (λ a, Hu3 a name value)
    s Hwf) as (Hok & Hu & Ht).
  pose proof (stays_for_each keeps_well_formed (λ e, EdgePropertyManager.set e name value) es
    (λ a _, Hw3 a name value) s Hwf) as [Hf' _].
  destruct Hwf as [Hf _].
  split_and!; [done|apply Hu; unfold graph_trees; set_solver|apply Hu; unfold graph_trees; set_solver|].
  intros e n. unfold SledTransaction.edge_property.
  rewrite !epm_get_nofault by done. cbv [out_res]. subst s'. rewrite Ht.
  rewrite (fold_insert_lookup (λ a, EdgePropertyManager.key a name)).
  case_bool_decide as H1; case_bool_decide as H2; try done.
  - exfalso. apply H2. apply in_map_key in H1 as (a & Ha & Hk).
    simpl in Hk. apply epm_key_inj in Hk as [-> ->]. done.
  - exfalso. apply H1. destruct H2 as [He ->]. apply in_map_key. eauto.
Qed.

(** On a reachable store, [delete_vertex_properties props] returns [Ok],
    leaves the vertex and edge trees as they were, and afterwards every
    listed (vertex, name) pair reads [None] while every other property reads
    as before. *)
Theorem delete_vertex_properties_effect (props : list (Uuid * Identifier)) (s : Store) :
  reachable s →
  let s' := out_st (SledTransaction.delete_vertex_properties props s) in
  out_res (SledTransaction.delete_vertex_properties props s) = Ok () ∧
  vertices s' = vertices s ∧ edges s' = edges s ∧
  ∀ (v : Vertex) (n : Identifier),
    out_res (SledTransaction.vertex_property v n s') =
      if bool_decide ((id v, n) ∈ props) then Ok None
      else out_res (SledTransaction.vertex_property v n s).
Proof.
  intros Hr s'. destruct (reachable_invariants s Hr) as (Hwf & _).
  destruct prop_ops_frame as (_ & Hw2 & _ & _ & _ & Hu2 & _).
  unfold SledTransaction.delete_vertex_properties in *.
  assert (Hw : ∀ a : Uuid * Identifier, stays keeps_well_formed
      (let '(vid, prop) := a in VertexPropertyManager.delete vid prop)) by (intros [? ?]; apply Hw2).
  edestruct (for_each_tree_update (λ '(vid, prop), VertexPropertyManager.delete vid prop)
    TVertexProperties (λ a m, delete (VertexPropertyManager.key a.1 a.2) m) props)
    as (Hok & Hu & Ht); [intros [vid prop] s0 H; apply vpm_delete_wf, H|exact Hw|
    intros [vid prop]; apply Hu2|exact Hwf|].
  pose proof (stays_for_each keeps_well_formed _ props (λ a _, Hw a) s Hwf) as [Hf' _].
  destruct Hwf as [Hf _].
  split_and!; [done|apply Hu; unfold graph_trees; set_solver|apply Hu; unfold graph_trees; set_solver|].
  intros v n. unfold SledTransaction.vertex_property.
  rewrite !vpm_get_nofault by done. cbv [out_res]. subst s'. rewrite Ht.
  rewrite (fold_delete_lookup (λ a, VertexPropertyManager.key a.1 a.2)).
  case_bool_decide as H1; case_bool_decide as H2; try done.
  - exfalso. apply H2. apply in_map_key in H1 as ([o n'] & Ha & Hk).
    simpl in Hk. apply vpm_key_inj in Hk as [-> ->]. done.
  - exfalso. apply H1. apply in_map_key. eauto.
Qed.

(** On a reachable store, [delete_edge_properties props] returns [Ok],
    leaves the vertex and edge trees as they were, and afterwards every
    listed (edge, name) pair reads [None] while every other property reads
    as before. *)
Theorem delete_edge_properties_effect (props : list (Edge * Identifier)) (s : Store) :
  reachable s →
  let s' := out_st (SledTransaction.delete_edge_properties props s) in
  out_res (SledTransaction.delete_edge_properties props s) = Ok () ∧
  vertices s' = vertices s ∧ edges s' = edges s ∧
  ∀ (e : Edge) (n : Identifier),
    out_res (SledTransaction.edge_property e n s') =
      if bool_decide ((e, n) ∈ props) then Ok None
      else out_res (SledTransaction.edge_property e n s).
Proof.
  intros Hr s'. destruct (reachable_invariants s Hr) as (Hwf & _).
  destruct prop_ops_frame as (_ & _ & _ & Hw4 & _ & _ & _ & Hu4).
  unfold SledTransaction.delete_edge_properties in *.
  assert (Hw : ∀ a : Edge * Identifier, stays keeps_well_formed
      (let '(edge, prop) := a in EdgePropertyManager.delete edge prop)) by (intros [? ?]; apply Hw4).
  edestruct (for_each_tree_update (λ '(edge, prop), EdgePropertyManager.delete edge prop)
    TEdgeProperties (λ a m, delete (EdgePropertyManager.key a.1 a.2) m) props)
    as (Hok & Hu & Ht); [intros [edge prop] s0 H; apply epm_delete_wf, H|exact Hw|
    intros [edge prop]; apply Hu4|exact Hwf|].
  pose proof (stays_for_each keeps_well_formed _ props (λ a _, Hw a) s Hwf) as [Hf' _].
  destruct Hwf as [Hf _].
  split_and!; [done|apply Hu; unfold graph_trees; set_solver|apply Hu; unfold graph_trees; set_solver|].
  intros e n. unfold SledTransaction.edge_property.
  rewrite !epm_get_nofault by done. cbv [out_res]. subst s'. rewrite Ht.
  rewrite (fold_delete_lookup (λ a, EdgePropertyManager.key a.1 a.2)).
  case_bool_decide as H1; case_bool_decide as H2; try done.
  - exfalso. apply H2. apply in_map_key in H1 as ([e' n'] & Ha & Hk).
    simpl in Hk. apply epm_key_inj in Hk as [-> ->]. done.
  - exfalso. apply H1. apply in_map_key. eauto.
Qed.

(** ** The registry of indexed properties *)

Lemma set_tree_set_tree_eq s tn m m' : set_tree (set_tree s tn m) tn m' = set_tree s tn m'.
Proof. by destruct s, tn. Qed.

Lemma set_tree_id s tn : set_tree s tn (tree_of s tn) = s.
Proof. by destruct s, tn. Qed.

Lemma for_each_tree_map {A} (f : A → M unit) (g : A → gmap Key Val → gmap Key Val)
    (tn : TreeName) (l : list A) :
  (∀ a s, out_res (f a s) = Ok () ∧ out_st (f a s) = set_tree s tn (g a (tree_of s tn))) →
  ∀ s, out_res (for_each f l s) = Ok () ∧
       out_st (for_each f l s) = set_tree s tn (fold_left (λ m a, g a m) l (tree_of s tn)).
Proof.
  intros Hf. induction l as [|x l IH]; intros s; cbn [for_each fold_left].
  - split; [done|]. symmetry. apply set_tree_id.
  - destruct (Hf x s) as [Hok Hst].
    rewrite (bind_ok (f x) (λ _, for_each f l) s () Hok). cbn [out_res out_st].
    destruct (IH (out_st (f x s))) as [H1 H2]. rewrite H1, H2, Hst.
    rewrite tree_of_set_tree_eq, set_tree_set_tree_eq. done.
Qed.

Lemma sync_spec s :
  out_res (MetaDataManager.sync s) = Ok () ∧
  out_st (MetaDataManager.sync s) =
    set_tree s TMetadata
      (fold_left (λ m p, <[[CIdentifier MetaDataManager.INDEXED_PROPERTIES; CIdentifier p] := []]> m)
         (elements (indexed_properties s))
         (fold_left (λ m kv, delete kv.1 m) (registry_scan s) (metadata s))).
Proof.
  unfold MetaDataManager.sync.
  rewrite (bind_ok (tree_scan_prefix TMetadata _) _ s (registry_scan s) eq_refl).
  cbn [tree_scan_prefix out_st out_res out_log].
  destruct (for_each_tree_map (λ kv : Key * Val, tree_remove TMetadata kv.1)
    (λ kv m, delete kv.1 m) TMetadata (registry_scan s)) with (s := s) as [H1 H2];
    [intros; split; reflexivity|].
  rewrite (bind_ok (for_each _ _) _ s () H1), H2.
  rewrite (bind_ok MetaDataManager.read_indexed _ _ _ eq_refl).
  cbn [MetaDataManager.read_indexed out_st out_res].
  destruct (for_each_tree_map
    (λ index, tree_insert TMetadata [CIdentifier MetaDataManager.INDEXED_PROPERTIES; CIdentifier index] [])
    (λ index m, <[[CIdentifier MetaDataManager.INDEXED_PROPERTIES; CIdentifier index] := []]> m)
    TMetadata (elements (indexed_properties (set_tree s TMetadata
      (fold_left (λ m kv, delete kv.1 m) (registry_scan s) (metadata s))))))
    with (s := set_tree s TMetadata (fold_left (λ m kv, delete kv.1 m) (registry_scan s) (metadata s)))
    as [H3 H4]; [intros; split; reflexivity|].
  rewrite H3, H4. rewrite tree_of_set_tree_eq, set_tree_set_tree_eq, indexed_set_tree. done.
Qed.

Lemma in_registry_keys (ip : gset string) k :
  k ∈ map (λ p, [CIdentifier MetaDataManager.INDEXED_PROPERTIES; CIdentifier p]) (elements ip) ↔
  ∃ p, p ∈ ip ∧ k = [CIdentifier MetaDataManager.INDEXED_PROPERTIES; CIdentifier p].
Proof.
  rewrite in_map_key. split; intros (p & Hp & Hk); exists p; rewrite elem_of_elements in *; done.
Qed.

Lemma in_registry_scan s k :
  k ∈ map (λ kv : Key * Val, kv.1) (registry_scan s) ↔
  starts_with registry_prefix k = true ∧ is_Some (metadata s !! k).
Proof.
  rewrite in_map_key. unfold registry_scan. split.
  - intros ([k' w] & Hin & <-). apply list_elem_of_filter in Hin as [Hpre Hin].
    apply elem_of_map_to_list in Hin. simpl. eauto.
  - intros [Hpre [w Hw]]. exists (k, w). split; [|done].
    apply list_elem_of_filter. split; [done|]. by apply elem_of_map_to_list.
Qed.

Lemma sync_lookup s k :
  metadata (out_st (MetaDataManager.sync s)) !! k =
    if bool_decide (k ∈ map (λ p, [CIdentifier MetaDataManager.INDEXED_PROPERTIES; CIdentifier p])
                          (elements (indexed_properties s))) then Some []
    else if starts_with registry_prefix k then None else metadata s !! k.
Proof.
  destruct (sync_spec s) as [_ ->]. rewrite tree_of_set_tree_eq.
  rewrite (fold_insert_lookup (λ p, [CIdentifier MetaDataManager.INDEXED_PROPERTIES; CIdentifier p])).
  case_bool_decide; [done|].
  rewrite (fold_delete_lookup (λ kv : Key * Val, kv.1)).
  case_bool_decide as Hk.
  - apply in_registry_scan in Hk as [-> _]. done.
  - destruct (starts_with registry_prefix k) eqn:Hp; [|done].
    destruct (metadata s !! k) eqn:Hm; [|done]. exfalso. apply Hk, in_registry_scan. eauto.
Qed.

Lemma load_loop (items : list (Key * Val)) :
  (∀ kv, kv ∈ items → ∃ p, MetaDataManager.read_index_key kv.1 = Ok p) →
  ∀ s, let s' := out_st (for_each (λ kv : Key * Val,
      prop ← lift (MetaDataManager.read_index_key kv.1);
      ip ← MetaDataManager.read_indexed;
      MetaDataManager.write_indexed ({[prop]} ∪ ip)) items s) in
  out_res (for_each (λ kv : Key * Val,
      prop ← lift (MetaDataManager.read_index_key kv.1);
      ip ← MetaDataManager.read_indexed;
      MetaDataManager.write_indexed ({[prop]} ∪ ip)) items s) = Ok () ∧
  (∀ tn, tree_of s' tn = tree_of s tn) ∧
  ∀ x, x ∈ indexed_properties s' ↔
       x ∈ indexed_properties s ∨ ∃ kv, kv ∈ items ∧ MetaDataManager.read_index_key kv.1 = Ok x.
Proof.
  induction items as [|kv items IH]; intros Hall s s'.
  - split_and!; [done|done|]. intros x. split; [by left|]. intros [?|(? & Hin & _)]; [done|].
    by apply not_elem_of_nil in Hin.
  - destruct (Hall kv) as [p Hp]; [left|].
    subst s'. cbn [for_each].
    match goal with |- context [((?m ≫= (λ _, for_each ?body items)) s)] =>
      assert (Hb : m s = mkOut (Ok ()) (set_indexed s ({[p]} ∪ indexed_properties s)) [])
        by (unfold mbind, M_bind, lift; rewrite Hp; reflexivity);
      rewrite (bind_ok m (λ _, for_each body items) s () ltac:(rewrite Hb; reflexivity)),
        Hb; cbn [out_res out_st out_log]
    end.
    destruct (IH (λ kv' Hin, Hall kv' (list_elem_of_further _ _ _ Hin))
      (set_indexed s ({[p]} ∪ indexed_properties s))) as (Hok & Htr & Hip).
    split_and!; [done|intros tn; rewrite Htr; apply tree_of_set_indexed|].
    intros x. rewrite Hip. destruct s; cbn [set_indexed]. cbn.
    rewrite elem_of_union, elem_of_singleton. split.
    + intros [[->|?]|(kv' & ? & ?)]; [right; exists kv; split; [left|done]|by left|].
      right. exists kv'. split; [by right|done].
    + intros [?|(kv' & Hin & Hk)]; [by left; right|].
      apply elem_of_cons in Hin as [->|Hin].
      * rewrite Hp in Hk. injection Hk as <-. by left; left.
      * right. eauto.
Qed.

Lemma starts_with_registry_key p :
  starts_with registry_prefix [CIdentifier MetaDataManager.INDEXED_PROPERTIES; CIdentifier p] = true.
Proof. reflexivity. Qed.

Lemma sync_registry_items s kv :
  kv ∈ registry_scan (out_st (MetaDataManager.sync s)) ↔
  ∃ p, p ∈ indexed_properties s ∧
       kv = ([CIdentifier MetaDataManager.INDEXED_PROPERTIES; CIdentifier p], []).
Proof.
  destruct kv as [k w]. unfold registry_scan. rewrite list_elem_of_filter, elem_of_map_to_list.
  cbn [fst snd]. rewrite sync_lookup. split.
  - intros [Hpre Hk]. case_bool_decide as Hin.
    + injection Hk as <-. apply in_registry_keys in Hin as (p & Hp & ->). eauto.
    + rewrite Hpre in Hk. discriminate.
  - intros (p & Hp & Hkv). injection Hkv as -> ->. split; [apply starts_with_registry_key|].
    rewrite bool_decide_true; [done|]. apply in_registry_keys. eauto.
Qed.

Lemma indexed_set_indexed s ip : indexed_properties (set_indexed s ip) = ip.
Proof. by destruct s. Qed.

Lemma registry_round_trip_helper s :
  out_res (MetaDataManager.new (out_st (MetaDataManager.sync s))) = Ok () ∧
  indexed_properties (out_st (MetaDataManager.new (out_st (MetaDataManager.sync s)))) =
    indexed_properties s.
Proof.
  set (s1 := out_st (MetaDataManager.sync s)). unfold MetaDataManager.new.
  rewrite (bind_ok (MetaDataManager.write_indexed ∅) _ s1 () eq_refl).
  cbn [MetaDataManager.write_indexed out_st out_res].
  unfold MetaDataManager.load.
  rewrite (bind_ok (tree_scan_prefix TMetadata _) _ (set_indexed s1 ∅) (registry_scan s1)
    ltac:(unfold registry_scan; cbn [tree_scan_prefix out_res]; rewrite tree_of_set_indexed; done)).
  cbn [tree_scan_prefix out_st out_res].
  destruct (load_loop (registry_scan s1)) with (s := set_indexed s1 ∅) as (Hok & _ & Hip).
  { intros kv Hkv. apply sync_registry_items in Hkv as (p & _ & ->). exists p. done. }
  split; [exact Hok|]. apply set_eq. intros x. rewrite Hip.
  rewrite indexed_set_indexed. split.
  - intros [Hx|(kv & Hkv & Hk)]; [by apply not_elem_of_empty in Hx|].
    apply sync_registry_items in Hkv as (p & Hp & ->). cbn in Hk. injection Hk as <-. done.
  - intros Hx. right. exists ([CIdentifier MetaDataManager.INDEXED_PROPERTIES; CIdentifier x], []).
    split; [|done]. apply sync_registry_items. eauto.
Qed.

Lemma sync_frame s :
  out_res (MetaDataManager.sync s) = Ok () ∧
  indexed_properties (out_st (MetaDataManager.sync s)) = indexed_properties s ∧
  faults (out_st (MetaDataManager.sync s)) = faults s ∧
  ∀ tn, tn ≠ TMetadata → tree_of (out_st (MetaDataManager.sync s)) tn = tree_of s tn.
Proof.
  destruct (sync_spec s) as [Hok ->]. split_and!; [done|apply indexed_set_tree|apply faults_set_tree|].
  intros tn Htn. apply tree_of_set_tree_ne. done.
Qed.

Lemma sync_registry_key s p :
  metadata (out_st (MetaDataManager.sync s))
    !! [CIdentifier MetaDataManager.INDEXED_PROPERTIES; CIdentifier p] =
  if bool_decide (p ∈ indexed_properties s) then Some [] else None.
Proof.
  rewrite sync_lookup, starts_with_registry_key.
  case_bool_decide as H1; case_bool_decide as H2; try done.
  - apply in_registry_keys in H1 as (p' & Hp' & Hk). injection Hk as ->. done.
  - exfalso. apply H1, in_registry_keys. eauto.
Qed.

(** When [MetaDataManager::sync] returns [Ok], it has changed only the
    metadata tree, in which the keys under [IndexedProperties] are now
    exactly one [(IndexedProperties, p)] key with an empty value for each
    registered name [p]; the keys outside that prefix are kept.  The
    statement is about a successful call: sled's [scan_prefix], [remove]
    and [insert] can fail with an I/O error, which stops [sync] at its
    [?], and the model gives them no such error. *)
Theorem sync_rewrites_registry (s : Store) :
  out_res (MetaDataManager.sync s) = Ok () →
  let s' := out_st (MetaDataManager.sync s) in
  indexed_properties s' = indexed_properties s ∧
  (∀ tn, tn ≠ TMetadata → tree_of s' tn = tree_of s tn) ∧
  (∀ p, metadata s' !! [CIdentifier MetaDataManager.INDEXED_PROPERTIES; CIdentifier p] =
        if bool_decide (p ∈ indexed_properties s) then Some [] else None) ∧
  (∀ k w, starts_with [CIdentifier MetaDataManager.INDEXED_PROPERTIES] k = true →
          metadata s' !! k = Some w →
          ∃ p, k = [CIdentifier MetaDataManager.INDEXED_PROPERTIES; CIdentifier p]) ∧
  (∀ k, starts_with [CIdentifier MetaDataManager.INDEXED_PROPERTIES] k = false →
        metadata s' !! k = metadata s !! k).
Proof.
  intros _ s'. destruct (sync_frame s) as (_ & Hip & _ & Htr).
  split_and!; [done|done|apply sync_registry_key| |].
  - intros k w Hpre Hk. subst s'. rewrite sync_lookup in Hk. case_bool_decide as Hin.
    + apply in_registry_keys in Hin as (p & _ & ->). eauto.
    + change registry_prefix with [CIdentifier MetaDataManager.INDEXED_PROPERTIES] in Hk.
      rewrite Hpre in Hk. discriminate.
  - intros k Hpre. subst s'. rewrite sync_lookup. case_bool_decide as Hin.
    + apply in_registry_keys in Hin as (p & _ & ->). discriminate.
    + change registry_prefix with [CIdentifier MetaDataManager.INDEXED_PROPERTIES]. by rewrite Hpre.
Qed.

(** What [sync] writes, [MetaDataManager::new] reads back: when [sync]
    and then [new] both return [Ok], the registry [new] loads is the
    registry that was synced.  (Only successful calls are considered:
    the I/O errors of sled's scans and writes are not in the model.) *)
Theorem registry_round_trip (s : Store) :
  out_res (MetaDataManager.sync s) = Ok () →
  out_res (MetaDataManager.new (out_st (MetaDataManager.sync s))) = Ok () →
  indexed_properties (out_st (MetaDataManager.new (out_st (MetaDataManager.sync s)))) =
    indexed_properties s.
Proof.
  intros _ _. by destruct (registry_round_trip_helper s).
Qed.

(** When [remove_index prop] returns [Ok], it has left exactly the
    registry without [prop], and only the metadata tree can have changed;
    when [prop] was registered the stored registry keys have been rewritten
    to the new registry (by [sync], whose sled I/O errors are not in the
    model, hence the condition on success).  When [prop] was not
    registered, the call returns [Ok] at once and changes nothing. *)
Theorem remove_index_effect (prop : Identifier) (s : Store) :
  out_res (MetaDataManager.remove_index prop s) = Ok () →
  let s' := out_st (MetaDataManager.remove_index prop s) in
  indexed_properties s' = indexed_properties s ∖ {[prop]} ∧
  (∀ tn, tn ≠ TMetadata → tree_of s' tn = tree_of s tn) ∧
  (prop ∈ indexed_properties s →
     ∀ p, metadata s' !! [CIdentifier MetaDataManager.INDEXED_PROPERTIES; CIdentifier p] =
          if bool_decide (p ∈ indexed_properties s ∧ p ≠ prop) then Some [] else None) ∧
  (prop ∉ indexed_properties s → MetaDataManager.remove_index prop s = mkOut (Ok ()) s []).
Proof.
  intros _ s'. subst s'. unfold MetaDataManager.remove_index.
  rewrite (bind_ok MetaDataManager.read_indexed _ s _ eq_refl). cbn [MetaDataManager.read_indexed out_st out_res out_log].
  case_bool_decide as Hin.
  - rewrite (bind_ok (MetaDataManager.write_indexed _) _ s () eq_refl).
    cbn [MetaDataManager.write_indexed out_st out_res out_log].
    destruct (sync_frame (set_indexed s (indexed_properties s ∖ {[prop]}))) as (Hok & Hip & _ & Htr).
    split_and!; [rewrite Hip; apply indexed_set_indexed| | |].
    + intros tn Htn. rewrite Htr by done. apply tree_of_set_indexed.
    + intros _ p. rewrite sync_registry_key, indexed_set_indexed.
      rewrite (bool_decide_ext _ (p ∈ indexed_properties s ∧ p ≠ prop)); [done|set_solver].
    + intros Hn. by apply Hn in Hin.
  - split_and!; try done. cbn [mret M_ret out_st]. set_solver.
Qed.

(** Indexing a name twice: the second [index_property] returns [Ok] at once,
    with no store operation and the store unchanged. *)
Theorem index_property_idempotent (name : Identifier) (s : Store) :
  let s1 := out_st (SledTransaction.index_property name s) in
  SledTransaction.index_property name s1 = mkOut (Ok ()) s1 [].
Proof.
  intros s1. assert (Hin : name ∈ indexed_properties s1).
  { subst s1. unfold SledTransaction.index_property, MetaDataManager.add_index.
    rewrite (bind_ok MetaDataManager.read_indexed _ s _ eq_refl).
    cbn [MetaDataManager.read_indexed out_st out_res out_log].
    case_bool_decide as Hin; [done|].
    rewrite (bind_ok (MetaDataManager.write_indexed _) _ s () eq_refl).
    cbn [MetaDataManager.write_indexed out_st out_res out_log].
    destruct (sync_frame (set_indexed s ({[name]} ∪ indexed_properties s))) as (_ & Hip & _).
    cbn [out_st]. rewrite Hip, indexed_set_indexed. set_solver. }
  unfold SledTransaction.index_property, MetaDataManager.add_index.
  rewrite (bind_ok MetaDataManager.read_indexed _ s1 _ eq_refl).
  cbn [MetaDataManager.read_indexed out_st out_res out_log].
  rewrite bool_decide_true by done. reflexivity.
Qed.

(** ** Reading the vertex tree *)

Lemma range_vertices_unfold offset s :
  SledTransaction.range_vertices offset s =
  mkOut (Ok (map to_vertex_item
    (filter (λ kv, key_compare [CUuid offset] kv.1 ≠ Gt) (map_to_list (vertices s))))) s [].
Proof.
  unfold SledTransaction.range_vertices, VertexManager.iterate_for_range, VertexManager.iterate.
  cbv [mbind M_bind mret M_ret tree_range]. rewrite map_map. reflexivity.
Qed.

Lemma all_vertices_unfold s : SledTransaction.all_vertices s = SledTransaction.range_vertices 0%N s.
Proof. reflexivity. Qed.

Lemma key_compare_uuid (a b : Uuid) : key_compare [CUuid a] [CUuid b] ≠ Gt ↔ (a ≤ b)%N.
Proof. cbn. destruct (N.compare a b) eqn:H; unfold N.le; rewrite H; done. Qed.

Lemma vertex_items_elem offset s (v : Vertex) :
  vertex_rows s →
  Ok v ∈ map to_vertex_item
    (filter (λ kv, key_compare [CUuid offset] kv.1 ≠ Gt) (map_to_list (vertices s))) ↔
  (offset ≤ id v)%N ∧ vertices s !! VertexManager.key (id v) = Some [CIdentifier (vertex_t v)].
Proof.
  intros Hrows. rewrite in_map_key. split.
  - intros ([k w] & Hin & Hv). apply list_elem_of_filter in Hin as [Hc Hin].
    apply elem_of_map_to_list in Hin. destruct (Hrows _ _ Hin) as (vid & label & -> & ->).
    cbn in Hv. injection Hv as <-. cbn. split; [by apply key_compare_uuid|done].
  - intros [Hle Hk]. exists (VertexManager.key (id v), [CIdentifier (vertex_t v)]).
    split; [|by destruct v].
    apply list_elem_of_filter. split; [by apply key_compare_uuid|]. by apply elem_of_map_to_list.
Qed.

Lemma vertex_items_ok offset s r :
  vertex_rows s →
  r ∈ map to_vertex_item
    (filter (λ kv, key_compare [CUuid offset] kv.1 ≠ Gt) (map_to_list (vertices s))) →
  ∃ v, r = Ok v.
Proof.
  intros Hrows Hr. apply in_map_key in Hr as ([k w] & Hin & <-).
  apply list_elem_of_filter in Hin as [_ Hin]. apply elem_of_map_to_list in Hin.
  destruct (Hrows _ _ Hin) as (vid & label & -> & ->). eexists. reflexivity.
Qed.

Lemma NoDup_map_on {A B} (f : A → B) (l : list A) :
  (∀ x y, x ∈ l → y ∈ l → f x = f y → x = y) → NoDup l → NoDup (map f l).
Proof.
  induction l as [|x l IH]; intros Hinj Hnd; cbn [map]; [constructor|].
  apply NoDup_cons in Hnd as [Hx Hnd]. apply NoDup_cons. split.
  - intros Hfx. apply in_map_key in Hfx as (y & Hy & Hxy).
    assert (y = x) as -> by (apply Hinj; [right|left|]; done). done.
  - apply IH; [|done]. intros a b Ha Hb. apply Hinj; by right.
Qed.

(** On a reachable store, [range_vertices offset] reads without changing
    the store, yields only [Ok] items, and yields a vertex exactly when the
    vertex tree stores it and its id is not below [offset]. *)
Theorem range_vertices_rows (offset : Uuid) (s : Store) :
  reachable s →
  ∃ items, SledTransaction.range_vertices offset s = mkOut (Ok items) s [] ∧
    (∀ r, r ∈ items → ∃ v, r = Ok v) ∧
    ∀ v, Ok v ∈ items ↔
         (offset ≤ id v)%N ∧ vertices s !! VertexManager.key (id v) = Some [CIdentifier (vertex_t v)].
Proof.
  intros Hr. destruct (reachable_invariants s Hr) as (_ & _ & _ & _ & Hrows).
  eexists. split; [apply range_vertices_unfold|]. split.
  - intros r. by apply vertex_items_ok.
  - intros v. by apply vertex_items_elem.
Qed.

(** On a reachable store, [all_vertices] reads without changing the store
    and yields every vertex of the vertex tree exactly once, each as an
    [Ok] item, and nothing else. *)
Theorem all_vertices_rows (s : Store) :
  reachable s →
  ∃ items, SledTransaction.all_vertices s = mkOut (Ok items) s [] ∧ NoDup items ∧
    (∀ r, r ∈ items → ∃ v, r = Ok v) ∧
    ∀ v, Ok v ∈ items ↔ vertices s !! VertexManager.key (id v) = Some [CIdentifier (vertex_t v)].
Proof.
  intros Hr. destruct (reachable_invariants s Hr) as (_ & _ & _ & _ & Hrows).
  eexists. rewrite all_vertices_unfold. split_and!; [apply range_vertices_unfold| | |].
  - apply NoDup_map_on; [|apply NoDup_filter, NoDup_map_to_list].
    intros [k w] [k' w'] Hin Hin' Heq.
    apply list_elem_of_filter, proj2, elem_of_map_to_list in Hin, Hin'.
    destruct (Hrows _ _ Hin) as (vid & label & -> & ->).
    destruct (Hrows _ _ Hin') as (vid' & label' & -> & ->).
    cbn in Heq. by injection Heq as -> ->.
  - intros r. by apply vertex_items_ok.
  - intros v. rewrite vertex_items_elem by done. split; [by intros []|]. split; [lia|done].
Qed.

Lemma vm_get_rows vid s :
  faults s = ∅ → vertex_rows s →
  VertexManager.get vid s =
  mkOut (Ok (match vertices s !! VertexManager.key vid with
             | Some (CIdentifier label :: _) => Some label
             | _ => None
             end)) s [EvGet TVertices (VertexManager.key vid)].
Proof.
  intros Hf Hrows. unfold VertexManager.get, tree_get. cbv [mbind M_bind mret M_ret]. rewrite Hf.
  rewrite bool_decide_false by apply not_elem_of_empty.
  destruct (vertices s !! VertexManager.key vid) as [w|] eqn:Hl; [|reflexivity].
  destruct (Hrows _ _ Hl) as (? & ? & _ & ->). reflexivity.
Qed.

Lemma specific_vertices_spec (ids : list Uuid) s :
  faults s = ∅ → vertex_rows s →
  out_st (SledTransaction.specific_vertices ids s) = s ∧
  ∃ items, out_res (SledTransaction.specific_vertices ids s) = Ok items ∧
    (∀ r, r ∈ items → ∃ v, r = Ok v) ∧
    ∀ v, Ok v ∈ items ↔
         id v ∈ ids ∧ vertices s !! VertexManager.key (id v) = Some [CIdentifier (vertex_t v)].
Proof.
  intros Hf Hrows. induction ids as [|vid ids IH]; cbn [SledTransaction.specific_vertices].
  - split; [done|]. exists []. split_and!; [done|by intros ? ?%not_elem_of_nil|].
    intros v. split; [by intros ?%not_elem_of_nil|]. intros [?%not_elem_of_nil _]. done.
  - destruct IH as (Hst & items & Hok & Hall & Hmem).
    rewrite (bind_ok (attempt (VertexManager.get vid)) _ s _
      ltac:(unfold attempt; rewrite vm_get_rows by done; reflexivity)).
    assert (Hs1 : out_st (attempt (VertexManager.get vid) s) = s)
      by (unfold attempt; rewrite vm_get_rows by done; reflexivity).
    rewrite Hs1, (bind_ok (SledTransaction.specific_vertices ids) _ s items Hok), Hst.
    cbv [mret M_ret out_res out_st].
    destruct (vertices s !! VertexManager.key vid) as [w|] eqn:Hl.
    + destruct (Hrows _ _ Hl) as (vid' & label & Hk & ->). cbn iota.
      split; [done|]. eexists. split; [reflexivity|]. split.
      * intros r [->|Hr]%elem_of_cons; [by eexists|auto].
      * intros v. rewrite elem_of_cons, Hmem. split.
        -- intros [Hv|[Hin Hv]]; [injection Hv as ->; cbn; split; [left|]; done|].
           split; [right|]; done.
        -- intros [Hin Hk']; apply elem_of_cons in Hin as [Hv|Hin]; [|by right].
           left. destruct v as [i l]; cbn in *; subst i. rewrite Hl in Hk'.
           by injection Hk' as ->.
    + cbn iota. split; [done|]. exists items. split_and!; [done|done|].
      intros v. rewrite Hmem, elem_of_cons. split; [intros [? ?]; auto|].
      intros [[Hv|Hin] Hk']; [|done]. rewrite Hv, Hl in Hk'. discriminate.
Qed.

(** On a reachable store, [specific_vertices ids] does not change the
    store, yields only [Ok] items, and yields a vertex exactly when its id is
    listed and the vertex tree stores it with that type: absent ids are
    dropped. *)
Theorem specific_vertices_rows (ids : list Uuid) (s : Store) :
  reachable s →
  out_st (SledTransaction.specific_vertices ids s) = s ∧
  ∃ items, out_res (SledTransaction.specific_vertices ids s) = Ok items ∧
    (∀ r, r ∈ items → ∃ v, r = Ok v) ∧
    ∀ v, Ok v ∈ items ↔
         id v ∈ ids ∧ vertices s !! VertexManager.key (id v) = Some [CIdentifier (vertex_t v)].
Proof.
  intros Hr. destruct (reachable_invariants s Hr) as ([Hf _] & _ & _ & _ & Hrows).
  by apply specific_vertices_spec.
Qed.

(** ** Listing the properties of one owner *)

Lemma starts_with_uuid_iff a b rest : starts_with [CUuid a] (CUuid b :: rest) = true ↔ b = a.
Proof.
  cbn. rewrite andb_true_r, bool_decide_eq_true. split; [intros [= ->]|intros ->]; done.
Qed.

Lemma starts_with_owner_prefix e e' n :
  starts_with (EdgePropertyManager.owner_prefix e) (EdgePropertyManager.key e' n) = true ↔ e' = e.
Proof.
  destruct e as [o et i], e' as [o' et' i']. cbn.
  rewrite andb_true_r, !andb_true_iff, !bool_decide_eq_true. split.
  - intros [[= ->] [[= ->] [= ->]]]. done.
  - intros [= -> -> ->]. done.
Qed.

Lemma vertex_properties_listing_unfold v s :
  SledTransaction.all_vertex_properties_for_vertex v s =
  mkOut (Ok (map (λ kv, map_result (λ '((_, name), val), (name, val))
                         (VertexPropertyManager.read_owned kv))
    (filter (λ kv, starts_with [CUuid (id v)] kv.1 = true) (map_to_list (vertex_properties s)))))
    s [EvScan TVertexProperties [CUuid (id v)]].
Proof.
  unfold SledTransaction.all_vertex_properties_for_vertex, VertexPropertyManager.iterate_for_owner.
  cbv [mbind M_bind mret M_ret tree_scan_prefix]. rewrite map_map. reflexivity.
Qed.

Lemma edge_properties_listing_unfold e s :
  SledTransaction.all_edge_properties_for_edge e s =
  mkOut (Ok (map (λ kv, map_result (λ '((_, pid), val), (pid, val))
                         (EdgePropertyManager.read_owned kv))
    (filter (λ kv, starts_with (EdgePropertyManager.owner_prefix e) kv.1 = true)
       (map_to_list (edge_properties s)))))
    s [EvScan TEdgeProperties (EdgePropertyManager.owner_prefix e)].
Proof.
  unfold SledTransaction.all_edge_properties_for_edge, EdgePropertyManager.iterate_for_owner.
  cbv [mbind M_bind mret M_ret tree_scan_prefix]. rewrite map_map. reflexivity.
Qed.

(** On a reachable store, [all_vertex_properties_for_vertex v] makes one
    prefix scan, yields only [Ok] items, none twice, and yields [(n, x)]
    exactly when [vertex_property v n] returns [Some x]. *)
Theorem vertex_properties_listing (v : Vertex) (s : Store) :
  reachable s →
  ∃ items, SledTransaction.all_vertex_properties_for_vertex v s =
             mkOut (Ok items) s [EvScan TVertexProperties [CUuid (id v)]] ∧
    (∀ r, r ∈ items → ∃ p, r = Ok p) ∧ NoDup items ∧
    ∀ n x, Ok (n, x) ∈ items ↔ out_res (SledTransaction.vertex_property v n s) = Ok (Some x).
Proof.
  intros Hr. destruct (reachable_invariants s Hr) as ([Hf Hsh] & _).
  assert (Hrow : ∀ k w, vertex_properties s !! k = Some w →
    ∃ vid n j, k = VertexPropertyManager.key vid n ∧ w = to_vec j).
  { intros k w Hk. destruct (Hsh _ _ _ Hk) as [(vid & n & ->) (j & ->)]. eauto. }
  eexists. split; [apply vertex_properties_listing_unfold|]. split_and!.
  - intros r Hin. apply in_map_key in Hin as ([k w] & Hin & <-).
    apply list_elem_of_filter, proj2, elem_of_map_to_list in Hin.
    destruct (Hrow _ _ Hin) as (vid & n & j & -> & ->). eexists. reflexivity.
  - apply NoDup_map_on; [|apply NoDup_filter, NoDup_map_to_list].
    intros [k w] [k' w'] Hin Hin' Heq.
    apply list_elem_of_filter in Hin as [Hp Hin], Hin' as [Hp' Hin'].
    apply elem_of_map_to_list in Hin, Hin'.
    destruct (Hrow _ _ Hin) as (vid & n & j & -> & ->).
    destruct (Hrow _ _ Hin') as (vid' & n' & j' & -> & ->).
    cbn [fst] in Hp, Hp'. cbn in Heq. apply starts_with_uuid_iff in Hp, Hp'. subst vid vid'.
    injection Heq as -> ->. done.
  - intros n x. unfold SledTransaction.vertex_property. rewrite vpm_get_nofault by done.
    cbn [out_res]. rewrite get_result_some, in_map_key. split.
    + intros ([k w] & Hin & Hkv). apply list_elem_of_filter in Hin as [Hp Hin].
      apply elem_of_map_to_list in Hin. destruct (Hrow _ _ Hin) as (vid & n' & j & -> & ->).
      cbn [fst] in Hp. cbn in Hkv. apply starts_with_uuid_iff in Hp as ->. injection Hkv as -> ->. done.
    + intros Hk. exists (VertexPropertyManager.key (id v) n, to_vec x). split; [|done].
      apply list_elem_of_filter. split; [by apply starts_with_uuid_iff|]. by apply elem_of_map_to_list.
Qed.

(** On a reachable store, [all_edge_properties_for_edge e] makes one
    prefix scan, yields only [Ok] items, none twice, and yields [(n, x)]
    exactly when [edge_property e n] returns [Some x]. *)
Theorem edge_properties_listing (e : Edge) (s : Store) :
  reachable s →
  ∃ items, SledTransaction.all_edge_properties_for_edge e s =
             mkOut (Ok items) s [EvScan TEdgeProperties (EdgePropertyManager.owner_prefix e)] ∧
    (∀ r, r ∈ items → ∃ p, r = Ok p) ∧ NoDup items ∧
    ∀ n x, Ok (n, x) ∈ items ↔ out_res (SledTransaction.edge_property e n s) = Ok (Some x).
Proof.
  intros Hr. destruct (reachable_invariants s Hr) as ([Hf Hsh] & _).
  assert (Hrow : ∀ k w, edge_properties s !! k = Some w →
    ∃ e' n j, k = EdgePropertyManager.key e' n ∧ w = to_vec j).
  { intros k w Hk. destruct (Hsh _ _ _ Hk) as [(e' & n & ->) (j & ->)]. eauto. }
  assert (Hread : ∀ e' n j, EdgePropertyManager.read_owned (EdgePropertyManager.key e' n, to_vec j)
                            = Ok ((e', n), j)) by (intros [] ? ?; reflexivity).
  eexists. split; [apply edge_properties_listing_unfold|]. split_and!.
  - intros r Hin. apply in_map_key in Hin as ([k w] & Hin & <-).
    apply list_elem_of_filter, proj2, elem_of_map_to_list in Hin.
    destruct (Hrow _ _ Hin) as (e' & n & j & -> & ->). rewrite Hread. eexists. reflexivity.
  - apply NoDup_map_on; [|apply NoDup_filter, NoDup_map_to_list].
    intros [k w] [k' w'] Hin Hin' Heq.
    apply list_elem_of_filter in Hin as [Hp Hin], Hin' as [Hp' Hin'].
    apply elem_of_map_to_list in Hin, Hin'.
    destruct (Hrow _ _ Hin) as (e1 & n & j & -> & ->).
    destruct (Hrow _ _ Hin') as (e2 & n' & j' & -> & ->).
    cbn [fst] in Hp, Hp'. apply starts_with_owner_prefix in Hp, Hp'. subst e1 e2.
    rewrite !Hread in Heq. injection Heq as -> ->. done.
  - intros n x. unfold SledTransaction.edge_property. rewrite epm_get_nofault by done.
    cbn [out_res]. rewrite get_result_some, in_map_key. split.
    + intros ([k w] & Hin & Hkv). apply list_elem_of_filter in Hin as [Hp Hin].
      apply elem_of_map_to_list in Hin. destruct (Hrow _ _ Hin) as (e' & n' & j & -> & ->).
      cbn [fst] in Hp. apply starts_with_owner_prefix in Hp as ->.
      rewrite Hread in Hkv. injection Hkv as -> ->. done.
    + intros Hk. exists (EdgePropertyManager.key e n, to_vec x). split; [|by rewrite Hread].
      apply list_elem_of_filter. split; [by apply starts_with_owner_prefix|].
      by apply elem_of_map_to_list.
Qed.

(** ** Listing the edges *)

Lemma all_edges_unfold s :
  SledTransaction.all_edges s =
  mkOut (Ok (map to_edge_item
    (filter (λ kv, starts_with [] kv.1 = true) (map_to_list (edge_ranges s))))) s
    [EvScan TEdgeRanges []].
Proof. reflexivity. Qed.

(** Modelled from the spec ([iterate_for_all]).  On a reachable store,
    [all_edges] reads without changing the store and yields every edge of
    the edges tree exactly once, each as an [Ok] item, and nothing else. *)
Theorem all_edges_rows (s : Store) :
  reachable s →
  ∃ items, SledTransaction.all_edges s = mkOut (Ok items) s [EvScan TEdgeRanges []] ∧
    NoDup items ∧ (∀ r, r ∈ items → ∃ e, r = Ok e) ∧
    ∀ e, Ok e ∈ items ↔ is_Some (edges s !! EdgeManager.key e).
Proof.
  intros Hr. destruct (reachable_invariants s Hr) as ([_ Hsh] & Hcons & _).
  assert (Hrow : ∀ k w, edge_ranges s !! k = Some w →
    ∃ o et i, k = EdgeRangeManager.key o et i) by (intros k w Hk; exact (Hsh _ _ _ Hk)).
  eexists. split_and!; [apply all_edges_unfold| | |].
  - apply NoDup_map_on; [|apply NoDup_filter, NoDup_map_to_list].
    intros [k w] [k' w'] Hin Hin' Heq.
    apply list_elem_of_filter, proj2, elem_of_map_to_list in Hin, Hin'.
    destruct (Hrow _ _ Hin) as (o & et & i & ->).
    destruct (Hrow _ _ Hin') as (o' & et' & i' & ->).
    cbn in Heq. injection Heq as -> -> ->. rewrite Hin in Hin'. by injection Hin' as ->.
  - intros r Hin. apply in_map_key in Hin as ([k w] & Hin & <-).
    apply list_elem_of_filter, proj2, elem_of_map_to_list in Hin.
    destruct (Hrow _ _ Hin) as (o & et & i & ->). eexists. reflexivity.
  - intros [o et i]. rewrite (proj1 (Hcons o et i)), in_map_key. split.
    + intros ([k w] & Hin & Hkv). apply list_elem_of_filter, proj2, elem_of_map_to_list in Hin.
      destruct (Hrow _ _ Hin) as (o' & et' & i' & ->). cbn in Hkv.
      injection Hkv as -> -> ->. eauto.
    + intros [w Hw]. exists (EdgeRangeManager.key o et i, w). split; [|reflexivity].
      apply list_elem_of_filter. split; [done|]. by apply elem_of_map_to_list.
Qed.

(** ** What [delete_edges] removes *)

Lemma edge_gone_submap e s s' : submap s s' → edge_gone e s → edge_gone e s'.
Proof.
  intros Hsub (H1 & H2 & H3 & H4). split_and!; try (eapply submap_none; eassumption).
  intros k Hk. eapply submap_none; [exact Hsub|]. by apply H4.
Qed.

Lemma delete_edges_loop (es : list Edge) :
  ∀ s, well_formed s → vertex_rows s →
  let s' := out_st (SledTransaction.delete_edges es s) in
  out_res (SledTransaction.delete_edges es s) = Ok () ∧ submap s s' ∧ vertices s' = vertices s ∧
  ∀ e, e ∈ es → is_Some (vertices s !! VertexManager.key (outbound_id e)) → edge_gone e s'.
Proof.
  induction es as [|x es IH]; intros s Hwf Hrows s'; subst s'.
  - split_and!; [done|reflexivity|done|]. by intros e ?%not_elem_of_nil.
  - rewrite delete_edges_body_unfold. cbn [for_each]. rewrite <- delete_edges_body_unfold.
    destruct (vertices s !! VertexManager.key (outbound_id x)) as [w|] eqn:Hl.
    + destruct (Hrows _ _ Hl) as (vid & label & _ & ->).
      destruct (em_delete_ok x s Hwf) as (Hok & G1 & G2 & G3 & G4).
      assert (Hb : (o ← VertexManager.get (outbound_id x);
                    if bool_decide (is_Some o) then EdgeManager.delete x else mret ()) s =
                   mkOut (out_res (EdgeManager.delete x s)) (out_st (EdgeManager.delete x s))
                         (EvGet TVertices (VertexManager.key (outbound_id x)) ::
                          out_log (EdgeManager.delete x s))).
      { rewrite bind_unfold, vm_get_rows by apply Hwf || done. rewrite Hl.
        cbv iota. rewrite bool_decide_true by done. by destruct (EdgeManager.delete x s). }
      rewrite (bind_ok _ (λ _, SledTransaction.delete_edges es) s () ltac:(rewrite Hb; exact Hok)), Hb.
      cbn [out_res out_st].
      set (s1 := out_st (EdgeManager.delete x s)).
      assert (Hsub1 : submap s s1) by apply em_delete_submap.
      assert (Hv1 : vertices s1 = vertices s) by apply (same_vertices_em_delete x s).
      destruct (IH s1) as (Hok' & Hsub' & Hv' & Hg').
      { by eapply well_formed_submap. }
      { intros k w' Hk. rewrite Hv1 in Hk. by apply Hrows. }
      split_and!; [done|by etransitivity|congruence|].
      intros e He Hs. apply elem_of_cons in He as [->|He].
      * eapply edge_gone_submap; [exact Hsub'|]. split_and!; done.
      * apply Hg'; [done|]. by rewrite Hv1.
    + assert (Hb : (o ← VertexManager.get (outbound_id x);
                    if bool_decide (is_Some o) then EdgeManager.delete x else mret ()) s =
                   mkOut (Ok ()) s [EvGet TVertices (VertexManager.key (outbound_id x))]).
      { rewrite bind_unfold, vm_get_rows by apply Hwf || done. rewrite Hl.
        cbv iota. rewrite bool_decide_false by (intros []; discriminate). reflexivity. }
      rewrite (bind_ok _ (λ _, SledTransaction.delete_edges es) s () ltac:(rewrite Hb; reflexivity)), Hb.
      cbn [out_res out_st].
      destruct (IH s Hwf Hrows) as (Hok' & Hsub' & Hv' & Hg').
      split_and!; [done|done|done|].
      intros e He Hs. apply elem_of_cons in He as [->|He]; [|by apply Hg'].
      rewrite Hl in Hs. by destruct Hs.
Qed.

(** On a reachable store, [delete_edges es] returns [Ok], keeps the vertex
    tree, and removes every listed edge whose outbound vertex exists: its
    edges-tree entry, both range entries and all its properties. *)
Theorem delete_edges_removes (es : list Edge) (s : Store) :
  reachable s →
  let s' := out_st (SledTransaction.delete_edges es s) in
  out_res (SledTransaction.delete_edges es s) = Ok () ∧ vertices s' = vertices s ∧
  ∀ e, e ∈ es → is_Some (vertices s !! VertexManager.key (outbound_id e)) →
    edges s' !! EdgeManager.key e = None ∧
    edge_ranges s' !! EdgeRangeManager.key (outbound_id e) (t e) (inbound_id e) = None ∧
    reversed_edge_ranges s' !! EdgeRangeManager.key (inbound_id e) (t e) (outbound_id e) = None ∧
    ∀ k, starts_with (EdgePropertyManager.owner_prefix e) k = true → edge_properties s' !! k = None.
Proof.
  intros Hr s'. destruct (reachable_invariants s Hr) as (Hwf & _ & _ & _ & Hrows).
  destruct (delete_edges_loop es s Hwf Hrows) as (Hok & _ & Hv & Hg).
  split_and!; [done|done|]. intros e He Hs. exact (Hg e He Hs).
Qed.

(** ** Creating a fresh vertex *)

(** Creating a vertex whose id is not stored (and whose read does not
    fail) returns [true], grows [vertex_count] by one, makes
    [VertexManager::get] return its type, and changes no other tree. *)
Theorem create_vertex_fresh (v : Vertex) (s : Store) :
  (TVertices, VertexManager.key (id v)) ∉ faults s →
  vertices s !! VertexManager.key (id v) = None →
  let s' := out_st (SledTransaction.create_vertex v s) in
  out_res (SledTransaction.create_vertex v s) = Ok true ∧
  SledTransaction.vertex_count s' = S (SledTransaction.vertex_count s) ∧
  out_res (VertexManager.get (id v) s') = Ok (Some (vertex_t v)) ∧
  (∀ tn, tn ≠ TVertices → tree_of s' tn = tree_of s tn).
Proof.
  intros Hf Hn s'. subst s'.
  unfold SledTransaction.create_vertex, VertexManager.create. run.
  rewrite (bool_decide_false (_ ∈ faults s)) by done. run. rewrite Hn. run.
  split_and!; [done| | |].
  - unfold SledTransaction.vertex_count, VertexManager.count. rewrite tree_of_set_tree_eq.
    rewrite map_size_insert_None by done. done.
  - unfold VertexManager.get. run. rewrite (bool_decide_false (_ ∈ faults s)) by done.
    run. done.
  - intros tn Htn. by apply tree_of_set_tree_ne.
Qed.

End Model.

(* ------------------------------------------------------------------ *)
(** ** Witnesses

    The hypotheses of the theorems hold on concrete stores.  A concrete
    store needs a concrete hasher: [length_hash] stands in for
    [DefaultHasher] and hashes a value to its length, so different values of
    one length collide. *)

Definition length_hash : JsonHash.
Proof.
  refine {| json_hash j := (N.of_nat (String.length j) mod 2 ^ 64)%N |}.
  intros j. apply N.mod_lt. discriminate.
Defined.

#[local] Existing Instance length_hash.

Lemma create_vertex_twice_witness :
  ((TVertices, VertexManager.key 1%N) ∉ faults empty_store) ∧
  vertices empty_store !! VertexManager.key 1%N = None ∧
  (out_res (SledTransaction.create_vertex (mkVertex 1%N "person"%string) empty_store) = Ok true ∧
   out_res (SledTransaction.create_vertex (mkVertex 1%N "robot"%string)
     (out_st (SledTransaction.create_vertex (mkVertex 1%N "person"%string) empty_store)))
     = Ok false ∧
   out_st (SledTransaction.create_vertex (mkVertex 1%N "robot"%string)
     (out_st (SledTransaction.create_vertex (mkVertex 1%N "person"%string) empty_store)))
     = out_st (SledTransaction.create_vertex (mkVertex 1%N "person"%string) empty_store)).
Proof.
  split; [apply (bool_decide_unpack _ (dec := _)); vm_compute; reflexivity|].
  split; [vm_compute; reflexivity|].
  apply (create_vertex_twice (mkVertex 1%N "person"%string) (mkVertex 1%N "robot"%string)).
  - apply (bool_decide_unpack _ (dec := _)); vm_compute; reflexivity.
  - vm_compute; reflexivity.
  - reflexivity.
Defined.

(** A store with the vertices 1 and 2. *)
Definition two_vertices : Store :=
  out_st (SledTransaction.create_vertex (mkVertex 2%N "person"%string)
    (out_st (SledTransaction.create_vertex (mkVertex 1%N "person"%string) empty_store))).

Lemma create_edge_endpoints_witness :
  ((TVertices, VertexManager.key 1%N) ∉ faults two_vertices) ∧
  ((TVertices, VertexManager.key 2%N) ∉ faults two_vertices) ∧
  is_Some (vertices two_vertices !! VertexManager.key 1%N) ∧
  is_Some (vertices two_vertices !! VertexManager.key 2%N) ∧
  out_res (SledTransaction.create_edge (mkEdge 1%N "knows"%string 2%N) two_vertices) = Ok true.
Proof.
  split; [apply (bool_decide_unpack _ (dec := _)); vm_compute; reflexivity|].
  split; [apply (bool_decide_unpack _ (dec := _)); vm_compute; reflexivity|].
  split; [vm_compute; eexists; reflexivity|].
  split; [vm_compute; eexists; reflexivity|].
  apply (create_edge_endpoints (mkEdge 1%N "knows"%string 2%N) two_vertices).
  - apply (bool_decide_unpack _ (dec := _)); vm_compute; reflexivity.
  - apply (bool_decide_unpack _ (dec := _)); vm_compute; reflexivity.
  - vm_compute; eexists; reflexivity.
  - vm_compute; eexists; reflexivity.
Defined.

Lemma property_overwrite_witness :
  out_res (VertexPropertyManager.set 1%N "age"%string "30"%string empty_store) = Ok () ∧
  out_res (EdgePropertyManager.set (mkEdge 1%N "knows"%string 2%N) "age"%string "30"%string
    empty_store) = Ok () ∧
  out_res (VertexPropertyManager.get 1%N "age"%string
    (out_st (VertexPropertyManager.set 1%N "age"%string "31"%string
      (out_st (VertexPropertyManager.set 1%N "age"%string "30"%string empty_store)))))
    = Ok (Some "31"%string).
Proof.
  split; [vm_compute; reflexivity|].
  split; [vm_compute; reflexivity|].
  apply (property_overwrite 1%N (mkEdge 1%N "knows"%string 2%N) "age"%string
    "30"%string "31"%string empty_store empty_store).
  - vm_compute; reflexivity.
  - vm_compute; reflexivity.
Defined.

Lemma property_index_unconditional_witness :
  out_res (VertexPropertyManager.set 1%N "age"%string "30"%string empty_store) = Ok () ∧
  out_res (EdgePropertyManager.set (mkEdge 1%N "knows"%string 2%N) "age"%string "30"%string
    empty_store) = Ok () ∧
  out_res (SledTransaction.index_property "age"%string empty_store) = Ok ().
Proof.
  split; [vm_compute; reflexivity|].
  split; [vm_compute; reflexivity|].
  apply (property_index_unconditional 1%N (mkEdge 1%N "knows"%string 2%N) "age"%string
    "30"%string empty_store empty_store ∅).
  - vm_compute; reflexivity.
  - vm_compute; reflexivity.
Defined.

Lemma bulk_insert_protocol_witness :
  vertices empty_store = ∅ ∧
  out_res (SledTransaction.bulk_insert [BulkEdge (mkEdge 1%N "knows"%string 2%N)] empty_store)
    = Ok () ∧
  is_Some (edges (out_st (SledTransaction.bulk_insert [BulkEdge (mkEdge 1%N "knows"%string 2%N)]
    empty_store)) !! EdgeManager.key (mkEdge 1%N "knows"%string 2%N)).
Proof.
  split; [reflexivity|]. split; [vm_compute; reflexivity|].
  pose proof (bulk_insert_protocol [BulkEdge (mkEdge 1%N "knows"%string 2%N)] empty_store) as H.
  cbv zeta in H. destruct H as (_ & _ & _ & H).
  exact (proj1 (H (mkEdge 1%N "knows"%string 2%N) ltac:(left))).
Defined.

Lemma delete_vertex_cascade_witness :
  reachable cascade_store ∧
  is_Some (edges cascade_store !! EdgeManager.key (mkEdge 1%N "knows"%string 2%N)) ∧
  is_Some (edges cascade_store !! EdgeManager.key (mkEdge 3%N "knows"%string 1%N)) ∧
  out_res (SledTransaction.delete_vertices [mkVertex 1%N "person"%string] cascade_store) = Ok () ∧
  out_res (SledTransaction.all_edges
    (out_st (SledTransaction.delete_vertices [mkVertex 1%N "person"%string] cascade_store)))
    = Ok [].
Proof.
  assert (Hr : reachable cascade_store).
  { unfold cascade_store. repeat apply reachable_step. apply reachable_empty. }
  split; [exact Hr|].
  split; [vm_compute; eexists; reflexivity|].
  split; [vm_compute; eexists; reflexivity|].
  split; [exact (proj1 (delete_vertex_cascade cascade_store (mkVertex 1%N "person"%string) Hr))|].
  vm_compute. reflexivity.
Defined.


Lemma reachable_cascade_store : reachable cascade_store.
Proof. unfold cascade_store. repeat apply reachable_step. apply reachable_empty. Qed.

Lemma reachable_indexed_store : reachable indexed_store.
Proof. unfold indexed_store. repeat apply reachable_step. apply reachable_empty. Qed.

Lemma indexed_store_age : "age"%string ∈ indexed_properties indexed_store.
Proof.
  apply (bool_decide_eq_true_1 ("age"%string ∈ indexed_properties indexed_store)).
  vm_compute. reflexivity.
Qed.

Lemma indexed_store_since : "since"%string ∈ indexed_properties indexed_store.
Proof.
  apply (bool_decide_eq_true_1 ("since"%string ∈ indexed_properties indexed_store)).
  vm_compute. reflexivity.
Qed.

Lemma value_indexes_mirror_witness :
  reachable indexed_store ∧ vp_index_consistent indexed_store ∧ ep_index_consistent indexed_store.
Proof.
  split; [exact reachable_indexed_store|].
  exact (value_indexes_mirror indexed_store reachable_indexed_store).
Defined.

Lemma vertex_value_query_exact_witness :
  reachable indexed_store ∧ "age"%string ∈ indexed_properties indexed_store ∧
  ∃ items,
    out_res (SledTransaction.vertex_ids_with_property_value "age" "30" indexed_store) = Ok (Some items) ∧
    (∀ r, r ∈ items → ∃ vid, r = Ok vid) ∧
    ∀ v : Vertex, Ok (id v) ∈ items ↔
      ∃ y, out_res (SledTransaction.vertex_property v "age" indexed_store) = Ok (Some y) ∧
           json_hash y = json_hash "30"%string.
Proof.
  split; [exact reachable_indexed_store|]. split; [exact indexed_store_age|].
  exact (vertex_value_query_exact "age" "30" indexed_store reachable_indexed_store indexed_store_age).
Defined.

Lemma vertex_name_query_exact_witness :
  reachable indexed_store ∧ "age"%string ∈ indexed_properties indexed_store ∧
  ∃ items,
    out_res (SledTransaction.vertex_ids_with_property "age" indexed_store) = Ok (Some items) ∧
    (∀ r, r ∈ items → ∃ vid, r = Ok vid) ∧
    ∀ v : Vertex, Ok (id v) ∈ items ↔
      ∃ value, out_res (SledTransaction.vertex_property v "age" indexed_store) = Ok (Some value).
Proof.
  split; [exact reachable_indexed_store|]. split; [exact indexed_store_age|].
  exact (vertex_name_query_exact "age" indexed_store reachable_indexed_store indexed_store_age).
Defined.

Lemma edge_value_query_exact_witness :
  reachable indexed_store ∧ "since"%string ∈ indexed_properties indexed_store ∧
  ∃ items,
    out_res (SledTransaction.edges_with_property_value "since" "2020" indexed_store) = Ok (Some items) ∧
    (∀ r, r ∈ items → ∃ e, r = Ok e) ∧
    ∀ e : Edge, Ok e ∈ items ↔
      ∃ y, out_res (SledTransaction.edge_property e "since" indexed_store) = Ok (Some y) ∧
           json_hash y = json_hash "2020"%string.
Proof.
  split; [exact reachable_indexed_store|]. split; [exact indexed_store_since|].
  exact (edge_value_query_exact "since" "2020" indexed_store reachable_indexed_store
           indexed_store_since).
Defined.

Lemma edge_name_query_exact_witness :
  reachable indexed_store ∧ "since"%string ∈ indexed_properties indexed_store ∧
  ∃ items,
    out_res (SledTransaction.edges_with_property "since" indexed_store) = Ok (Some items) ∧
    (∀ r, r ∈ items → ∃ e, r = Ok e) ∧
    ∀ e : Edge, Ok e ∈ items ↔
      ∃ value, out_res (SledTransaction.edge_property e "since" indexed_store) = Ok (Some value).
Proof.
  split; [exact reachable_indexed_store|]. split; [exact indexed_store_since|].
  exact (edge_name_query_exact "since" indexed_store reachable_indexed_store indexed_store_since).
Defined.

Lemma set_vertex_properties_effect_witness :
  reachable cascade_store ∧
  let s' := out_st (SledTransaction.set_vertex_properties [1%N; 2%N] "name" "x" cascade_store) in
  out_res (SledTransaction.set_vertex_properties [1%N; 2%N] "name" "x" cascade_store) = Ok () ∧
  vertices s' = vertices cascade_store ∧ edges s' = edges cascade_store ∧
  ∀ (v : Vertex) (n : Identifier),
    out_res (SledTransaction.vertex_property v n s') =
      if bool_decide (id v ∈ [1%N; 2%N] ∧ n = "name"%string) then Ok (Some "x"%string)
      else out_res (SledTransaction.vertex_property v n cascade_store).
Proof.
  split; [exact reachable_cascade_store|].
  exact (set_vertex_properties_effect [1%N; 2%N] "name" "x" cascade_store reachable_cascade_store).
Defined.

Lemma set_edge_properties_effect_witness :
  reachable cascade_store ∧
  let s' := out_st (SledTransaction.set_edge_properties [mkEdge 3%N "knows" 1%N] "weight" "2"
                      cascade_store) in
  out_res (SledTransaction.set_edge_properties [mkEdge 3%N "knows" 1%N] "weight" "2" cascade_store)
    = Ok () ∧
  vertices s' = vertices cascade_store ∧ edges s' = edges cascade_store ∧
  ∀ (e : Edge) (n : Identifier),
    out_res (SledTransaction.edge_property e n s') =
      if bool_decide (e ∈ [mkEdge 3%N "knows" 1%N] ∧ n = "weight"%string) then Ok (Some "2"%string)
      else out_res (SledTransaction.edge_property e n cascade_store).
Proof.
  split; [exact reachable_cascade_store|].
  exact (set_edge_properties_effect [mkEdge 3%N "knows" 1%N] "weight" "2" cascade_store
           reachable_cascade_store).
Defined.

Lemma delete_vertex_properties_effect_witness :
  reachable cascade_store ∧
  let s' := out_st (SledTransaction.delete_vertex_properties [(1%N, "age"%string)] cascade_store) in
  out_res (SledTransaction.delete_vertex_properties [(1%N, "age"%string)] cascade_store) = Ok () ∧
  vertices s' = vertices cascade_store ∧ edges s' = edges cascade_store ∧
  ∀ (v : Vertex) (n : Identifier),
    out_res (SledTransaction.vertex_property v n s') =
      if bool_decide ((id v, n) ∈ [(1%N, "age"%string)]) then Ok None
      else out_res (SledTransaction.vertex_property v n cascade_store).
Proof.
  split; [exact reachable_cascade_store|].
  exact (delete_vertex_properties_effect [(1%N, "age"%string)] cascade_store reachable_cascade_store).
Defined.

Lemma delete_edge_properties_effect_witness :
  reachable cascade_store ∧
  let s' := out_st (SledTransaction.delete_edge_properties
                      [(mkEdge 1%N "knows" 2%N, "since"%string)] cascade_store) in
  out_res (SledTransaction.delete_edge_properties [(mkEdge 1%N "knows" 2%N, "since"%string)]
             cascade_store) = Ok () ∧
  vertices s' = vertices cascade_store ∧ edges s' = edges cascade_store ∧
  ∀ (e : Edge) (n : Identifier),
    out_res (SledTransaction.edge_property e n s') =
      if bool_decide ((e, n) ∈ [(mkEdge 1%N "knows" 2%N, "since"%string)]) then Ok None
      else out_res (SledTransaction.edge_property e n cascade_store).
Proof.
  split; [exact reachable_cascade_store|].
  exact (delete_edge_properties_effect [(mkEdge 1%N "knows" 2%N, "since"%string)] cascade_store
           reachable_cascade_store).
Defined.

Lemma range_vertices_rows_witness :
  reachable cascade_store ∧
  ∃ items, SledTransaction.range_vertices 2%N cascade_store = mkOut (Ok items) cascade_store [] ∧
    (∀ r, r ∈ items → ∃ v, r = Ok v) ∧
    ∀ v, Ok v ∈ items ↔
         (2 ≤ id v)%N ∧
         vertices cascade_store !! VertexManager.key (id v) = Some [CIdentifier (vertex_t v)].
Proof.
  split; [exact reachable_cascade_store|].
  exact (range_vertices_rows 2%N cascade_store reachable_cascade_store).
Defined.

Lemma all_vertices_rows_witness :
  reachable cascade_store ∧
  ∃ items, SledTransaction.all_vertices cascade_store = mkOut (Ok items) cascade_store [] ∧
    NoDup items ∧ (∀ r, r ∈ items → ∃ v, r = Ok v) ∧
    ∀ v, Ok v ∈ items ↔
         vertices cascade_store !! VertexManager.key (id v) = Some [CIdentifier (vertex_t v)].
Proof.
  split; [exact reachable_cascade_store|].
  exact (all_vertices_rows cascade_store reachable_cascade_store).
Defined.

Lemma specific_vertices_rows_witness :
  reachable cascade_store ∧
  out_st (SledTransaction.specific_vertices [2%N; 7%N] cascade_store) = cascade_store ∧
  ∃ items, out_res (SledTransaction.specific_vertices [2%N; 7%N] cascade_store) = Ok items ∧
    (∀ r, r ∈ items → ∃ v, r = Ok v) ∧
    ∀ v, Ok v ∈ items ↔
         id v ∈ [2%N; 7%N] ∧
         vertices cascade_store !! VertexManager.key (id v) = Some [CIdentifier (vertex_t v)].
Proof.
  split; [exact reachable_cascade_store|].
  exact (specific_vertices_rows [2%N; 7%N] cascade_store reachable_cascade_store).
Defined.

Lemma vertex_properties_listing_witness :
  reachable cascade_store ∧
  ∃ items, SledTransaction.all_vertex_properties_for_vertex (mkVertex 1%N "person") cascade_store =
             mkOut (Ok items) cascade_store [EvScan TVertexProperties [CUuid 1%N]] ∧
    (∀ r, r ∈ items → ∃ p, r = Ok p) ∧ NoDup items ∧
    ∀ n x, Ok (n, x) ∈ items ↔
      out_res (SledTransaction.vertex_property (mkVertex 1%N "person") n cascade_store) = Ok (Some x).
Proof.
  split; [exact reachable_cascade_store|].
  exact (vertex_properties_listing (mkVertex 1%N "person") cascade_store reachable_cascade_store).
Defined.

Lemma edge_properties_listing_witness :
  reachable cascade_store ∧
  ∃ items, SledTransaction.all_edge_properties_for_edge (mkEdge 1%N "knows" 2%N) cascade_store =
             mkOut (Ok items) cascade_store
               [EvScan TEdgeProperties (EdgePropertyManager.owner_prefix (mkEdge 1%N "knows" 2%N))] ∧
    (∀ r, r ∈ items → ∃ p, r = Ok p) ∧ NoDup items ∧
    ∀ n x, Ok (n, x) ∈ items ↔
      out_res (SledTransaction.edge_property (mkEdge 1%N "knows" 2%N) n cascade_store) = Ok (Some x).
Proof.
  split; [exact reachable_cascade_store|].
  exact (edge_properties_listing (mkEdge 1%N "knows" 2%N) cascade_store reachable_cascade_store).
Defined.

Lemma all_edges_rows_witness :
  reachable cascade_store ∧
  ∃ items, SledTransaction.all_edges cascade_store =
             mkOut (Ok items) cascade_store [EvScan TEdgeRanges []] ∧
    NoDup items ∧ (∀ r, r ∈ items → ∃ e, r = Ok e) ∧
    ∀ e, Ok e ∈ items ↔ is_Some (edges cascade_store !! EdgeManager.key e).
Proof.
  split; [exact reachable_cascade_store|].
  exact (all_edges_rows cascade_store reachable_cascade_store).
Defined.

Lemma delete_edges_removes_witness :
  reachable cascade_store ∧
  let es := [mkEdge 1%N "knows" 2%N; mkEdge 5%N "knows" 1%N] in
  let s' := out_st (SledTransaction.delete_edges es cascade_store) in
  out_res (SledTransaction.delete_edges es cascade_store) = Ok () ∧
  vertices s' = vertices cascade_store ∧
  ∀ e, e ∈ es → is_Some (vertices cascade_store !! VertexManager.key (outbound_id e)) →
    edges s' !! EdgeManager.key e = None ∧
    edge_ranges s' !! EdgeRangeManager.key (outbound_id e) (t e) (inbound_id e) = None ∧
    reversed_edge_ranges s' !! EdgeRangeManager.key (inbound_id e) (t e) (outbound_id e) = None ∧
    ∀ k, starts_with (EdgePropertyManager.owner_prefix e) k = true → edge_properties s' !! k = None.
Proof.
  split; [exact reachable_cascade_store|].
  exact (delete_edges_removes [mkEdge 1%N "knows" 2%N; mkEdge 5%N "knows" 1%N] cascade_store
           reachable_cascade_store).
Defined.

Lemma create_vertex_fresh_witness :
  ((TVertices, VertexManager.key 4%N) ∉ faults cascade_store) ∧
  vertices cascade_store !! VertexManager.key 4%N = None ∧
  let s' := out_st (SledTransaction.create_vertex (mkVertex 4%N "city") cascade_store) in
  out_res (SledTransaction.create_vertex (mkVertex 4%N "city") cascade_store) = Ok true ∧
  SledTransaction.vertex_count s' = S (SledTransaction.vertex_count cascade_store) ∧
  out_res (VertexManager.get 4%N s') = Ok (Some "city"%string) ∧
  (∀ tn, tn ≠ TVertices → tree_of s' tn = tree_of cascade_store tn).
Proof.
  assert (Hf : (TVertices, VertexManager.key 4%N) ∉ faults cascade_store).
  { assert (He : faults cascade_store = ∅) by (vm_compute; reflexivity).
    rewrite He. apply not_elem_of_empty. }
  assert (Hn : vertices cascade_store !! VertexManager.key 4%N = None) by (vm_compute; reflexivity).
  split; [exact Hf|]. split; [exact Hn|].
  exact (create_vertex_fresh (mkVertex 4%N "city") cascade_store Hf Hn).
Defined.

Lemma sync_rewrites_registry_witness :
  out_res (MetaDataManager.sync indexed_store) = Ok () ∧
  metadata (out_st (MetaDataManager.sync indexed_store))
    !! [CIdentifier MetaDataManager.INDEXED_PROPERTIES; CIdentifier "age"] = Some [].
Proof.
  assert (Hok : out_res (MetaDataManager.sync indexed_store) = Ok ()) by (vm_compute; reflexivity).
  split; [exact Hok|].
  destruct (sync_rewrites_registry indexed_store Hok) as (_ & _ & Hreg & _).
  rewrite Hreg. rewrite bool_decide_true by exact indexed_store_age.
  reflexivity.
Defined.

Lemma registry_round_trip_witness :
  out_res (MetaDataManager.sync indexed_store) = Ok () ∧
  out_res (MetaDataManager.new (out_st (MetaDataManager.sync indexed_store))) = Ok () ∧
  indexed_properties (out_st (MetaDataManager.new (out_st (MetaDataManager.sync indexed_store))))
    = indexed_properties indexed_store.
Proof.
  assert (H1 : out_res (MetaDataManager.sync indexed_store) = Ok ()) by (vm_compute; reflexivity).
  assert (H2 : out_res (MetaDataManager.new (out_st (MetaDataManager.sync indexed_store))) = Ok ())
    by (vm_compute; reflexivity).
  exact (conj H1 (conj H2 (registry_round_trip indexed_store H1 H2))).
Defined.

Lemma remove_index_effect_witness :
  out_res (MetaDataManager.remove_index "age" indexed_store) = Ok () ∧
  indexed_properties (out_st (MetaDataManager.remove_index "age" indexed_store))
    = indexed_properties indexed_store ∖ {["age"%string]}.
Proof.
  assert (Hok : out_res (MetaDataManager.remove_index "age" indexed_store) = Ok ()) by (vm_compute; reflexivity).
  split; [exact Hok|].
  exact (proj1 (remove_index_effect "age" indexed_store Hok)).
Defined.

(** Overwriting [age] on vertex 1 from ["30"] to ["31"] under a hasher that
    gives both values one hash: the key [(age, hash "30", 1)] is still in
    the value index afterwards, since it is also the key of ["31"]. *)
Lemma property_overwrite_collision :
  "30"%string ≠ "31"%string ∧
  VertexPropertyManager.key_value_index 1%N "30"%string "age"%string =
    VertexPropertyManager.key_value_index 1%N "31"%string "age"%string ∧
  is_Some (vertex_property_values
    (out_st (VertexPropertyManager.set 1%N "age"%string "31"%string
      (out_st (VertexPropertyManager.set 1%N "age"%string "30"%string empty_store))))
    !! VertexPropertyManager.key_value_index 1%N "30"%string "age"%string).
Proof.
  split; [discriminate|]. split; [reflexivity|].
  vm_compute. eexists. reflexivity.
Defined.
